(** * A shallow embedding of the yauzl-plus ZIP reader

    The development follows the TypeScript sources:
    - [utils/dos-date-time-to-date.ts], [utils/read-uint64-le.ts],
      [utils/validate-filename.ts];
    - [entry.ts] (class [Entry], the two validating transform streams);
    - [zip.ts] (class [Zip], the Mac OS Archive Utility heuristics);
    - [reader.ts] (class [Reader] and its read counter).

    JavaScript numbers are modelled as [Z] (all quantities are integers
    below 2^53), buffers as lists of bytes, nullable fields as [option],
    and the tagged [Result] of the xtry package as an inductive type. *)

From Stdlib Require Import ZArith Lia Bool String Ascii.
From Stdlib Require Import Init.Byte DecimalString.
From stdpp Require Import base option list gmap.

Local Open Scope Z_scope.

(** ** Results (package xtry) *)

Inductive Result (A : Type) : Type :=
| ok (value : A)
| err (error : string).
Arguments ok {A} value.
Arguments err {A} error.

Definition fails {A} (r : Result A) : bool :=
  match r with ok _ => false | err _ => true end.

#[global] Instance Result_ret : MRet Result := fun _ a => ok a.
#[global] Instance Result_bind : MBind Result := fun _ _ f r =>
  match r with ok a => f a | err e => err e end.

(** ** JavaScript integer operators *)

(** [ToInt32] of ECMAScript, on integers. *)
Definition toInt32 (x : Z) : Z := (x + 2 ^ 31) mod 2 ^ 32 - 2 ^ 31.

(** [a & b]. *)
Definition js_and (a b : Z) : Z := Z.land (toInt32 a) (toInt32 b).

(** [a >> n]. *)
Definition js_sar (a n : Z) : Z := Z.shiftr (toInt32 a) (n mod 32).

(** [a % b]: the remainder takes the sign of the dividend. *)
Definition js_rem (a b : Z) : Z := Z.rem a b.

(** [Math.floor(a / b)] and [Math.ceil(a / b)] for a positive [b]. *)
Definition floor_div (a b : Z) : Z := a / b.
Definition ceil_div (a b : Z) : Z := - ((- a) / b).

(** Nullable numbers: arithmetic on [null] uses 0, as [ToNumber(null)]. *)
Definition num (o : option Z) : Z := default 0 o.

(** A JS number is a double: it holds an integer exactly up to 2^53 in
    magnitude; beyond, the integers it holds are the multiples of the
    unit in the last place, and a result is rounded to the nearest of
    them, to the even one of two that are equally near. *)
Definition to_double (x : Z) : Z :=
  if Z.abs x <=? 2 ^ 53 then x else
  let ulp := 2 ^ (Z.log2 (Z.abs x) - 52) in
  let q := x / ulp in
  let r := x mod ulp in
  if 2 * r <? ulp then q * ulp
  else if 2 * r >? ulp then (q + 1) * ulp
  else if Z.even q then q * ulp else (q + 1) * ulp.

(** [a + b], rounded as the sum of two numbers is. *)
Definition js_add (a b : Z) : Z := to_double (a + b).
#[global] Arguments js_add : simpl never.

(** ** Buffers *)

Definition Buffer := list byte.

Definition u8 (b : byte) : Z := Z.of_N (Byte.to_N b).

(** [buffer[i]]: [undefined] out of range. *)
Definition buf_at (buffer : Buffer) (i : Z) : option Z :=
  if i <? 0 then None else u8 <$> (buffer !! Z.to_nat i).

(** Byte [i] as a number, for reads that are in range. *)
Definition byte_at (buffer : Buffer) (i : Z) : Z := default 0 (buf_at buffer i).

Definition readUInt16LE (buffer : Buffer) (offset : Z) : Z :=
  byte_at buffer offset + 256 * byte_at buffer (offset + 1).

Definition readUInt32LE (buffer : Buffer) (offset : Z) : Z :=
  byte_at buffer offset + 256 * byte_at buffer (offset + 1)
  + 65536 * byte_at buffer (offset + 2) + 16777216 * byte_at buffer (offset + 3).

(** [buffer.subarray(start, end)] for [0 <= start]. *)
Definition subarray (buffer : Buffer) (start stop : Z) : Buffer :=
  take (Z.to_nat (stop - start)) (drop (Z.to_nat start) buffer).

Definition subarray_from (buffer : Buffer) (start : Z) : Buffer :=
  drop (Z.to_nat start) buffer.

Definition buf_length (buffer : Buffer) : Z := Z.of_nat (length buffer).

(** [filename.at(-1)]. *)
Definition buf_last (buffer : Buffer) : option Z := u8 <$> last buffer.

Definition FOUR_GIB : Z := 0x100000000.

(** utils/read-uint64-le.ts *)
Definition readUInt64LE (buffer : Buffer) (offset : Z) : Z :=
  readUInt32LE buffer (offset + 4) * FOUR_GIB + readUInt32LE buffer offset.

(** ** Dates

    [Date.UTC] is a built-in of the platform; it is modelled after the
    ECMAScript definitions [DayFromYear], [MakeDay], [MakeTime] and
    [MakeDate].  A [Date] is its time value, in milliseconds since the
    epoch. *)

Definition Date := Z.

Definition msPerDay : Z := 86400000.

Definition DayFromYear (y : Z) : Z :=
  365 * (y - 1970) + (y - 1969) / 4 - (y - 1901) / 100 + (y - 1601) / 400.

Definition InLeapYear (y : Z) : bool :=
  if negb (y mod 4 =? 0) then false
  else if negb (y mod 100 =? 0) then true
  else y mod 400 =? 0.

Definition days_before_month (y m : Z) : Z :=
  let leap := if InLeapYear y then 1 else 0 in
  match m with
  | 0 => 0
  | 1 => 31
  | 2 => 59 + leap
  | 3 => 90 + leap
  | 4 => 120 + leap
  | 5 => 151 + leap
  | 6 => 181 + leap
  | 7 => 212 + leap
  | 8 => 243 + leap
  | 9 => 273 + leap
  | 10 => 304 + leap
  | _ => 334 + leap
  end.

Definition MakeDay (year month date : Z) : Z :=
  let ym := year + month / 12 in
  let mn := month mod 12 in
  DayFromYear ym + days_before_month ym mn + date - 1.

Definition MakeTime (hour min sec ms : Z) : Z :=
  hour * 3600000 + min * 60000 + sec * 1000 + ms.

Definition MakeDate (day time : Z) : Z := day * msPerDay + time.

Definition Date_UTC (year month day hour minute second millisecond : Z) : Date :=
  let yr := if (0 <=? year) && (year <=? 99) then 1900 + year else year in
  MakeDate (MakeDay yr month day) (MakeTime hour minute second millisecond).

(** utils/dos-date-time-to-date.ts *)
Definition dosDateTimeToDate (date time : Z) : Date :=
  let day := js_and date 0x1F in
  let month := js_and (js_sar date 5) 0xF - 1 in
  let year := js_and (js_sar date 9) 0x7F + 1980 in
  let millisecond := 0 in
  let second := js_and time 0x1F * 2 in
  let minute := js_and (js_sar time 5) 0x3F in
  let hour := js_and (js_sar time 11) 0x1F in
  Date_UTC year month day hour minute second millisecond.

(** Bits [lo] to [hi] of [x], as a number. *)
Definition bits (lo hi x : Z) : Z := (x / 2 ^ lo) mod 2 ^ (hi - lo + 1).

(** ** Entries (types.ts, entry.ts) *)

Record ExtraField : Type := {
  ef_id : Z;
  ef_data : Buffer;
}.

(** [string | Buffer]: raw bytes until the strings are decoded. *)
Inductive EntryFilename : Type :=
| Raw (buffer : Buffer)
| Text (s : string).

(** [.length] of a buffer or of a string. *)
Definition text_length (f : EntryFilename) : Z :=
  match f with
  | Raw b => buf_length b
  | Text s => Z.of_nat (String.length s)
  end.

Record EntryProperties : Type := {
  filename : EntryFilename;
  compressedSize : Z;
  uncompressedSize : Z;
  uncompressedSizeIsCertain : bool;
  compressionMethod : Z;
  fileHeaderOffset : Z;
  fileDataOffset : option Z;
  isZip64 : bool;
  crc32 : Z;
  lastModTime : Z;
  lastModDate : Z;
  comment : EntryFilename;
  extraFields : list ExtraField;
  versionMadeBy : Z;
  versionNeededToExtract : Z;
  generalPurposeBitFlag : Z;
  internalFileAttributes : Z;
  externalFileAttributes : Z;
  filenameLength : Z;
  entryEnd : Z;
}.

Definition set_filename (v : EntryFilename) (e : EntryProperties) : EntryProperties :=
  {| filename := v; compressedSize := compressedSize e;
     uncompressedSize := uncompressedSize e;
     uncompressedSizeIsCertain := uncompressedSizeIsCertain e;
     compressionMethod := compressionMethod e; fileHeaderOffset := fileHeaderOffset e;
     fileDataOffset := fileDataOffset e; isZip64 := isZip64 e; crc32 := crc32 e;
     lastModTime := lastModTime e; lastModDate := lastModDate e; comment := comment e;
     extraFields := extraFields e; versionMadeBy := versionMadeBy e;
     versionNeededToExtract := versionNeededToExtract e;
     generalPurposeBitFlag := generalPurposeBitFlag e;
     internalFileAttributes := internalFileAttributes e;
     externalFileAttributes := externalFileAttributes e;
     filenameLength := filenameLength e; entryEnd := entryEnd e |}.

Definition set_comment (v : EntryFilename) (e : EntryProperties) : EntryProperties :=
  {| filename := filename e; compressedSize := compressedSize e;
     uncompressedSize := uncompressedSize e;
     uncompressedSizeIsCertain := uncompressedSizeIsCertain e;
     compressionMethod := compressionMethod e; fileHeaderOffset := fileHeaderOffset e;
     fileDataOffset := fileDataOffset e; isZip64 := isZip64 e; crc32 := crc32 e;
     lastModTime := lastModTime e; lastModDate := lastModDate e; comment := v;
     extraFields := extraFields e; versionMadeBy := versionMadeBy e;
     versionNeededToExtract := versionNeededToExtract e;
     generalPurposeBitFlag := generalPurposeBitFlag e;
     internalFileAttributes := internalFileAttributes e;
     externalFileAttributes := externalFileAttributes e;
     filenameLength := filenameLength e; entryEnd := entryEnd e |}.

Definition set_compressedSize (v : Z) (e : EntryProperties) : EntryProperties :=
  {| filename := filename e; compressedSize := v;
     uncompressedSize := uncompressedSize e;
     uncompressedSizeIsCertain := uncompressedSizeIsCertain e;
     compressionMethod := compressionMethod e; fileHeaderOffset := fileHeaderOffset e;
     fileDataOffset := fileDataOffset e; isZip64 := isZip64 e; crc32 := crc32 e;
     lastModTime := lastModTime e; lastModDate := lastModDate e; comment := comment e;
     extraFields := extraFields e; versionMadeBy := versionMadeBy e;
     versionNeededToExtract := versionNeededToExtract e;
     generalPurposeBitFlag := generalPurposeBitFlag e;
     internalFileAttributes := internalFileAttributes e;
     externalFileAttributes := externalFileAttributes e;
     filenameLength := filenameLength e; entryEnd := entryEnd e |}.

Definition set_uncompressedSize (v : Z) (e : EntryProperties) : EntryProperties :=
  {| filename := filename e; compressedSize := compressedSize e;
     uncompressedSize := v;
     uncompressedSizeIsCertain := uncompressedSizeIsCertain e;
     compressionMethod := compressionMethod e; fileHeaderOffset := fileHeaderOffset e;
     fileDataOffset := fileDataOffset e; isZip64 := isZip64 e; crc32 := crc32 e;
     lastModTime := lastModTime e; lastModDate := lastModDate e; comment := comment e;
     extraFields := extraFields e; versionMadeBy := versionMadeBy e;
     versionNeededToExtract := versionNeededToExtract e;
     generalPurposeBitFlag := generalPurposeBitFlag e;
     internalFileAttributes := internalFileAttributes e;
     externalFileAttributes := externalFileAttributes e;
     filenameLength := filenameLength e; entryEnd := entryEnd e |}.

Definition set_uncompressedSizeIsCertain (v : bool) (e : EntryProperties) : EntryProperties :=
  {| filename := filename e; compressedSize := compressedSize e;
     uncompressedSize := uncompressedSize e;
     uncompressedSizeIsCertain := v;
     compressionMethod := compressionMethod e; fileHeaderOffset := fileHeaderOffset e;
     fileDataOffset := fileDataOffset e; isZip64 := isZip64 e; crc32 := crc32 e;
     lastModTime := lastModTime e; lastModDate := lastModDate e; comment := comment e;
     extraFields := extraFields e; versionMadeBy := versionMadeBy e;
     versionNeededToExtract := versionNeededToExtract e;
     generalPurposeBitFlag := generalPurposeBitFlag e;
     internalFileAttributes := internalFileAttributes e;
     externalFileAttributes := externalFileAttributes e;
     filenameLength := filenameLength e; entryEnd := entryEnd e |}.

Definition set_fileHeaderOffset (v : Z) (e : EntryProperties) : EntryProperties :=
  {| filename := filename e; compressedSize := compressedSize e;
     uncompressedSize := uncompressedSize e;
     uncompressedSizeIsCertain := uncompressedSizeIsCertain e;
     compressionMethod := compressionMethod e; fileHeaderOffset := v;
     fileDataOffset := fileDataOffset e; isZip64 := isZip64 e; crc32 := crc32 e;
     lastModTime := lastModTime e; lastModDate := lastModDate e; comment := comment e;
     extraFields := extraFields e; versionMadeBy := versionMadeBy e;
     versionNeededToExtract := versionNeededToExtract e;
     generalPurposeBitFlag := generalPurposeBitFlag e;
     internalFileAttributes := internalFileAttributes e;
     externalFileAttributes := externalFileAttributes e;
     filenameLength := filenameLength e; entryEnd := entryEnd e |}.

Definition set_fileDataOffset (v : option Z) (e : EntryProperties) : EntryProperties :=
  {| filename := filename e; compressedSize := compressedSize e;
     uncompressedSize := uncompressedSize e;
     uncompressedSizeIsCertain := uncompressedSizeIsCertain e;
     compressionMethod := compressionMethod e; fileHeaderOffset := fileHeaderOffset e;
     fileDataOffset := v; isZip64 := isZip64 e; crc32 := crc32 e;
     lastModTime := lastModTime e; lastModDate := lastModDate e; comment := comment e;
     extraFields := extraFields e; versionMadeBy := versionMadeBy e;
     versionNeededToExtract := versionNeededToExtract e;
     generalPurposeBitFlag := generalPurposeBitFlag e;
     internalFileAttributes := internalFileAttributes e;
     externalFileAttributes := externalFileAttributes e;
     filenameLength := filenameLength e; entryEnd := entryEnd e |}.

(** An [Entry] object: the properties assigned by the constructor
    ([entryEnd] is dropped by the caller and never read through an
    [Entry]) and the weak reference [_ref] to itself, when registered.
    Entry objects live in a store and are named by their address. *)
Definition EntryRef := nat.

Record Entry : Type := {
  props : EntryProperties;
  _ref : option EntryRef;
}.

Definition set_props (p : EntryProperties) (e : Entry) : Entry :=
  {| props := p; _ref := _ref e |}.
Definition set_ref (r : option EntryRef) (e : Entry) : Entry :=
  {| props := props e; _ref := r |}.

(** zip.ts, constants *)
Definition EOCDR_WITHOUT_COMMENT_SIZE : Z := 22.
Definition MAX_EOCDR_COMMENT_SIZE : Z := 0xFFFF.
Definition MAC_CDH_EXTRA_FIELD_ID : Z := 22613.
Definition MAC_CDH_EXTRA_FIELD_LENGTH : Z := 8.
Definition MAC_CDH_EXTRA_FIELDS_LENGTH : Z := MAC_CDH_EXTRA_FIELD_LENGTH + 4.
Definition MAC_LFH_EXTRA_FIELDS_LENGTH : Z := 16.
Definition CDH_MIN_LENGTH : Z := 46.
Definition CDH_MAX_LENGTH : Z := CDH_MIN_LENGTH + 0xFFFF * 3.
Definition CDH_MAX_LENGTH_MAC : Z := CDH_MIN_LENGTH + (0xFFFF + MAC_CDH_EXTRA_FIELDS_LENGTH).

(** zip.ts, [endsWithSlash]: a decoded string never has [at(-1) === 47]. *)
Definition endsWithSlash (f : EntryFilename) : bool :=
  match f with
  | Raw b => bool_decide (buf_last b = Some 47)
  | Text _ => false
  end.

(** zip.ts, [entryMaybeMac] *)
Definition entryMaybeMac (entry : EntryProperties) : bool :=
  if negb (versionMadeBy entry =? 789) then false
  else if text_length (comment entry) >? 0 then false
  else if isZip64 entry then false
  else
    let extraFieldCheck :=
      match extraFields entry !! 0%nat with
      | Some field0 =>
          if negb (Z.of_nat (length (extraFields entry)) =? 1)
             || negb (ef_id field0 =? MAC_CDH_EXTRA_FIELD_ID)
             || negb (buf_length (ef_data field0) =? MAC_CDH_EXTRA_FIELD_LENGTH)
          then false else true
      | None => false
      end in
    if versionNeededToExtract entry =? 20 then
      if negb (generalPurposeBitFlag entry =? 8)
         || negb (compressionMethod entry =? 8)
         || endsWithSlash (filename entry)
      then false else extraFieldCheck
    else if versionNeededToExtract entry =? 10 then
      if negb (generalPurposeBitFlag entry =? 0)
         || negb (compressionMethod entry =? 0)
         || negb (uncompressedSize entry =? compressedSize entry)
      then false
      else if Z.of_nat (length (extraFields entry)) =? 0 then
        if (compressedSize entry =? 0) || endsWithSlash (filename entry)
        then false else true
      else if negb (compressedSize entry =? 0) || negb (crc32 entry =? 0)
      then false else extraFieldCheck
    else false.

(** zip.ts, [firstEntryMaybeMac] *)
Definition firstEntryMaybeMac (entry : EntryProperties) : bool :=
  if negb (fileHeaderOffset entry =? 0) then false else entryMaybeMac entry.

(** zip.ts, [entryCountIsCertain] *)
Definition entryCountIsCertain_fn (entryCount centralDirectorySize : Z) : bool :=
  (entryCount + 0x10000) * CDH_MIN_LENGTH >? centralDirectorySize.

(** entry.ts, [isEncrypted] and [isCompressed] *)
Definition isEncrypted (e : EntryProperties) : bool :=
  negb (js_and (generalPurposeBitFlag e) 0x1 =? 0).

Definition isCompressed (e : EntryProperties) : bool :=
  negb (compressionMethod e =? 0).

(** entry.ts, [getLastModified] *)
Definition getLastModified (e : EntryProperties) : Date :=
  dosDateTimeToDate (lastModDate e) (lastModTime e).
(** ** The archive (zip.ts, class [Zip])

    [size], [isZip64] and [comment] carry a prefix: the names are taken. *)

Record Zip : Type := {
  zip_size : Z;
  decodeStrings : bool;
  validateEntrySizes : bool;
  validateFilenames : bool;
  strictFilenames : bool;
  supportMacArchive : bool;
  zip_isZip64 : option bool;
  entryCount : option Z;
  entryCountIsCertain : bool;
  footerOffset : option Z;
  centralDirectoryOffset : option Z;
  centralDirectorySize : option Z;
  centralDirectorySizeIsCertain : bool;
  zip_comment : option EntryFilename;
  numEntriesRead : Z;
  isMacArchive : bool;
  isMaybeMacArchive : bool;
  compressedSizesAreCertain : bool;
  uncompressedSizesAreCertain : bool;
  _isReading : bool;
  _entryCursor : option Z;
  _fileCursor : option Z;
  _uncertainUncompressedSizeEntryRefs : option (gset EntryRef);
  _firstEntryProps : option EntryProperties;
}.

Definition with_zip_isZip64 (v : option bool) (z : Zip) : Zip :=
  {| zip_size := zip_size z; decodeStrings := decodeStrings z;
     validateEntrySizes := validateEntrySizes z;
     validateFilenames := validateFilenames z; strictFilenames := strictFilenames z;
     supportMacArchive := supportMacArchive z; zip_isZip64 := v;
     entryCount := entryCount z; entryCountIsCertain := entryCountIsCertain z;
     footerOffset := footerOffset z;
     centralDirectoryOffset := centralDirectoryOffset z;
     centralDirectorySize := centralDirectorySize z;
     centralDirectorySizeIsCertain := centralDirectorySizeIsCertain z;
     zip_comment := zip_comment z; numEntriesRead := numEntriesRead z;
     isMacArchive := isMacArchive z; isMaybeMacArchive := isMaybeMacArchive z;
     compressedSizesAreCertain := compressedSizesAreCertain z;
     uncompressedSizesAreCertain := uncompressedSizesAreCertain z;
     _isReading := _isReading z; _entryCursor := _entryCursor z;
     _fileCursor := _fileCursor z;
     _uncertainUncompressedSizeEntryRefs := _uncertainUncompressedSizeEntryRefs z;
     _firstEntryProps := _firstEntryProps z |}.

Definition with_entryCount (v : option Z) (z : Zip) : Zip :=
  {| zip_size := zip_size z; decodeStrings := decodeStrings z;
     validateEntrySizes := validateEntrySizes z;
     validateFilenames := validateFilenames z; strictFilenames := strictFilenames z;
     supportMacArchive := supportMacArchive z; zip_isZip64 := zip_isZip64 z;
     entryCount := v; entryCountIsCertain := entryCountIsCertain z;
     footerOffset := footerOffset z;
     centralDirectoryOffset := centralDirectoryOffset z;
     centralDirectorySize := centralDirectorySize z;
     centralDirectorySizeIsCertain := centralDirectorySizeIsCertain z;
     zip_comment := zip_comment z; numEntriesRead := numEntriesRead z;
     isMacArchive := isMacArchive z; isMaybeMacArchive := isMaybeMacArchive z;
     compressedSizesAreCertain := compressedSizesAreCertain z;
     uncompressedSizesAreCertain := uncompressedSizesAreCertain z;
     _isReading := _isReading z; _entryCursor := _entryCursor z;
     _fileCursor := _fileCursor z;
     _uncertainUncompressedSizeEntryRefs := _uncertainUncompressedSizeEntryRefs z;
     _firstEntryProps := _firstEntryProps z |}.

Definition with_entryCountIsCertain (v : bool) (z : Zip) : Zip :=
  {| zip_size := zip_size z; decodeStrings := decodeStrings z;
     validateEntrySizes := validateEntrySizes z;
     validateFilenames := validateFilenames z; strictFilenames := strictFilenames z;
     supportMacArchive := supportMacArchive z; zip_isZip64 := zip_isZip64 z;
     entryCount := entryCount z; entryCountIsCertain := v;
     footerOffset := footerOffset z;
     centralDirectoryOffset := centralDirectoryOffset z;
     centralDirectorySize := centralDirectorySize z;
     centralDirectorySizeIsCertain := centralDirectorySizeIsCertain z;
     zip_comment := zip_comment z; numEntriesRead := numEntriesRead z;
     isMacArchive := isMacArchive z; isMaybeMacArchive := isMaybeMacArchive z;
     compressedSizesAreCertain := compressedSizesAreCertain z;
     uncompressedSizesAreCertain := uncompressedSizesAreCertain z;
     _isReading := _isReading z; _entryCursor := _entryCursor z;
     _fileCursor := _fileCursor z;
     _uncertainUncompressedSizeEntryRefs := _uncertainUncompressedSizeEntryRefs z;
     _firstEntryProps := _firstEntryProps z |}.

Definition with_footerOffset (v : option Z) (z : Zip) : Zip :=
  {| zip_size := zip_size z; decodeStrings := decodeStrings z;
     validateEntrySizes := validateEntrySizes z;
     validateFilenames := validateFilenames z; strictFilenames := strictFilenames z;
     supportMacArchive := supportMacArchive z; zip_isZip64 := zip_isZip64 z;
     entryCount := entryCount z; entryCountIsCertain := entryCountIsCertain z;
     footerOffset := v; centralDirectoryOffset := centralDirectoryOffset z;
     centralDirectorySize := centralDirectorySize z;
     centralDirectorySizeIsCertain := centralDirectorySizeIsCertain z;
     zip_comment := zip_comment z; numEntriesRead := numEntriesRead z;
     isMacArchive := isMacArchive z; isMaybeMacArchive := isMaybeMacArchive z;
     compressedSizesAreCertain := compressedSizesAreCertain z;
     uncompressedSizesAreCertain := uncompressedSizesAreCertain z;
     _isReading := _isReading z; _entryCursor := _entryCursor z;
     _fileCursor := _fileCursor z;
     _uncertainUncompressedSizeEntryRefs := _uncertainUncompressedSizeEntryRefs z;
     _firstEntryProps := _firstEntryProps z |}.

Definition with_centralDirectoryOffset (v : option Z) (z : Zip) : Zip :=
  {| zip_size := zip_size z; decodeStrings := decodeStrings z;
     validateEntrySizes := validateEntrySizes z;
     validateFilenames := validateFilenames z; strictFilenames := strictFilenames z;
     supportMacArchive := supportMacArchive z; zip_isZip64 := zip_isZip64 z;
     entryCount := entryCount z; entryCountIsCertain := entryCountIsCertain z;
     footerOffset := footerOffset z; centralDirectoryOffset := v;
     centralDirectorySize := centralDirectorySize z;
     centralDirectorySizeIsCertain := centralDirectorySizeIsCertain z;
     zip_comment := zip_comment z; numEntriesRead := numEntriesRead z;
     isMacArchive := isMacArchive z; isMaybeMacArchive := isMaybeMacArchive z;
     compressedSizesAreCertain := compressedSizesAreCertain z;
     uncompressedSizesAreCertain := uncompressedSizesAreCertain z;
     _isReading := _isReading z; _entryCursor := _entryCursor z;
     _fileCursor := _fileCursor z;
     _uncertainUncompressedSizeEntryRefs := _uncertainUncompressedSizeEntryRefs z;
     _firstEntryProps := _firstEntryProps z |}.

Definition with_centralDirectorySize (v : option Z) (z : Zip) : Zip :=
  {| zip_size := zip_size z; decodeStrings := decodeStrings z;
     validateEntrySizes := validateEntrySizes z;
     validateFilenames := validateFilenames z; strictFilenames := strictFilenames z;
     supportMacArchive := supportMacArchive z; zip_isZip64 := zip_isZip64 z;
     entryCount := entryCount z; entryCountIsCertain := entryCountIsCertain z;
     footerOffset := footerOffset z;
     centralDirectoryOffset := centralDirectoryOffset z; centralDirectorySize := v;
     centralDirectorySizeIsCertain := centralDirectorySizeIsCertain z;
     zip_comment := zip_comment z; numEntriesRead := numEntriesRead z;
     isMacArchive := isMacArchive z; isMaybeMacArchive := isMaybeMacArchive z;
     compressedSizesAreCertain := compressedSizesAreCertain z;
     uncompressedSizesAreCertain := uncompressedSizesAreCertain z;
     _isReading := _isReading z; _entryCursor := _entryCursor z;
     _fileCursor := _fileCursor z;
     _uncertainUncompressedSizeEntryRefs := _uncertainUncompressedSizeEntryRefs z;
     _firstEntryProps := _firstEntryProps z |}.

Definition with_centralDirectorySizeIsCertain (v : bool) (z : Zip) : Zip :=
  {| zip_size := zip_size z; decodeStrings := decodeStrings z;
     validateEntrySizes := validateEntrySizes z;
     validateFilenames := validateFilenames z; strictFilenames := strictFilenames z;
     supportMacArchive := supportMacArchive z; zip_isZip64 := zip_isZip64 z;
     entryCount := entryCount z; entryCountIsCertain := entryCountIsCertain z;
     footerOffset := footerOffset z;
     centralDirectoryOffset := centralDirectoryOffset z;
     centralDirectorySize := centralDirectorySize z;
     centralDirectorySizeIsCertain := v; zip_comment := zip_comment z;
     numEntriesRead := numEntriesRead z; isMacArchive := isMacArchive z;
     isMaybeMacArchive := isMaybeMacArchive z;
     compressedSizesAreCertain := compressedSizesAreCertain z;
     uncompressedSizesAreCertain := uncompressedSizesAreCertain z;
     _isReading := _isReading z; _entryCursor := _entryCursor z;
     _fileCursor := _fileCursor z;
     _uncertainUncompressedSizeEntryRefs := _uncertainUncompressedSizeEntryRefs z;
     _firstEntryProps := _firstEntryProps z |}.

Definition with_zip_comment (v : option EntryFilename) (z : Zip) : Zip :=
  {| zip_size := zip_size z; decodeStrings := decodeStrings z;
     validateEntrySizes := validateEntrySizes z;
     validateFilenames := validateFilenames z; strictFilenames := strictFilenames z;
     supportMacArchive := supportMacArchive z; zip_isZip64 := zip_isZip64 z;
     entryCount := entryCount z; entryCountIsCertain := entryCountIsCertain z;
     footerOffset := footerOffset z;
     centralDirectoryOffset := centralDirectoryOffset z;
     centralDirectorySize := centralDirectorySize z;
     centralDirectorySizeIsCertain := centralDirectorySizeIsCertain z;
     zip_comment := v; numEntriesRead := numEntriesRead z;
     isMacArchive := isMacArchive z; isMaybeMacArchive := isMaybeMacArchive z;
     compressedSizesAreCertain := compressedSizesAreCertain z;
     uncompressedSizesAreCertain := uncompressedSizesAreCertain z;
     _isReading := _isReading z; _entryCursor := _entryCursor z;
     _fileCursor := _fileCursor z;
     _uncertainUncompressedSizeEntryRefs := _uncertainUncompressedSizeEntryRefs z;
     _firstEntryProps := _firstEntryProps z |}.

Definition with_numEntriesRead (v : Z) (z : Zip) : Zip :=
  {| zip_size := zip_size z; decodeStrings := decodeStrings z;
     validateEntrySizes := validateEntrySizes z;
     validateFilenames := validateFilenames z; strictFilenames := strictFilenames z;
     supportMacArchive := supportMacArchive z; zip_isZip64 := zip_isZip64 z;
     entryCount := entryCount z; entryCountIsCertain := entryCountIsCertain z;
     footerOffset := footerOffset z;
     centralDirectoryOffset := centralDirectoryOffset z;
     centralDirectorySize := centralDirectorySize z;
     centralDirectorySizeIsCertain := centralDirectorySizeIsCertain z;
     zip_comment := zip_comment z; numEntriesRead := v; isMacArchive := isMacArchive z;
     isMaybeMacArchive := isMaybeMacArchive z;
     compressedSizesAreCertain := compressedSizesAreCertain z;
     uncompressedSizesAreCertain := uncompressedSizesAreCertain z;
     _isReading := _isReading z; _entryCursor := _entryCursor z;
     _fileCursor := _fileCursor z;
     _uncertainUncompressedSizeEntryRefs := _uncertainUncompressedSizeEntryRefs z;
     _firstEntryProps := _firstEntryProps z |}.

Definition with_isMacArchive (v : bool) (z : Zip) : Zip :=
  {| zip_size := zip_size z; decodeStrings := decodeStrings z;
     validateEntrySizes := validateEntrySizes z;
     validateFilenames := validateFilenames z; strictFilenames := strictFilenames z;
     supportMacArchive := supportMacArchive z; zip_isZip64 := zip_isZip64 z;
     entryCount := entryCount z; entryCountIsCertain := entryCountIsCertain z;
     footerOffset := footerOffset z;
     centralDirectoryOffset := centralDirectoryOffset z;
     centralDirectorySize := centralDirectorySize z;
     centralDirectorySizeIsCertain := centralDirectorySizeIsCertain z;
     zip_comment := zip_comment z; numEntriesRead := numEntriesRead z;
     isMacArchive := v; isMaybeMacArchive := isMaybeMacArchive z;
     compressedSizesAreCertain := compressedSizesAreCertain z;
     uncompressedSizesAreCertain := uncompressedSizesAreCertain z;
     _isReading := _isReading z; _entryCursor := _entryCursor z;
     _fileCursor := _fileCursor z;
     _uncertainUncompressedSizeEntryRefs := _uncertainUncompressedSizeEntryRefs z;
     _firstEntryProps := _firstEntryProps z |}.

Definition with_isMaybeMacArchive (v : bool) (z : Zip) : Zip :=
  {| zip_size := zip_size z; decodeStrings := decodeStrings z;
     validateEntrySizes := validateEntrySizes z;
     validateFilenames := validateFilenames z; strictFilenames := strictFilenames z;
     supportMacArchive := supportMacArchive z; zip_isZip64 := zip_isZip64 z;
     entryCount := entryCount z; entryCountIsCertain := entryCountIsCertain z;
     footerOffset := footerOffset z;
     centralDirectoryOffset := centralDirectoryOffset z;
     centralDirectorySize := centralDirectorySize z;
     centralDirectorySizeIsCertain := centralDirectorySizeIsCertain z;
     zip_comment := zip_comment z; numEntriesRead := numEntriesRead z;
     isMacArchive := isMacArchive z; isMaybeMacArchive := v;
     compressedSizesAreCertain := compressedSizesAreCertain z;
     uncompressedSizesAreCertain := uncompressedSizesAreCertain z;
     _isReading := _isReading z; _entryCursor := _entryCursor z;
     _fileCursor := _fileCursor z;
     _uncertainUncompressedSizeEntryRefs := _uncertainUncompressedSizeEntryRefs z;
     _firstEntryProps := _firstEntryProps z |}.

Definition with_compressedSizesAreCertain (v : bool) (z : Zip) : Zip :=
  {| zip_size := zip_size z; decodeStrings := decodeStrings z;
     validateEntrySizes := validateEntrySizes z;
     validateFilenames := validateFilenames z; strictFilenames := strictFilenames z;
     supportMacArchive := supportMacArchive z; zip_isZip64 := zip_isZip64 z;
     entryCount := entryCount z; entryCountIsCertain := entryCountIsCertain z;
     footerOffset := footerOffset z;
     centralDirectoryOffset := centralDirectoryOffset z;
     centralDirectorySize := centralDirectorySize z;
     centralDirectorySizeIsCertain := centralDirectorySizeIsCertain z;
     zip_comment := zip_comment z; numEntriesRead := numEntriesRead z;
     isMacArchive := isMacArchive z; isMaybeMacArchive := isMaybeMacArchive z;
     compressedSizesAreCertain := v;
     uncompressedSizesAreCertain := uncompressedSizesAreCertain z;
     _isReading := _isReading z; _entryCursor := _entryCursor z;
     _fileCursor := _fileCursor z;
     _uncertainUncompressedSizeEntryRefs := _uncertainUncompressedSizeEntryRefs z;
     _firstEntryProps := _firstEntryProps z |}.

Definition with_uncompressedSizesAreCertain (v : bool) (z : Zip) : Zip :=
  {| zip_size := zip_size z; decodeStrings := decodeStrings z;
     validateEntrySizes := validateEntrySizes z;
     validateFilenames := validateFilenames z; strictFilenames := strictFilenames z;
     supportMacArchive := supportMacArchive z; zip_isZip64 := zip_isZip64 z;
     entryCount := entryCount z; entryCountIsCertain := entryCountIsCertain z;
     footerOffset := footerOffset z;
     centralDirectoryOffset := centralDirectoryOffset z;
     centralDirectorySize := centralDirectorySize z;
     centralDirectorySizeIsCertain := centralDirectorySizeIsCertain z;
     zip_comment := zip_comment z; numEntriesRead := numEntriesRead z;
     isMacArchive := isMacArchive z; isMaybeMacArchive := isMaybeMacArchive z;
     compressedSizesAreCertain := compressedSizesAreCertain z;
     uncompressedSizesAreCertain := v; _isReading := _isReading z;
     _entryCursor := _entryCursor z; _fileCursor := _fileCursor z;
     _uncertainUncompressedSizeEntryRefs := _uncertainUncompressedSizeEntryRefs z;
     _firstEntryProps := _firstEntryProps z |}.

Definition with_isReading (v : bool) (z : Zip) : Zip :=
  {| zip_size := zip_size z; decodeStrings := decodeStrings z;
     validateEntrySizes := validateEntrySizes z;
     validateFilenames := validateFilenames z; strictFilenames := strictFilenames z;
     supportMacArchive := supportMacArchive z; zip_isZip64 := zip_isZip64 z;
     entryCount := entryCount z; entryCountIsCertain := entryCountIsCertain z;
     footerOffset := footerOffset z;
     centralDirectoryOffset := centralDirectoryOffset z;
     centralDirectorySize := centralDirectorySize z;
     centralDirectorySizeIsCertain := centralDirectorySizeIsCertain z;
     zip_comment := zip_comment z; numEntriesRead := numEntriesRead z;
     isMacArchive := isMacArchive z; isMaybeMacArchive := isMaybeMacArchive z;
     compressedSizesAreCertain := compressedSizesAreCertain z;
     uncompressedSizesAreCertain := uncompressedSizesAreCertain z; _isReading := v;
     _entryCursor := _entryCursor z; _fileCursor := _fileCursor z;
     _uncertainUncompressedSizeEntryRefs := _uncertainUncompressedSizeEntryRefs z;
     _firstEntryProps := _firstEntryProps z |}.

Definition with_entryCursor (v : option Z) (z : Zip) : Zip :=
  {| zip_size := zip_size z; decodeStrings := decodeStrings z;
     validateEntrySizes := validateEntrySizes z;
     validateFilenames := validateFilenames z; strictFilenames := strictFilenames z;
     supportMacArchive := supportMacArchive z; zip_isZip64 := zip_isZip64 z;
     entryCount := entryCount z; entryCountIsCertain := entryCountIsCertain z;
     footerOffset := footerOffset z;
     centralDirectoryOffset := centralDirectoryOffset z;
     centralDirectorySize := centralDirectorySize z;
     centralDirectorySizeIsCertain := centralDirectorySizeIsCertain z;
     zip_comment := zip_comment z; numEntriesRead := numEntriesRead z;
     isMacArchive := isMacArchive z; isMaybeMacArchive := isMaybeMacArchive z;
     compressedSizesAreCertain := compressedSizesAreCertain z;
     uncompressedSizesAreCertain := uncompressedSizesAreCertain z;
     _isReading := _isReading z; _entryCursor := v; _fileCursor := _fileCursor z;
     _uncertainUncompressedSizeEntryRefs := _uncertainUncompressedSizeEntryRefs z;
     _firstEntryProps := _firstEntryProps z |}.

Definition with_fileCursor (v : option Z) (z : Zip) : Zip :=
  {| zip_size := zip_size z; decodeStrings := decodeStrings z;
     validateEntrySizes := validateEntrySizes z;
     validateFilenames := validateFilenames z; strictFilenames := strictFilenames z;
     supportMacArchive := supportMacArchive z; zip_isZip64 := zip_isZip64 z;
     entryCount := entryCount z; entryCountIsCertain := entryCountIsCertain z;
     footerOffset := footerOffset z;
     centralDirectoryOffset := centralDirectoryOffset z;
     centralDirectorySize := centralDirectorySize z;
     centralDirectorySizeIsCertain := centralDirectorySizeIsCertain z;
     zip_comment := zip_comment z; numEntriesRead := numEntriesRead z;
     isMacArchive := isMacArchive z; isMaybeMacArchive := isMaybeMacArchive z;
     compressedSizesAreCertain := compressedSizesAreCertain z;
     uncompressedSizesAreCertain := uncompressedSizesAreCertain z;
     _isReading := _isReading z; _entryCursor := _entryCursor z; _fileCursor := v;
     _uncertainUncompressedSizeEntryRefs := _uncertainUncompressedSizeEntryRefs z;
     _firstEntryProps := _firstEntryProps z |}.

Definition with_uncertainUncompressedSizeEntryRefs (v : option (gset EntryRef)) (z : Zip) : Zip :=
  {| zip_size := zip_size z; decodeStrings := decodeStrings z;
     validateEntrySizes := validateEntrySizes z;
     validateFilenames := validateFilenames z; strictFilenames := strictFilenames z;
     supportMacArchive := supportMacArchive z; zip_isZip64 := zip_isZip64 z;
     entryCount := entryCount z; entryCountIsCertain := entryCountIsCertain z;
     footerOffset := footerOffset z;
     centralDirectoryOffset := centralDirectoryOffset z;
     centralDirectorySize := centralDirectorySize z;
     centralDirectorySizeIsCertain := centralDirectorySizeIsCertain z;
     zip_comment := zip_comment z; numEntriesRead := numEntriesRead z;
     isMacArchive := isMacArchive z; isMaybeMacArchive := isMaybeMacArchive z;
     compressedSizesAreCertain := compressedSizesAreCertain z;
     uncompressedSizesAreCertain := uncompressedSizesAreCertain z;
     _isReading := _isReading z; _entryCursor := _entryCursor z;
     _fileCursor := _fileCursor z; _uncertainUncompressedSizeEntryRefs := v;
     _firstEntryProps := _firstEntryProps z |}.

Definition with_firstEntryProps (v : option EntryProperties) (z : Zip) : Zip :=
  {| zip_size := zip_size z; decodeStrings := decodeStrings z;
     validateEntrySizes := validateEntrySizes z;
     validateFilenames := validateFilenames z; strictFilenames := strictFilenames z;
     supportMacArchive := supportMacArchive z; zip_isZip64 := zip_isZip64 z;
     entryCount := entryCount z; entryCountIsCertain := entryCountIsCertain z;
     footerOffset := footerOffset z;
     centralDirectoryOffset := centralDirectoryOffset z;
     centralDirectorySize := centralDirectorySize z;
     centralDirectorySizeIsCertain := centralDirectorySizeIsCertain z;
     zip_comment := zip_comment z; numEntriesRead := numEntriesRead z;
     isMacArchive := isMacArchive z; isMaybeMacArchive := isMaybeMacArchive z;
     compressedSizesAreCertain := compressedSizesAreCertain z;
     uncompressedSizesAreCertain := uncompressedSizesAreCertain z;
     _isReading := _isReading z; _entryCursor := _entryCursor z;
     _fileCursor := _fileCursor z;
     _uncertainUncompressedSizeEntryRefs := _uncertainUncompressedSizeEntryRefs z;
     _firstEntryProps := v |}.

(** zip.ts, the constructor *)
Definition Zip_new (size : Z) (options : bool * bool * bool * bool * bool) : Zip :=
  let '(o_decodeStrings, o_validateEntrySizes, o_validateFilenames,
        o_strictFilenames, o_supportMacArchive) := options in
  {| zip_size := size;
     decodeStrings := o_decodeStrings;
     validateEntrySizes := o_validateEntrySizes;
     validateFilenames := o_validateFilenames;
     strictFilenames := o_strictFilenames;
     supportMacArchive := o_supportMacArchive;
     zip_isZip64 := None;
     entryCount := None;
     entryCountIsCertain := true;
     footerOffset := None;
     centralDirectoryOffset := None;
     centralDirectorySize := None;
     centralDirectorySizeIsCertain := true;
     zip_comment := None;
     numEntriesRead := 0;
     isMacArchive := false;
     isMaybeMacArchive := false;
     compressedSizesAreCertain := true;
     uncompressedSizesAreCertain := true;
     _isReading := false;
     _entryCursor := None;
     _fileCursor := None;
     _uncertainUncompressedSizeEntryRefs := None;
     _firstEntryProps := None |}.

(** index.ts, [validateOptions]: the default options *)
Definition default_options : bool * bool * bool * bool * bool :=
  (true, true, true, false, true).

(** ** Streams

    A stream is described by what it is; [openReadStream] returns the
    array [streams] it hands to [pipeline], whose last element is the
    stream the caller reads. *)
Inductive Stream : Type :=
| PassThrough
| FromReader (start length : Z)
| InflateRaw
| ValidateUncompressedSizeStream (entry : EntryRef)
| ValidateCrc32Stream (expectedCrc32 : Z).

(** ** The reader (reader.ts, class [Reader])

    The methods a subclass provides, and the functions of the platform
    and of [utils/decode-buffer.ts] that the archive code calls. *)
Class ReaderImpl : Type := {
  _read : Z -> Z -> Result Buffer;
  _createReadStream : Z -> Z -> Result Stream;
  _open : Result unit;
  _close : Result unit;
}.

Class Platform : Type := {
  decodeBuffer : Buffer -> Z -> bool -> string;
  calculateCrc32 : EntryFilename -> Z;
}.

(** [isEnded] is the variable captured by the listener [onEnd] of each
    stream handed out; the listeners are numbered in creation order. *)
Record Reader : Type := {
  _isOpen : bool;
  _readCount : Z;
  isEnded : list bool;
}.

Definition Reader_new : Reader :=
  {| _isOpen := false; _readCount := 0; isEnded := [] |}.

Definition with_isOpen (v : bool) (r : Reader) : Reader :=
  {| _isOpen := v; _readCount := _readCount r; isEnded := isEnded r |}.
Definition with_readCount (v : Z) (r : Reader) : Reader :=
  {| _isOpen := _isOpen r; _readCount := v; isEnded := isEnded r |}.
Definition with_isEnded (v : list bool) (r : Reader) : Reader :=
  {| _isOpen := _isOpen r; _readCount := _readCount r; isEnded := v |}.

(** ** The world: the archive, its reader and the live [Entry] objects *)
Record World : Type := {
  zip : Zip;
  reader : Reader;
  store : gmap EntryRef Entry;
}.

Definition with_zip (v : Zip) (w : World) : World :=
  {| zip := v; reader := reader w; store := store w |}.
Definition with_reader (v : Reader) (w : World) : World :=
  {| zip := zip w; reader := v; store := store w |}.
Definition with_store (v : gmap EntryRef Entry) (w : World) : World :=
  {| zip := zip w; reader := reader w; store := v |}.

(** ** Computations: a state and result monad

    A method that returns [err] keeps the mutations made so far. *)
Definition M (A : Type) : Type := World -> Result A * World.

#[global] Instance M_ret : MRet M := fun _ a w => (ok a, w).
#[global] Instance M_bind : MBind M := fun _ _ f m w =>
  match m w with
  | (ok a, w') => f a w'
  | (err e, w') => (err e, w')
  end.

Definition fail {A} (e : string) : M A := fun w => (err e, w).
Definition lift {A} (r : Result A) : M A := fun w => (r, w).
Definition get_zip : M Zip := fun w => (ok (zip w), w).
Definition update_zip (f : Zip -> Zip) : M unit := fun w => (ok tt, with_zip (f (zip w)) w).
Definition update_reader (f : Reader -> Reader) : M unit :=
  fun w => (ok tt, with_reader (f (reader w)) w).
Definition update_world (f : World -> World) : M unit := fun w => (ok tt, f w).
Definition when (b : bool) (m : M unit) : M unit := if b then m else mret tt.

Section Reader.
Context `{ReaderImpl}.

(** reader.ts, [open] *)
Definition Reader_open : M unit := fun w =>
  if _isOpen (reader w) then (ok tt, w)
  else (_open, with_reader (with_isOpen true (reader w)) w).

(** reader.ts, [close]: the timer lets pending callbacks run; the
    count read after it is the one of the state [close] resumes in. *)
Definition Reader_close : M unit := fun w =>
  if negb (_isOpen (reader w)) then (ok tt, w)
  else if negb (_readCount (reader w) =? 0)
  then (err "Cannot close while reading in progress", w)
  else (_close, with_reader (with_isOpen false (reader w)) w).

(** reader.ts, [read], up to the [await] *)
Definition Reader_read_begin (start length : Z) : M (option Buffer) := fun w =>
  if negb (_isOpen (reader w))
  then (err "Cannot call `read()` on a reader which is not open", w)
  else if length =? 0 then (ok (Some []), w)
  else (ok None, with_reader (with_readCount (_readCount (reader w) + 1) (reader w)) w).

(** reader.ts, [read], after the [await] *)
Definition Reader_read_settle (result : Result Buffer) : M Buffer := fun w =>
  (result, with_reader (with_readCount (_readCount (reader w) - 1) (reader w)) w).

(** reader.ts, [read], run to completion *)
Definition Reader_read (start length : Z) : M Buffer :=
  early ← Reader_read_begin start length;
  match early with
  | Some buffer => mret buffer
  | None => Reader_read_settle (_read start length)
  end.

(** reader.ts, [createReadStream]; [start] and [length] are numbers
    that may fail to be integers.  The listener attached to the stream
    is returned with it. *)
Definition Reader_createReadStream (start length : option Z)
  : M (Stream * option nat) := fun w =>
  match start with
  | Some start =>
    if start <? 0 then (err "`start` must be a positive integer or zero", w) else
    match length with
    | Some length =>
      if length <? 0 then (err "`length` must be a positive integer or zero", w) else
      if negb (_isOpen (reader w))
      then (err "Cannot call `createReadStream()` on a reader which is not open", w)
      else if length =? 0 then (ok (PassThrough, None), w)
      else
        let w1 := with_reader (with_readCount (_readCount (reader w) + 1) (reader w)) w in
        match _createReadStream start length with
        | err e =>
            (err e, with_reader (with_readCount (_readCount (reader w1) - 1) (reader w1)) w1)
        | ok stream =>
            let listener := List.length (isEnded (reader w1)) in
            (ok (stream, Some listener),
             with_reader (with_isEnded (isEnded (reader w1) ++ [false]) (reader w1)) w1)
        end
    | None => (err "`length` must be a positive integer or zero", w)
    end
  | None => (err "`start` must be a positive integer or zero", w)
  end.

(** reader.ts, [onEnd], the listener of ['end'], ['error'] and ['close'] *)
Definition onEnd (listener : nat) : World -> World := fun w =>
  match isEnded (reader w) !! listener with
  | Some false =>
      let r := with_isEnded (<[listener := true]> (isEnded (reader w))) (reader w) in
      with_reader (with_readCount (_readCount r - 1) r) w
  | _ => w
  end.
End Reader.

(** ** utils/validate-filename.ts *)

Definition is_letter (c : ascii) : bool :=
  let n := nat_of_ascii c in
  ((65 <=? n)%nat && (n <=? 90)%nat) || ((97 <=? n)%nat && (n <=? 122)%nat).

(** [filename.split('/')] *)
Fixpoint split_slash (s : string) (segment : string) : list string :=
  match s with
  | EmptyString => [segment]
  | String c rest =>
      if Ascii.eqb c "/"%char then segment :: split_slash rest EmptyString
      else split_slash rest (String.append segment (String c EmptyString))
  end.

Fixpoint includes_char (c : ascii) (s : string) : bool :=
  match s with
  | EmptyString => false
  | String d rest => Ascii.eqb c d || includes_char c rest
  end.

(** [filename.replaceAll('\\', '/')] *)
Fixpoint replace_backslashes (s : string) : string :=
  match s with
  | EmptyString => EmptyString
  | String c rest =>
      String (if Ascii.eqb c "\"%char then "/"%char else c) (replace_backslashes rest)
  end.

Definition validateFilename (filename : string) : Result unit :=
  if includes_char "\"%char filename
  then err (String.append "Invalid characters in filename: " filename)
  else if match filename with
          | String c (String d _) => is_letter c && Ascii.eqb d ":"%char
          | _ => false
          end
          || match filename with String c _ => Ascii.eqb c "/"%char | _ => false end
  then err (String.append "Absolute path: " filename)
  else if existsb (String.eqb "..") (split_slash filename EmptyString)
  then err (String.append "Relative path: " filename)
  else ok tt.

(** Template literals print numbers in decimal. *)
Definition show (n : Z) : string := DecimalString.NilZero.string_of_int (Z.to_int n).

Section Zip.
Context `{ReaderImpl} `{Platform}.

(** *** [_locateEocdr] *)

(** The [for] loop, from [position] down to 0. *)
Fixpoint eocdr_scan (buffer : Buffer) (bufferSize : Z) (position : nat) : option Z :=
  let continue :=
    match position with
    | O => None
    | S position' => eocdr_scan buffer bufferSize position'
    end in
  let p := Z.of_nat position in
  if negb (bool_decide (buf_at buffer p = Some 0x50)) then continue
  else if negb (readUInt32LE buffer p =? 0x06054B50) then continue
  else
    let commentLength := readUInt16LE buffer (p + 20) in
    if commentLength =? bufferSize - p - EOCDR_WITHOUT_COMMENT_SIZE
    then Some p
    else continue.

Definition _locateEocdr : M Buffer :=
  z ← get_zip;
  let bufferSize := EOCDR_WITHOUT_COMMENT_SIZE + MAX_EOCDR_COMMENT_SIZE in
  if (zip_size z <? bufferSize) && (zip_size z <? EOCDR_WITHOUT_COMMENT_SIZE)
  then fail "End of Central Directory Record not found"
  else
    let bufferSize := if zip_size z <? bufferSize then zip_size z else bufferSize in
    let bufferOffset := zip_size z - bufferSize in
    buffer ← Reader_read bufferOffset bufferSize;
    match eocdr_scan buffer bufferSize
            (Z.to_nat (bufferSize - EOCDR_WITHOUT_COMMENT_SIZE)) with
    | Some position =>
        update_zip (with_footerOffset (Some (bufferOffset + position)));;
        mret (subarray_from buffer position)
    | None => fail "End of Central Directory Record not found"
    end.

(** *** [_parseEocdr] *)
Definition _parseEocdr (eocdrBuffer : Buffer) : M unit :=
  let diskNumber := readUInt16LE eocdrBuffer 4 in
  if negb (diskNumber =? 0) then fail "Multi-disk ZIP files are not supported" else
  update_zip (with_entryCount (Some (readUInt16LE eocdrBuffer 10)));;
  update_zip (with_centralDirectorySize (Some (readUInt32LE eocdrBuffer 12)));;
  update_zip (with_centralDirectoryOffset (Some (readUInt32LE eocdrBuffer 16)));;
  z ← get_zip;
  update_zip (with_zip_comment (Some
    (if decodeStrings z then Text (decodeBuffer eocdrBuffer 22 false)
     else Raw (subarray_from eocdrBuffer 22))));;
  update_zip (fun z => with_zip_isZip64 (Some
    (bool_decide (entryCount z = Some 0xFFFF)
     || bool_decide (centralDirectoryOffset z = Some 0xFFFFFFFF)
     || bool_decide (centralDirectorySize z = Some 0xFFFFFFFF))) z).

(** *** [_parseZip64Eocdr] *)
Definition _parseZip64Eocdr : M unit :=
  z ← get_zip;
  let zip64EocdlOffset := num (footerOffset z) - 20 in
  if zip64EocdlOffset <? 0
  then fail "Cannot locate ZIP64 End of Central Directory Locator" else
  zip64EocdlBuffer ← Reader_read zip64EocdlOffset 20;
  z ← get_zip;
  if negb (readUInt32LE zip64EocdlBuffer 0 =? 0x07064B50) then
    if supportMacArchive z then update_zip (with_isMacArchive true)
    else fail "Invalid ZIP64 End of Central Directory Locator signature"
  else
  let zip64EocdrOffset := readUInt64LE zip64EocdlBuffer 8 in
  if zip64EocdrOffset + 56 >? zip64EocdlOffset
  then fail "Cannot locate ZIP64 End of Central Directory Record" else
  zip64EocdrBuffer ← Reader_read zip64EocdrOffset 56;
  if negb (readUInt32LE zip64EocdrBuffer 0 =? 0x06064B50)
  then fail "Invalid ZIP64 End of Central Directory Record signature" else
  let zip64EocdrSize := readUInt64LE zip64EocdrBuffer 4 in
  if zip64EocdrOffset + zip64EocdrSize + 12 >? zip64EocdlOffset
  then fail "Invalid ZIP64 End of Central Directory Record" else
  update_zip (fun z =>
    if bool_decide (entryCount z = Some 0xFFFF)
    then with_entryCount (Some (readUInt64LE zip64EocdrBuffer 32)) z else z);;
  update_zip (fun z =>
    if bool_decide (centralDirectorySize z = Some 0xFFFFFFFF)
    then with_centralDirectorySize (Some (readUInt64LE zip64EocdrBuffer 40)) z else z);;
  update_zip (fun z =>
    if bool_decide (centralDirectoryOffset z = Some 0xFFFFFFFF)
    then with_centralDirectoryOffset (Some (readUInt64LE zip64EocdrBuffer 48)) z else z);;
  update_zip (with_footerOffset (Some
    (if zip64EocdrOffset + zip64EocdrSize =? zip64EocdlOffset
     then zip64EocdrOffset else zip64EocdlOffset))).

(** *** [_readEntryAt] *)

(** The [while] loop over the extra fields.  Every round moves [i]
    forward by at least 4, so [fuel] = buffer length is never used up. *)
Fixpoint parse_extraFields (fuel : nat) (extraFieldBuffer : Buffer) (i : Z)
    (extraFields : list ExtraField) (zip64EiefBuffer : option Buffer)
  : Result (list ExtraField * option Buffer) :=
  match fuel with
  | O => ok (extraFields, zip64EiefBuffer)
  | S fuel =>
    if i <? buf_length extraFieldBuffer - 3 then
      let headerId := readUInt16LE extraFieldBuffer i in
      let dataSize := readUInt16LE extraFieldBuffer (i + 2) in
      let dataStart := i + 4 in
      let dataEnd := dataStart + dataSize in
      if dataEnd >? buf_length extraFieldBuffer
      then err "Extra field length exceeds extra field buffer size"
      else
        let dataBuffer := subarray extraFieldBuffer dataStart dataEnd in
        parse_extraFields fuel extraFieldBuffer dataEnd
          (extraFields ++ [{| ef_id := headerId; ef_data := dataBuffer |}])
          (if headerId =? 1 then Some dataBuffer else zip64EiefBuffer)
    else ok (extraFields, zip64EiefBuffer)
  end.

(** The ZIP64 Extended Information Extra Field: the fields that hold
    the 32-bit marker are replaced, in order. *)
Definition apply_zip64 (zip64EiefBuffer : option Buffer)
    (uncompressedSize compressedSize fileHeaderOffset : Z) : Result (Z * Z * Z) :=
  match zip64EiefBuffer with
  | None => err "Expected ZIP64 Extended Information Extra Field"
  | Some zip64EiefBuffer =>
    let index := 0 in
    '(uncompressedSize, index) ←
      (if uncompressedSize =? 0xFFFFFFFF then
         if index + 8 >? buf_length zip64EiefBuffer
         then err "ZIP64 Extended Information Extra Field does not include uncompressed size"
         else ok (readUInt64LE zip64EiefBuffer index, index + 8)
       else ok (uncompressedSize, index));
    '(compressedSize, index) ←
      (if compressedSize =? 0xFFFFFFFF then
         if index + 8 >? buf_length zip64EiefBuffer
         then err "ZIP64 Extended Information Extra Field does not include compressed size"
         else ok (readUInt64LE zip64EiefBuffer index, index + 8)
       else ok (compressedSize, index));
    fileHeaderOffset ←
      (if fileHeaderOffset =? 0xFFFFFFFF then
         if index + 8 >? buf_length zip64EiefBuffer
         then err "ZIP64 Extended Information Extra Field does not include relative header offset"
         else ok (readUInt64LE zip64EiefBuffer index)
       else ok fileHeaderOffset);
    ok (uncompressedSize, compressedSize, fileHeaderOffset)
  end.

Definition _readEntryAt (offset : Z) : M (option EntryProperties) :=
  z ← get_zip;
  if offset + CDH_MIN_LENGTH >? num (footerOffset z)
  then fail "Invalid Central Directory File Header" else
  entryBuffer ← Reader_read offset CDH_MIN_LENGTH;
  if negb (readUInt32LE entryBuffer 0 =? 0x02014B50) then mret None else
  let versionMadeBy := readUInt16LE entryBuffer 4 in
  let versionNeededToExtract := readUInt16LE entryBuffer 6 in
  let generalPurposeBitFlag := readUInt16LE entryBuffer 8 in
  let compressionMethod := readUInt16LE entryBuffer 10 in
  let lastModTime := readUInt16LE entryBuffer 12 in
  let lastModDate := readUInt16LE entryBuffer 14 in
  let crc32 := readUInt32LE entryBuffer 16 in
  let compressedSize := readUInt32LE entryBuffer 20 in
  let uncompressedSize := readUInt32LE entryBuffer 24 in
  let filenameLength := readUInt16LE entryBuffer 28 in
  let extraFieldLength := readUInt16LE entryBuffer 30 in
  let commentLength := readUInt16LE entryBuffer 32 in
  let internalFileAttributes := readUInt16LE entryBuffer 36 in
  let externalFileAttributes := readUInt32LE entryBuffer 38 in
  let fileHeaderOffset := readUInt32LE entryBuffer 42 in
  if negb (js_and generalPurposeBitFlag 0x40 =? 0)
  then fail "Strong encryption is not supported" else
  let extraDataOffset := offset + CDH_MIN_LENGTH in
  let extraDataSize := filenameLength + extraFieldLength + commentLength in
  let entryEnd := extraDataOffset + extraDataSize in
  z ← get_zip;
  if entryEnd >? num (footerOffset z)
  then fail "Invalid Central Directory File Header" else
  extraBuffer ← Reader_read extraDataOffset extraDataSize;
  let filename := subarray extraBuffer 0 filenameLength in
  let commentStart := filenameLength + extraFieldLength in
  let extraFieldBuffer := subarray extraBuffer filenameLength commentStart in
  '(extraFields, zip64EiefBuffer) ←
    lift (parse_extraFields (length extraFieldBuffer) extraFieldBuffer 0 [] None);
  let comment := subarray extraBuffer commentStart extraDataSize in
  let isZip64 := (uncompressedSize =? 0xFFFFFFFF) || (compressedSize =? 0xFFFFFFFF)
                 || (fileHeaderOffset =? 0xFFFFFFFF) in
  '(uncompressedSize, compressedSize, fileHeaderOffset) ←
    lift (if isZip64
          then apply_zip64 zip64EiefBuffer uncompressedSize compressedSize fileHeaderOffset
          else ok (uncompressedSize, compressedSize, fileHeaderOffset));
  z ← get_zip;
  if fileHeaderOffset + 30 >? num (footerOffset z)
  then fail "Invalid location for file data" else
  mret (Some {|
    filename := Raw filename;
    compressedSize := compressedSize;
    uncompressedSize := uncompressedSize;
    uncompressedSizeIsCertain := true;
    compressionMethod := compressionMethod;
    fileHeaderOffset := fileHeaderOffset;
    fileDataOffset := None;
    isZip64 := isZip64;
    crc32 := crc32;
    lastModTime := lastModTime;
    lastModDate := lastModDate;
    comment := Raw comment;
    extraFields := extraFields;
    versionMadeBy := versionMadeBy;
    versionNeededToExtract := versionNeededToExtract;
    generalPurposeBitFlag := generalPurposeBitFlag;
    internalFileAttributes := internalFileAttributes;
    externalFileAttributes := externalFileAttributes;
    filenameLength := filenameLength;
    entryEnd := entryEnd;
  |}).
End Zip.

(** *** [_recalculateEntryCount], [_recalculateEntryCountIsCertain] *)

Definition _recalculateEntryCount (numEntriesRead entryCursor : Z) (z : Zip) : bool * Zip :=
  let numEntriesRemaining := num (entryCount z) - numEntriesRead in
  let centralDirectoryRemaining :=
    num (centralDirectoryOffset z) + num (centralDirectorySize z) - entryCursor in
  let entryMaxLength := if isMacArchive z then CDH_MAX_LENGTH_MAC else CDH_MAX_LENGTH in
  if numEntriesRemaining * entryMaxLength >=? centralDirectoryRemaining then (false, z)
  else
    let minEntriesRemaining := ceil_div centralDirectoryRemaining CDH_MAX_LENGTH_MAC in
    (true,
     with_entryCount
       (Some (num (entryCount z)
              + js_and (minEntriesRemaining - numEntriesRemaining + 0xFFFF) 0x10000)) z).

Definition _recalculateEntryCountIsCertain (numEntriesRead entryCursor : Z) (z : Zip) : Zip :=
  let numEntriesRemaining := num (entryCount z) - numEntriesRead in
  let centralDirectoryRemaining :=
    num (centralDirectoryOffset z) + num (centralDirectorySize z) - entryCursor in
  if entryCountIsCertain_fn numEntriesRemaining centralDirectoryRemaining
  then with_entryCountIsCertain true z
  else z.

(** *** [_setAsMacArchive], [_setAsNotMacArchive] *)

(** The loop over the set of weak references: every entry still alive
    is updated by [f]. *)
Definition for_each_ref (f : Entry -> Entry) (references : option (gset EntryRef))
    (st : gmap EntryRef Entry) : gmap EntryRef Entry :=
  match references with
  | Some references => set_fold (fun reference st => alter f reference st) st references
  | None => st
  end.

Definition _setAsMacArchive (numEntriesRead entryCursor : Z) (w : World) : World :=
  let z := zip w in
  let z := with_isMacArchive true z in
  let z := with_isMaybeMacArchive false z in
  let z :=
    if negb (centralDirectorySizeIsCertain z) then
      let z := with_centralDirectorySize
                 (Some (num (footerOffset z) - num (centralDirectoryOffset z))) z in
      with_centralDirectorySizeIsCertain true z
    else z in
  let z :=
    if negb (entryCountIsCertain z) then
      let z := snd (_recalculateEntryCount numEntriesRead entryCursor z) in
      _recalculateEntryCountIsCertain numEntriesRead entryCursor z
    else z in
  let references := _uncertainUncompressedSizeEntryRefs z in
  let st := for_each_ref (set_ref None) references (store w) in
  let z := with_uncertainUncompressedSizeEntryRefs None z in
  with_store st (with_zip z w).

Definition _setAsNotMacArchive (w : World) : World :=
  let z := zip w in
  let z := with_isMaybeMacArchive false z in
  let z := with_entryCountIsCertain true z in
  let z := with_centralDirectorySizeIsCertain true z in
  let z := with_compressedSizesAreCertain true z in
  let z := with_uncompressedSizesAreCertain true z in
  let z := with_fileCursor None z in
  let references := _uncertainUncompressedSizeEntryRefs z in
  let st :=
    for_each_ref
      (fun entry =>
         set_props (set_uncompressedSizeIsCertain true (props entry)) (set_ref None entry))
      references (store w) in
  let z := with_uncertainUncompressedSizeEntryRefs None z in
  with_store st (with_zip z w).

(** shared.ts: the callback of the finalization registry, run when an
    entry that was registered has been collected *)
Definition finalize (reference : EntryRef) (w : World) : World :=
  let z := zip w in
  let z :=
    match _uncertainUncompressedSizeEntryRefs z with
    | Some references =>
        with_uncertainUncompressedSizeEntryRefs (Some (references ∖ {[reference]})) z
    | None => z
    end in
  with_store (delete reference (store w)) (with_zip z w).

Section Zip_locate.
Context `{ReaderImpl} `{Platform}.

(** *** [_locateCentralDirectory] *)

(** The [while] loop that searches for the Central Directory, every
    4 GiB downwards.  [fuel] counts the rounds left. *)
Fixpoint search_centralDirectory (fuel : nat) (offset alreadyCheckedOffset : Z)
  : M (option EntryProperties) :=
  match fuel with
  | O => mret None
  | S fuel =>
    if offset >? alreadyCheckedOffset then
      entry ← _readEntryAt offset;
      match entry with
      | Some entry =>
          if negb (firstEntryMaybeMac entry)
          then fail "Cannot locate Central Directory"
          else
            update_zip (with_isMacArchive true);;
            update_zip (with_centralDirectoryOffset (Some offset));;
            mret (Some entry)
      | None => search_centralDirectory fuel (offset - FOUR_GIB) alreadyCheckedOffset
      end
    else mret None
  end.

(** [if(!entry) { ... }]: find the last possible offset, then search. *)
Definition locate_search (entry : option EntryProperties) (alreadyCheckedOffset : Z)
  : M (option EntryProperties) :=
  match entry with
  | Some _ => mret entry
  | None =>
    z ← get_zip;
    let offset := num (footerOffset z)
                  - Z.max (num (centralDirectorySize z)) (num (entryCount z) * CDH_MIN_LENGTH) in
    offset ←
      (if js_rem offset FOUR_GIB <? num (centralDirectoryOffset z) then
         if offset <? FOUR_GIB
         then fail "Inconsistent Central Directory size and entry count"
         else mret (offset - FOUR_GIB)
       else mret offset);
    let offset := floor_div offset FOUR_GIB * FOUR_GIB + num (centralDirectoryOffset z) in
    search_centralDirectory
      (Z.to_nat ((offset - alreadyCheckedOffset) / FOUR_GIB + 1))
      offset alreadyCheckedOffset
  end.

(** From "If couldn't find Central Directory" to the end. *)
Definition locate_finish (entry : option EntryProperties) (centralDirectoryEnd : Z)
  : M unit :=
  match entry with
  | None =>
    z ← get_zip;
    if negb (bool_decide (entryCount z = Some 0))
       || negb (bool_decide (centralDirectorySize z = Some 0))
    then fail "Cannot locate Central Directory"
    else mret tt
  | Some entry =>
    update_zip (fun z =>
      if bool_decide (entryCount z = Some 0) then with_isMacArchive true z else z);;
    z ← get_zip;
    centralDirectoryEnd ←
      (if isMacArchive z then
         let centralDirectoryEnd := num (footerOffset z) in
         update_zip (with_centralDirectorySize
                       (Some (centralDirectoryEnd - num (centralDirectoryOffset z))));;
         z ← get_zip;
         if num (centralDirectorySize z) <=? 0
         then fail "Inconsistent Central Directory size and entry count" else
         update_zip (fun z => snd (_recalculateEntryCount 1 (entryEnd entry) z));;
         z ← get_zip;
         let minTotalDataSize :=
           num (entryCount z) * 46
           + compressedSize entry
           + text_length (filename entry)
           + Z.of_nat (length (extraFields entry)) * MAC_LFH_EXTRA_FIELDS_LENGTH in
         when (minTotalDataSize + FOUR_GIB <=? num (centralDirectoryOffset z))
              (update_zip (with_compressedSizesAreCertain false));;
         mret centralDirectoryEnd
       else
         update_zip (with_isMaybeMacArchive true);;
         (if centralDirectoryEnd <? num (footerOffset z) then
            update_zip (with_centralDirectorySizeIsCertain false);;
            update_zip (with_entryCountIsCertain false)
          else
            update_zip (fun z => snd (_recalculateEntryCount 1 (entryEnd entry) z)));;
         update_zip (with_uncertainUncompressedSizeEntryRefs (Some ∅));;
         mret centralDirectoryEnd);
    update_zip (fun z =>
      if entryCountIsCertain z
         && negb (entryCountIsCertain_fn (num (entryCount z) - 1)
                    (centralDirectoryEnd - entryEnd entry))
      then with_entryCountIsCertain false z else z);;
    update_zip (with_uncompressedSizesAreCertain false);;
    update_zip (with_fileCursor (Some 0));;
    update_zip (with_firstEntryProps (Some entry))
  end.

Definition _locateCentralDirectory : M unit :=
  z ← get_zip;
  if negb (supportMacArchive z) then mret tt else
  if bool_decide (zip_isZip64 z = Some true) then mret tt else
  if negb (zip_size z - num (footerOffset z) =? EOCDR_WITHOUT_COMMENT_SIZE)
  then mret tt else
  let centralDirectoryEnd :=
    num (centralDirectoryOffset z) + num (centralDirectorySize z) in
  if negb (js_rem centralDirectoryEnd FOUR_GIB =? js_rem (num (footerOffset z)) FOUR_GIB)
  then mret tt else
  if bool_decide (entryCount z = Some 0)
     && (num (centralDirectoryOffset z) + CDH_MIN_LENGTH >? num (footerOffset z))
  then
    if negb (bool_decide (centralDirectorySize z = Some 0))
    then fail "Inconsistent Central Directory size and entry count"
    else mret tt
  else
  centralDirectoryEnd ←
    (if num (centralDirectorySize z) <? num (entryCount z) * CDH_MIN_LENGTH then
       if centralDirectoryEnd >=? num (footerOffset z)
       then fail "Inconsistent Central Directory size and entry count"
       else
         update_zip (with_isMacArchive true);;
         let centralDirectoryEnd := num (footerOffset z) in
         update_zip (with_centralDirectorySize
                       (Some (centralDirectoryEnd - num (centralDirectoryOffset z))));;
         mret centralDirectoryEnd
     else mret centralDirectoryEnd);
  z ← get_zip;
  let '(tooSmall, z') := _recalculateEntryCount 0 (num (centralDirectoryOffset z)) z in
  update_zip (fun _ => z');;
  when tooSmall (update_zip (with_isMacArchive true));;
  z ← get_zip;
  if negb (isMacArchive z) then
    entry ← _readEntryAt (num (centralDirectoryOffset z));
    z ← get_zip;
    match entry with
    | Some found =>
      if negb (firstEntryMaybeMac found) then
        if num (entryCount z) <=? 0
        then fail "Inconsistent Central Directory size and entry count"
        else update_zip (with_firstEntryProps (Some found))
      else
        entry ← locate_search entry (num (centralDirectoryOffset z));
        locate_finish entry centralDirectoryEnd
    | None =>
        entry ← locate_search entry (num (centralDirectoryOffset z));
        locate_finish entry centralDirectoryEnd
    end
  else
    entry ← locate_search None (-1);
    locate_finish entry centralDirectoryEnd.

(** *** [init] *)
Definition init : M unit :=
  eocdrBuffer ← _locateEocdr;
  _parseEocdr eocdrBuffer;;
  z ← get_zip;
  when (bool_decide (zip_isZip64 z = Some true)) _parseZip64Eocdr;;
  _locateCentralDirectory;;
  update_zip (fun z => with_entryCursor (centralDirectoryOffset z) z).
End Zip_locate.

Section Zip_read.
Context `{ReaderImpl} `{Platform}.

(** *** [_determineCompressedSize] *)

(** The search for the Data Descriptor, every 4 GiB upwards: the
    result is the offset where it was found, or [None] for [null]. *)
Fixpoint search_dataDescriptor (fuel : nat) (entryProperties : EntryProperties)
    (fileDataEnd : Z) : M (option Z) :=
  buffer ← Reader_read fileDataEnd 20;
  z ← get_zip;
  if (readUInt32LE buffer 0 =? 0x08074B50)
     && (readUInt32LE buffer 4 =? crc32 entryProperties)
     && (readUInt32LE buffer 8 =? compressedSize entryProperties)
     && (readUInt32LE buffer 12 =? uncompressedSize entryProperties)
     && ((readUInt32LE buffer 16 =? 0x04034B50)
         || bool_decide (centralDirectoryOffset z = Some (fileDataEnd + 16)))
  then mret (Some fileDataEnd)
  else if compressedSizesAreCertain z then mret None
  else
    let fileDataEnd := fileDataEnd + FOUR_GIB in
    if fileDataEnd + 16 >? num (centralDirectoryOffset z) then mret None
    else
      match fuel with
      | O => mret None
      | S fuel => search_dataDescriptor fuel entryProperties fileDataEnd
      end.

(** The entry properties are an object the caller keeps using: the
    updated properties are returned with the answer. *)
Definition _determineCompressedSize (entryProperties : EntryProperties)
    (fileDataOffsetIfMac : Z) : M (bool * EntryProperties) :=
  z ← get_zip;
  let numEntriesRemaining := num (entryCount z) - numEntriesRead z - 1 in
  let dataSpaceRemaining :=
    num (centralDirectoryOffset z) - fileDataOffsetIfMac
    - compressedSize entryProperties
    - (if compressionMethod entryProperties =? 8 then 16 else 0) in
  if dataSpaceRemaining - numEntriesRemaining * 30 <? FOUR_GIB
  then mret (true, entryProperties) else
  if isMacArchive z && (numEntriesRemaining =? 0) then
    if negb (js_rem dataSpaceRemaining FOUR_GIB =? 0)
    then fail "Invalid ZIP structure for Mac OS Archive Utility ZIP"
    else mret (true, set_compressedSize
                       (compressedSize entryProperties + dataSpaceRemaining)
                       entryProperties)
  else
  if compressionMethod entryProperties =? 0 then mret (false, entryProperties) else
  let fileDataEnd0 := fileDataOffsetIfMac + compressedSize entryProperties in
  fileDataEnd ←
    search_dataDescriptor
      (Z.to_nat ((num (centralDirectoryOffset z) - fileDataEnd0) / FOUR_GIB))
      entryProperties fileDataEnd0;
  z ← get_zip;
  match fileDataEnd with
  | None =>
      if isMacArchive z then fail "Cannot locate file Data Descriptor" else
      when (isMaybeMacArchive z) (update_world _setAsNotMacArchive);;
      mret (true, entryProperties)
  | Some fileDataEnd =>
      if fileDataEnd =? fileDataOffsetIfMac + compressedSize entryProperties
      then mret (false, entryProperties) else
      (if negb (isMacArchive z) then
         if negb (isMaybeMacArchive z) then fail "Cannot locate file Data Descriptor"
         else update_world
                (_setAsMacArchive (numEntriesRead z + 1) (entryEnd entryProperties))
       else mret tt);;
      let entryProperties :=
        set_compressedSize (fileDataEnd - fileDataOffsetIfMac) entryProperties in
      z ← get_zip;
      let numEntriesRemaining := num (entryCount z) - numEntriesRead z - 1 in
      let dataSpaceRemaining := num (centralDirectoryOffset z) - fileDataEnd - 16 in
      mret (dataSpaceRemaining - numEntriesRemaining * 30 <? FOUR_GIB, entryProperties)
  end.

(** *** [_validateAndDecodeEntry] *)

(** The loop that looks for a usable Info-ZIP Unicode Path Extra Field. *)
Fixpoint unicode_path (entry : EntryProperties) (fields : list ExtraField)
  : option string :=
  match fields with
  | [] => None
  | extraField :: fields =>
      if negb (ef_id extraField =? 0x7075) then unicode_path entry fields
      else if buf_length (ef_data extraField) <? 6 then unicode_path entry fields
      else if negb (bool_decide (buf_at (ef_data extraField) 0 = Some 1))
      then unicode_path entry fields
      else
        let oldNameCrc32 := readUInt32LE (ef_data extraField) 1 in
        if negb (calculateCrc32 (filename entry) =? oldNameCrc32)
        then unicode_path entry fields
        else Some (decodeBuffer (ef_data extraField) 5 true)
  end.

(** The checks and the decoding; the [Entry] object is made by the caller
    below. *)
Definition validateAndDecode (z : Zip) (entry : EntryProperties)
  : Result EntryProperties :=
  entry ←
    (if decodeStrings z then
       let filename_ := unicode_path entry (extraFields entry) in
       let isUtf8 := negb (js_and (generalPurposeBitFlag entry) 0x800 =? 0) in
       let filename_ :=
         match filename_ with
         | Some s => s
         | None =>
             match filename entry with
             | Text s => s
             | Raw b => decodeBuffer b 0 isUtf8
             end
         end in
       filename_ ←
         (if validateFilenames z then
            let filename_ :=
              if negb (strictFilenames z) then replace_backslashes filename_
              else filename_ in
            validateFilename filename_;;
            ok filename_
          else ok filename_);
       let entry := set_filename (Text filename_) entry in
       let entry :=
         match comment entry with
         | Raw b => set_comment (Text (decodeBuffer b 0 isUtf8)) entry
         | Text _ => entry
         end in
       ok entry
     else ok entry);
  if validateEntrySizes z && (compressionMethod entry =? 0) then
    let expectedCompressedSize :=
      if negb (js_and (generalPurposeBitFlag entry) 0x1 =? 0)
      then js_add (uncompressedSize entry) 12 else uncompressedSize entry in
    if negb (compressedSize entry =? expectedCompressedSize)
    then err (String.append "Compressed/uncompressed size mismatch for stored file: "
               (String.append (show (compressedSize entry))
                  (String.append " !== " (show expectedCompressedSize))))
    else ok entry
  else ok entry.

(** [new Entry(...)]: the object takes the first free address. *)
Definition fresh_ref (st : gmap EntryRef Entry) : EntryRef :=
  fresh (dom st).

Definition _validateAndDecodeEntry (entry : EntryProperties) : M EntryRef := fun w =>
  match validateAndDecode (zip w) entry with
  | err e => (err e, w)
  | ok entry =>
      let reference := fresh_ref (store w) in
      (ok reference,
       with_store (<[reference := {| props := entry; _ref := None |}]> (store w)) w)
  end.
End Zip_read.

(** Accessors for the [Entry] objects of the store.  A method is only
    ever called on a live object; on a dangling address the model gives
    an error of its own. *)
Definition get_entry (this : EntryRef) : M Entry := fun w =>
  match store w !! this with
  | Some entry => (ok entry, w)
  | None => (err "(no such object)", w)
  end.

Definition update_entry (this : EntryRef) (f : EntryProperties -> EntryProperties)
  : M unit :=
  update_world (fun w =>
    with_store (alter (fun entry => set_props (f (props entry)) entry) this (store w)) w).

Section Zip_readEntry.
Context `{ReaderImpl} `{Platform}.

(** *** [_readEntry] *)

(** The Mac bookkeeping for an entry that was read at the cursor.

    [this._fileCursor!]: the code takes the cursor to be set.  It is
    not in an archive that [_parseZip64Eocdr] has flagged as a Mac
    archive, which [_locateCentralDirectory] then leaves alone: there the
    first entry gets [null] for its [fileHeaderOffset].  The field is a
    number by its type and holds 0 for it here, the value that the
    remainder and the sums made of it afterwards give to [null]. *)
Definition update_mac_state (entryProperties : EntryProperties)
    (entryEnd centralDirectoryEnd : Z) : M EntryProperties :=
  z ← get_zip;
  if isMacArchive z then
    if negb (entryMaybeMac entryProperties)
       || negb (fileHeaderOffset entryProperties =? js_rem (num (_fileCursor z)) FOUR_GIB)
    then fail "Inconsistent Central Directory structure" else
    let entryProperties := set_fileHeaderOffset (num (_fileCursor z)) entryProperties in
    when (negb (entryCountIsCertain z))
      (update_zip (fun z => snd (_recalculateEntryCount (numEntriesRead z + 1) entryEnd z));;
       update_zip (fun z => _recalculateEntryCountIsCertain (numEntriesRead z + 1) entryEnd z));;
    mret entryProperties
  else if isMaybeMacArchive z then
    (if num (_fileCursor z) >=? FOUR_GIB then
       if negb (entryMaybeMac entryProperties)
          || negb (fileHeaderOffset entryProperties
                   =? js_rem (num (_fileCursor z)) FOUR_GIB)
       then fail "Inconsistent Central Directory structure"
       else update_world (_setAsMacArchive (numEntriesRead z + 1) entryEnd)
     else if negb (entryMaybeMac entryProperties)
             || negb (bool_decide (_fileCursor z = Some (fileHeaderOffset entryProperties)))
     then
       update_world _setAsNotMacArchive;;
       z ← get_zip;
       if bool_decide (entryCount z = Some (numEntriesRead z))
       then fail "Central Directory contains too many entries"
       else mret tt
     else if negb (centralDirectorySizeIsCertain z)
             && (entryEnd + (num (entryCount z) - numEntriesRead z - 1) * CDH_MIN_LENGTH
                 >? centralDirectoryEnd)
     then update_world (_setAsMacArchive (numEntriesRead z + 1) entryEnd)
     else if negb (entryCountIsCertain z) then
       let '(tooLow, z') := _recalculateEntryCount (numEntriesRead z + 1) entryEnd z in
       update_zip (fun _ => z');;
       if tooLow
       then update_world (_setAsMacArchive (numEntriesRead z + 1) entryEnd)
       else when (centralDirectorySizeIsCertain z')
              (update_zip (fun z =>
                 _recalculateEntryCountIsCertain (numEntriesRead z + 1) entryEnd z))
     else mret tt);;
    mret entryProperties
  else mret entryProperties.

(** From "Calculate what location of file data will be" to the end. *)
Definition finish_entry (entryProperties : EntryProperties) (entryEnd : Z)
  : M (option EntryRef) :=
  let fileDataOffsetIfMac :=
    fileHeaderOffset entryProperties
    + 30
    + text_length (filename entryProperties)
    + Z.of_nat (length (extraFields entryProperties)) * MAC_LFH_EXTRA_FIELDS_LENGTH in
  z ← get_zip;
  entryProperties ←
    (if negb (compressedSizesAreCertain z) then
       '(isNowCertain, entryProperties) ←
         _determineCompressedSize entryProperties fileDataOffsetIfMac;
       when isNowCertain (update_zip (with_compressedSizesAreCertain true));;
       mret entryProperties
     else mret entryProperties);
  z ← get_zip;
  let entryProperties :=
    if negb (uncompressedSizesAreCertain z) then
      if compressionMethod entryProperties =? 0 then
        set_uncompressedSize (compressedSize entryProperties) entryProperties
      else if compressionMethod entryProperties =? 8 then
        let maxUncompressedSize := compressedSize entryProperties * 1032 in
        if (maxUncompressedSize >? FOUR_GIB * 2)
           || ((maxUncompressedSize >? FOUR_GIB)
               && (js_rem maxUncompressedSize FOUR_GIB >? uncompressedSize entryProperties))
        then set_uncompressedSizeIsCertain false entryProperties
        else entryProperties
      else set_uncompressedSizeIsCertain false entryProperties
    else entryProperties in
  entry ← _validateAndDecodeEntry entryProperties;
  update_zip (with_entryCursor (Some entryEnd));;
  update_zip (fun z => with_numEntriesRead (numEntriesRead z + 1) z);;
  z ← get_zip;
  e ← get_entry entry;
  (if isMacArchive z || isMaybeMacArchive z then
     let dataDescriptorLength := if compressionMethod entryProperties =? 8 then 16 else 0 in
     update_zip (with_fileCursor
       (Some (fileDataOffsetIfMac + compressedSize (props e) + dataDescriptorLength)));;
     if isMacArchive z then
       update_entry entry (set_fileDataOffset (Some fileDataOffsetIfMac))
     else if negb (uncompressedSizeIsCertain (props e)) then
       match _uncertainUncompressedSizeEntryRefs z with
       | None => fail "Logic failure. Please raise an issue."
       | Some references =>
           update_world (fun w =>
             with_store (alter (set_ref (Some entry)) entry (store w)) w);;
           update_zip (with_uncertainUncompressedSizeEntryRefs
                         (Some (references ∪ {[entry]})))
       end
     else mret tt
   else mret tt);;
  mret (Some entry).

Definition _readEntry : M (option EntryRef) :=
  z ← get_zip;
  if bool_decide (entryCount z = Some (numEntriesRead z)) && entryCountIsCertain z
  then mret None else
  match _firstEntryProps z with
  | Some entryProperties =>
      update_zip (with_firstEntryProps None);;
      finish_entry entryProperties (entryEnd entryProperties)
  | None =>
      entryProperties ← _readEntryAt (num (_entryCursor z));
      z ← get_zip;
      let centralDirectoryEnd :=
        num (centralDirectoryOffset z) + num (centralDirectorySize z) in
      match entryProperties with
      | None =>
          if isMacArchive z
             || negb (bool_decide (entryCount z = Some (numEntriesRead z)))
             || negb (bool_decide (_entryCursor z = Some centralDirectoryEnd))
          then fail "Invalid Central Directory File Header signature" else
          when (isMaybeMacArchive z) (update_world _setAsNotMacArchive);;
          mret None
      | Some entryProperties =>
          let entryEnd := entryEnd entryProperties in
          entryProperties ← update_mac_state entryProperties entryEnd centralDirectoryEnd;
          finish_entry entryProperties entryEnd
      end
  end.

(** *** [readEntry]

    The call up to its [await], and its resumption.  Between the two
    the flag [_isReading] is set. *)
Definition readEntry_call : M unit := fun w =>
  if _isReading (zip w)
  then (err "Cannot call `readEntry()` before previous call's promise has settled", w)
  else (ok tt, with_zip (with_isReading true (zip w)) w).

Definition readEntry_resume : M (option EntryRef) := fun w =>
  let '(result, w) := _readEntry w in
  (result, with_zip (with_isReading false (zip w)) w).

Definition readEntry : M (option EntryRef) :=
  readEntry_call;; readEntry_resume.
End Zip_readEntry.

(** ** Streaming an entry (entry.ts) *)

(** What [isBoolean] and [isNumber] tell of an option, and for a number
    whether it is an integer. *)
Inductive JsBoolean : Type := NotBoolean | Boolean (b : bool).
Inductive JsNumber : Type := NotNumber | Integer (n : Z) | NonInteger.

Record OpenReadStreamOptions : Type := {
  opt_decompress : JsBoolean;
  opt_decrypt : JsBoolean;
  opt_validateCrc32 : JsBoolean;
  opt_start : JsNumber;
  opt_end : JsNumber;
}.

(** The argument [options]: absent (or falsy), not a record, or a record. *)
Inductive OptionsArg : Type :=
| NoOptions
| NotRecord
| Options (options : OpenReadStreamOptions).

(** The settings that [openReadStream] derives from its options. *)
Record Settings : Type := {
  decompress : bool;
  decrypt : bool;
  validateCrc32 : bool;
  start : Z;
  end_ : Z;
}.

(** [openReadStream], the part that reads the options. *)
Definition resolve_options (this : EntryProperties) (options : OptionsArg)
  : Result Settings :=
  let isEncrypted := isEncrypted this in
  let isCompressed := isCompressed this in
  match options with
  | Options options =>
      let decompress :=
        match opt_decompress options with
        | Boolean b => b && isCompressed
        | NotBoolean => isCompressed
        end in
      let decrypt :=
        match opt_decrypt options with
        | Boolean b => b && isEncrypted
        | NotBoolean => isEncrypted
        end in
      validateCrc32 ←
        match opt_validateCrc32 options with
        | Boolean b =>
            if b && decompress then err "Cannot validate CRC32 for uncompressed data"
            else ok b
        | NotBoolean => ok (negb decompress)
        end;
      start ←
        match opt_start options with
        | NotNumber => ok 0
        | NonInteger => err "`options.start` must be a positive integer if provided"
        | Integer start =>
            if negb (start =? 0) then
              if negb (0 <? start)
              then err "`options.start` must be a positive integer if provided"
              else if decompress
              then err "Cannot stream a section of file if decompressing"
              else if validateCrc32
              then err "Cannot validate CRC32 for a section of file"
              else if start >? compressedSize this
              then err "`start` is after end of file data"
              else ok start
            else ok start
        end;
      end_ ←
        match opt_end options with
        | NotNumber => ok (compressedSize this)
        | NonInteger => err "`options.end` must be a positive integer if provided"
        | Integer end_ =>
            if negb (0 <=? end_)
            then err "`options.end` must be a positive integer if provided"
            else if decompress
            then err "Cannot stream a section of file if decompressing"
            else if validateCrc32
            then err "Cannot validate CRC32 for a section of file"
            else if end_ >? compressedSize this
            then err "`end` is after end of file data"
            else if end_ <? start
            then err "`end` is before `start`"
            else ok end_
        end;
      ok {| decompress := decompress; decrypt := decrypt;
            validateCrc32 := validateCrc32; start := start; end_ := end_ |}
  | NotRecord => err "`options` must be an object if provided"
  | NoOptions =>
      ok {| decompress := isCompressed; decrypt := isEncrypted;
            validateCrc32 := true; start := 0; end_ := compressedSize this |}
  end.

(** [openReadStream], the checks made on the settings before any read. *)
Definition check_settings (this : EntryProperties) (s : Settings) : Result unit :=
  if decrypt s then err "Decryption is not supported"
  else if decompress s && negb (compressionMethod this =? 8)
  then err (String.append "Unsupported compression method " (show (compressionMethod this)))
  else if decompress s && isEncrypted this
  then err "Cannot decompress encrypted data"
  else if validateCrc32 s && isEncrypted this
  then err "Cannot validate CRC32 of encrypted data"
  else ok tt.

(** The array [streams] handed to [pipeline]. *)
Definition compose_streams (validateEntrySizes : bool) (this : EntryRef) (crc : Z)
    (s : Settings) (stream : Stream) : list Stream :=
  let streams := [stream] in
  let streams :=
    if decompress s then
      let streams := streams ++ [InflateRaw] in
      if validateEntrySizes then streams ++ [ValidateUncompressedSizeStream this]
      else streams
    else streams in
  if validateCrc32 s then streams ++ [ValidateCrc32Stream crc] else streams.

Section Entry.
Context `{ReaderImpl}.

(** entry.ts, [openReadStream] *)
Definition openReadStream (this : EntryRef) (options : OptionsArg) : M (list Stream) :=
  entry ← get_entry this;
  s ← lift (resolve_options (props entry) options);
  lift (check_settings (props entry) s);;
  buffer ← Reader_read (fileHeaderOffset (props entry)) 30;
  if negb (readUInt32LE buffer 0 =? 0x04034B50)
  then fail "Invalid Local File Header signature" else
  let localCrc32 := readUInt32LE buffer 14 in
  let localCompressedSize := readUInt32LE buffer 18 in
  let localUncompressedSize := readUInt32LE buffer 22 in
  let filenameLength_ := readUInt16LE buffer 26 in
  let extraFieldsLength := readUInt16LE buffer 28 in
  let fileDataOffset_ :=
    fileHeaderOffset (props entry) + 30 + filenameLength_ + extraFieldsLength in
  update_entry this (set_fileDataOffset (Some fileDataOffset_));;
  z ← get_zip;
  (if isMacArchive z || isMaybeMacArchive z then
     let matchesMacSignature :=
       (localCrc32 =? 0)
       && (localCompressedSize =? 0)
       && (localUncompressedSize =? 0)
       && (filenameLength_ =? filenameLength (props entry))
       && (extraFieldsLength
           =? Z.of_nat (length (extraFields (props entry))) * MAC_LFH_EXTRA_FIELDS_LENGTH) in
     if isMacArchive z then
       if negb matchesMacSignature
       then fail "Misidentified Mac OS Archive Utility ZIP"
       else mret tt
     else if negb matchesMacSignature
     then update_world _setAsNotMacArchive
     else mret tt
   else mret tt);;
  entry ← get_entry this;
  z ← get_zip;
  if negb (compressedSize (props entry) =? 0)
     && (fileDataOffset_ + compressedSize (props entry) >? num (footerOffset z))
  then fail (String.append "File data overflows file bounds: "
              (String.append (show fileDataOffset_)
                 (String.append " + "
                    (String.append (show (compressedSize (props entry)))
                       (String.append " > " (show (num (footerOffset z))))))))
  else
  '(stream, _) ← Reader_createReadStream (Some (fileDataOffset_ + start s))
                                          (Some (end_ s - start s));
  mret (compose_streams (validateEntrySizes z) this (crc32 (props entry)) s stream).
End Entry.

(** zip.ts, [openReadStream]: the entry must belong to this archive; in
    a world with one archive every entry of the store does. *)
Definition Zip_openReadStream `{ReaderImpl} (entry : EntryRef) (options : OptionsArg)
  : M (list Stream) :=
  openReadStream entry options.

(** entry.ts, class [ValidateUncompressedSizeStream] *)
Record SizeValidator : Type := {
  byteCount : Z;
  expectedByteCount : Z;
  sv_entry : EntryRef;
}.

Definition SizeValidator_new (entry : EntryRef) : M SizeValidator :=
  e ← get_entry entry;
  mret {| byteCount := 0; expectedByteCount := uncompressedSize (props e);
          sv_entry := entry |}.

(** [_transform] for a chunk of [chunkLength] bytes. *)
Definition SizeValidator_transform (this : SizeValidator) (chunkLength : Z)
  : M SizeValidator :=
  let byteCount_ := byteCount this + chunkLength in
  if byteCount_ >? expectedByteCount this then
    e ← get_entry (sv_entry this);
    if uncompressedSizeIsCertain (props e) then
      fail (String.append "Too many bytes in the stream. Expected "
             (String.append (show (expectedByteCount this))
                (String.append ", got at least "
                   (String.append (show byteCount_) "."))))
    else if uncompressedSize (props e) =? expectedByteCount this then
      let expected := expectedByteCount this + FOUR_GIB in
      update_entry (sv_entry this) (set_uncompressedSize expected);;
      z ← get_zip;
      (if negb (isMacArchive z) then
         if negb (isMaybeMacArchive z)
         then fail "Logic failure. Please raise an issue."
         else update_world (_setAsMacArchive (numEntriesRead z) (num (_entryCursor z)))
       else mret tt);;
      mret {| byteCount := byteCount_; expectedByteCount := expected;
              sv_entry := sv_entry this |}
    else
      mret {| byteCount := byteCount_; expectedByteCount := uncompressedSize (props e);
              sv_entry := sv_entry this |}
  else
    mret {| byteCount := byteCount_; expectedByteCount := expectedByteCount this;
            sv_entry := sv_entry this |}.

(** [_flush] *)
Definition SizeValidator_flush (this : SizeValidator) : M unit :=
  if byteCount this <? expectedByteCount this then
    fail (String.append "Not enough bytes in the stream. Expected "
           (String.append (show (expectedByteCount this))
              (String.append ", got only "
                 (String.append (show (byteCount this)) "."))))
  else
    e ← get_entry (sv_entry this);
    if negb (uncompressedSizeIsCertain (props e)) then
      update_entry (sv_entry this) (set_uncompressedSizeIsCertain true);;
      match _ref e with
      | Some reference =>
          update_world (fun w =>
            with_store (alter (set_ref None) (sv_entry this) (store w)) w);;
          update_zip (fun z =>
            match _uncertainUncompressedSizeEntryRefs z with
            | Some references =>
                with_uncertainUncompressedSizeEntryRefs
                  (Some (references ∖ {[reference]})) z
            | None => z
            end)
      | None => mret tt
      end
    else mret tt.

(** ** The Mac entry signature, in words

    The predicate of the specification for [entryMaybeMac], and the one
    that the code decides. *)

(** The filename, as undecoded buffer, ends with a slash. *)
Definition ends_with_slash (f : EntryFilename) : Prop :=
  exists b, f = Raw b /\ buf_last b = Some 47.

(** Exactly one extra field, with id 22613 and 8 bytes of data. *)
Definition one_mac_extra_field (e : EntryProperties) : Prop :=
  exists field, extraFields e = [field]
    /\ ef_id field = 22613 /\ buf_length (ef_data field) = 8.

Definition mac_common (e : EntryProperties) : Prop :=
  versionMadeBy e = 789 /\ text_length (comment e) = 0 /\ isZip64 e = false.

Definition mac_normal_file (e : EntryProperties) : Prop :=
  versionNeededToExtract e = 20 /\ generalPurposeBitFlag e = 8
  /\ compressionMethod e = 8 /\ ~ ends_with_slash (filename e).

Definition mac_symlink_shape (e : EntryProperties) : Prop :=
  extraFields e = [] /\ compressedSize e <> 0 /\ ~ ends_with_slash (filename e).

(** Case (b) as the claim words it: a folder or empty file is told by
    its zero size. *)
Definition mac_stored_claimed (e : EntryProperties) : Prop :=
  versionNeededToExtract e = 10 /\ generalPurposeBitFlag e = 0
  /\ compressionMethod e = 0 /\ uncompressedSize e = compressedSize e
  /\ (mac_symlink_shape e \/ compressedSize e = 0).

Definition mac_signature_claimed (e : EntryProperties) : Prop :=
  mac_common e
  /\ (mac_normal_file e \/ mac_stored_claimed e)
  /\ (~ (mac_stored_claimed e /\ mac_symlink_shape e) -> one_mac_extra_field e).

(** Case (b) as the code has it: a folder or empty file also has a CRC32
    of 0. *)
Definition mac_stored (e : EntryProperties) : Prop :=
  versionNeededToExtract e = 10 /\ generalPurposeBitFlag e = 0
  /\ compressionMethod e = 0 /\ uncompressedSize e = compressedSize e
  /\ (mac_symlink_shape e \/ (compressedSize e = 0 /\ crc32 e = 0)).

Definition mac_signature (e : EntryProperties) : Prop :=
  mac_common e
  /\ (mac_normal_file e \/ mac_stored e)
  /\ (~ (mac_stored e /\ mac_symlink_shape e) -> one_mac_extra_field e).

(** A folder entry as Archive Utility writes it, but for its CRC32. *)
Definition folder_with_crc : EntryProperties :=
  {| filename := Raw ["d"; "/"]%byte;
     compressedSize := 0;
     uncompressedSize := 0;
     uncompressedSizeIsCertain := true;
     compressionMethod := 0;
     fileHeaderOffset := 0;
     fileDataOffset := None;
     isZip64 := false;
     crc32 := 1;
     lastModTime := 0;
     lastModDate := 0;
     comment := Raw [];
     extraFields := [{| ef_id := 22613; ef_data := repeat "000"%byte 8 |}];
     versionMadeBy := 789;
     versionNeededToExtract := 10;
     generalPurposeBitFlag := 0;
     internalFileAttributes := 0;
     externalFileAttributes := 0;
     filenameLength := 2;
     entryEnd := 60 |}.

(** ** Entry counts *)

(** [inc] is the smallest positive multiple of 65536 that is at least
    [need]. *)
Definition smallest_multiple_reaching (need inc : Z) : Prop :=
  0 < inc /\ (65536 | inc) /\ need <= inc
  /\ forall m, 0 < m -> (65536 | m) -> need <= m -> inc <= m.

(** A Mac archive whose Central Directory was grown up to an End of
    Central Directory Record at 8 GiB, and that declares one entry. *)
Definition zip_grown_directory : Zip :=
  with_isMacArchive true
    (with_centralDirectorySize (Some (2 * FOUR_GIB))
       (with_centralDirectoryOffset (Some 0)
          (with_footerOffset (Some (2 * FOUR_GIB))
             (with_entryCount (Some 1)
                (Zip_new (2 * FOUR_GIB + 22) default_options))))).

(** ** Locating the End of Central Directory Record, in words *)

(** The window that [_locateEocdr] reads: the last bytes of the archive. *)
Definition eocdr_window_size (size : Z) : Z :=
  Z.min size (EOCDR_WITHOUT_COMMENT_SIZE + MAX_EOCDR_COMMENT_SIZE).

(** Position [p] of the window holds the signature, and the comment
    length recorded there runs exactly to the end of the window. *)
Definition eocdr_accepted (buffer : Buffer) (bufferSize p : Z) : Prop :=
  readUInt32LE buffer p = 0x06054B50
  /\ readUInt16LE buffer (p + 20) = bufferSize - p - EOCDR_WITHOUT_COMMENT_SIZE.

(** ** Readers of the library, and a platform for the examples *)

(** reader.ts, class [BufferReader] *)
Definition BufferReader (buffer : Buffer) : ReaderImpl :=
  {| _read := fun start length =>
       let end_ := start + length in
       if end_ >? buf_length buffer then err "Cannot read beyond end of buffer"
       else ok (subarray buffer start end_);
     _createReadStream := fun start length =>
       let end_ := start + length in
       if end_ >? buf_length buffer then err "Cannot read beyond end of buffer"
       else ok (FromReader start length);
     _open := ok tt;
     _close := ok tt |}.

(** CRC-32 (polynomial 0xEDB88320), bit by bit. *)
Definition crc32_bit (crc : Z) : Z :=
  if Z.testbit crc 0 then Z.lxor (Z.shiftr crc 1) 0xEDB88320 else Z.shiftr crc 1.

Definition crc32_byte (crc : Z) (b : byte) : Z :=
  Nat.iter 8 crc32_bit (Z.lxor crc (u8 b)).

Definition crc32_bytes (buffer : Buffer) : Z :=
  Z.lxor (fold_left crc32_byte buffer 0xFFFFFFFF) 0xFFFFFFFF.

(** Bytes below 128 decode to the same character in CP437 and in UTF-8;
    the example archives use no others. *)
Definition ascii_platform : Platform :=
  {| decodeBuffer := fun buffer start _ =>
       string_of_list_ascii (map ascii_of_byte (subarray_from buffer start));
     calculateCrc32 := fun data =>
       match data with
       | Raw b => crc32_bytes b
       | Text s => crc32_bytes (map byte_of_ascii (list_ascii_of_string s))
       end |}.

(** Little-endian fields, to write archives down. *)
Definition byte_of_Z (n : Z) : byte :=
  default "000"%byte (Byte.of_N (Z.to_N (n mod 256))).
Definition le16 (n : Z) : Buffer := [byte_of_Z n; byte_of_Z (n / 256)].
Definition le32 (n : Z) : Buffer :=
  [byte_of_Z n; byte_of_Z (n / 256); byte_of_Z (n / 65536); byte_of_Z (n / 16777216)].

(** An End of Central Directory Record. *)
Definition eocdr_bytes (entries cdSize cdOffset : Z) (archiveComment : Buffer) : Buffer :=
  le32 0x06054B50 ++ le16 0 ++ le16 0 ++ le16 entries ++ le16 entries
  ++ le32 cdSize ++ le32 cdOffset ++ le16 (buf_length archiveComment) ++ archiveComment.

(** A Central Directory File Header without comment. *)
Definition cdh_bytes (madeBy needed flags method crc csize usize headerOffset : Z)
    (name extra : Buffer) : Buffer :=
  le32 0x02014B50 ++ le16 madeBy ++ le16 needed ++ le16 flags ++ le16 method
  ++ le16 0 ++ le16 0x4521 ++ le32 crc ++ le32 csize ++ le32 usize
  ++ le16 (buf_length name) ++ le16 (buf_length extra) ++ le16 0
  ++ le16 0 ++ le16 0 ++ le32 0 ++ le32 headerOffset ++ name ++ extra.

(** A Local File Header; the lengths are given apart from the bytes
    that follow, so that a header can lie about them. *)
Definition lfh_bytes (needed flags method crc csize usize nameLength extraLength : Z)
    (rest : Buffer) : Buffer :=
  le32 0x04034B50 ++ le16 needed ++ le16 flags ++ le16 method
  ++ le16 0 ++ le16 0x4521 ++ le32 crc ++ le32 csize ++ le32 usize
  ++ le16 nameLength ++ le16 extraLength ++ rest.

(** The world in which a factory of index.ts runs [init]: a new archive
    over an opened reader. *)
Definition new_world (size : Z) (options : bool * bool * bool * bool * bool) : World :=
  {| zip := Zip_new size options;
     reader := with_isOpen true Reader_new;
     store := ∅ |}.

(** The archive without entries: a lone End of Central Directory Record. *)
Definition empty_archive : Buffer := eocdr_bytes 0 0 0 [].

(** ** Example archives *)

(** Three entries: [a], stored; [b], stored and encrypted (12 bytes of
    encryption header); [c], deflated. *)
Definition sample_archive : Buffer :=
  lfh_bytes 10 0 0 0x11 2 2 1 0 (["a"; "h"; "i"]%byte)
  ++ lfh_bytes 10 1 0 0x22 14 2 1 0 (["b"]%byte ++ repeat "000"%byte 14)
  ++ lfh_bytes 20 0 8 0x33 4 2 1 0 (["c"]%byte ++ repeat "000"%byte 4)
  ++ cdh_bytes 20 10 0 0 0x11 2 2 0 ["a"]%byte []
  ++ cdh_bytes 20 10 1 0 0x22 14 2 33 ["b"]%byte []
  ++ cdh_bytes 20 20 0 8 0x33 4 2 78 ["c"]%byte []
  ++ eocdr_bytes 3 141 113 [].

(** [fromBuffer(sample_archive)] followed by three calls of [readEntry]:
    the entries get the addresses 0, 1 and 2. *)
Definition sample_world : World :=
  snd (@mbind M _ _ _ (fun _ => @mbind M _ _ _ (fun _ => @mbind M _ _ _
         (fun _ => @readEntry (BufferReader sample_archive) ascii_platform)
         (@readEntry (BufferReader sample_archive) ascii_platform))
         (@readEntry (BufferReader sample_archive) ascii_platform))
         (@init (BufferReader sample_archive) ascii_platform)
         (new_world (buf_length sample_archive) default_options)).

(** One entry whose Local File Header claims a name of 65535 bytes. *)
Definition lying_archive : Buffer :=
  lfh_bytes 10 0 0 0 0 0 0xFFFF 0 []
  ++ cdh_bytes 20 10 0 0 0 0 0 0 ["a"]%byte []
  ++ eocdr_bytes 1 47 30 [].

(** A directory in the style of Archive Utility that declares 65535
    entries, without ZIP64 records, and whose first entry claims a
    compressed size just below 4 GiB. *)
Definition mac_extra : Buffer := le16 22613 ++ le16 8 ++ repeat "000"%byte 8.

Definition mac_archive : Buffer :=
  repeat "000"%byte 100
  ++ cdh_bytes 789 20 8 8 0 0xFFFFFFF0 5 0 ["a"]%byte mac_extra
  ++ cdh_bytes 789 20 8 8 0 3 5 47 ["b"]%byte mac_extra
  ++ eocdr_bytes 0xFFFF 118 100 [].

(** Options *)
Definition no_option : OpenReadStreamOptions :=
  {| opt_decompress := NotBoolean; opt_decrypt := NotBoolean;
     opt_validateCrc32 := NotBoolean; opt_start := NotNumber; opt_end := NotNumber |}.

Definition with_opt_decrypt (v : JsBoolean) (o : OpenReadStreamOptions)
  : OpenReadStreamOptions :=
  {| opt_decompress := opt_decompress o; opt_decrypt := v;
     opt_validateCrc32 := opt_validateCrc32 o; opt_start := opt_start o;
     opt_end := opt_end o |}.

Definition with_opt_start (v : JsNumber) (o : OpenReadStreamOptions)
  : OpenReadStreamOptions :=
  {| opt_decompress := opt_decompress o; opt_decrypt := opt_decrypt o;
     opt_validateCrc32 := opt_validateCrc32 o; opt_start := v;
     opt_end := opt_end o |}.

(** ** The life of a reader

    What can happen to a reader, one event at a time: calls of its
    methods, the settling of a pending [read], and the events ['end'],
    ['error'] and ['close'] of the streams it handed out, each of which
    runs the listener [onEnd] of that stream. *)
Inductive StreamEvent : Type := on_end | on_error | on_close.

Inductive ReaderEvent : Type :=
| call_open
| call_close
| call_read (start length : Z)
| settle_read (result : Result Buffer)
| call_createReadStream (start length : option Z)
| emit (listener : nat) (event : StreamEvent).

(** The reader with the number of calls of [read] that await their
    result. *)
Record ReaderState : Type := {
  rs_world : World;
  rs_reads : nat;
}.

Definition reader_step `{ReaderImpl} (ev : ReaderEvent) (s : ReaderState)
  : option ReaderState :=
  let w := rs_world s in
  match ev with
  | call_open => Some {| rs_world := snd (Reader_open w); rs_reads := rs_reads s |}
  | call_close => Some {| rs_world := snd (Reader_close w); rs_reads := rs_reads s |}
  | call_read start length =>
      match Reader_read_begin start length w with
      | (ok None, w') => Some {| rs_world := w'; rs_reads := S (rs_reads s) |}
      | (_, w') => Some {| rs_world := w'; rs_reads := rs_reads s |}
      end
  | settle_read result =>
      match rs_reads s with
      | O => None
      | S n => Some {| rs_world := snd (Reader_read_settle result w); rs_reads := n |}
      end
  | call_createReadStream start length =>
      Some {| rs_world := snd (Reader_createReadStream start length w);
              rs_reads := rs_reads s |}
  | emit listener _ => Some {| rs_world := onEnd listener w; rs_reads := rs_reads s |}
  end.

Inductive reader_reachable `{ReaderImpl} : ReaderState -> Prop :=
| reader_created z st :
    reader_reachable {| rs_world := {| zip := z; reader := Reader_new; store := st |};
                        rs_reads := 0 |}
| reader_stepped ev s s' :
    reader_reachable s -> reader_step ev s = Some s' -> reader_reachable s'.

(** The streams that have not had any of their three events yet. *)
Definition live_streams (r : Reader) : Z :=
  Z.of_nat (length (filter (fun ended => ended = false) (isEnded r))).

Fixpoint reader_run `{ReaderImpl} (events : list ReaderEvent) (s : ReaderState)
  : option ReaderState :=
  match events with
  | [] => Some s
  | ev :: events =>
      match reader_step ev s with
      | Some s' => reader_run events s'
      | None => None
      end
  end.

(** A reader over the sample archive that was opened, served one read
    and one stream, and saw the stream end and close. *)
Definition served_reader : ReaderState :=
  {| rs_world :=
       {| zip := Zip_new 276 default_options;
          reader := {| _isOpen := true; _readCount := 0; isEnded := [true] |};
          store := ∅ |};
     rs_reads := 0 |}.

(** ** Reasoning about computations

    [wp m Q E w]: run from [w], the computation [m] ends with a value
    and a world that satisfy [Q], or with an error in a world that
    satisfies [E]. *)
Definition wp {A} (m : M A) (Q : A -> World -> Prop) (E : World -> Prop)
    (w : World) : Prop :=
  match m w with
  | (ok a, w') => Q a w'
  | (err _, w') => E w'
  end.

(** The archive and the entries are those of [w]; the reader may have
    moved. *)
Definition same_archive (w w' : World) : Prop :=
  zip w' = zip w /\ store w' = store w.

(** ** The life of an archive *)

(** The two Mac flags are not both set. *)
Definition mac_flags_exclusive (z : Zip) : Prop :=
  ~ (isMacArchive z = true /\ isMaybeMacArchive z = true).

(** The entry kept from [init] for the first [readEntry] has its Local
    File Header before the footer. *)
Definition first_entry_in_bounds (z : Zip) : Prop :=
  forall e, _firstEntryProps z = Some e ->
    fileHeaderOffset e + 30 <= num (footerOffset z).

(** What holds of an archive once it is open: [c] is where its footer
    is, [b] tells whether a call of [readEntry] is under way. *)
Definition zip_inv (c : option Z) (b : bool) (z : Zip) : Prop :=
  footerOffset z = c /\ _isReading z = b
  /\ mac_flags_exclusive z /\ first_entry_in_bounds z.

(** What holds while [init] locates the Central Directory. *)
Definition init_inv (c : option Z) (z : Zip) : Prop :=
  footerOffset z = c /\ _isReading z = false
  /\ isMaybeMacArchive z = false /\ _firstEntryProps z = None.

(** The fields that the invariants speak of. *)
Definition same_core (z z' : Zip) : Prop :=
  footerOffset z' = footerOffset z /\ _isReading z' = _isReading z
  /\ isMacArchive z' = isMacArchive z /\ isMaybeMacArchive z' = isMaybeMacArchive z
  /\ _firstEntryProps z' = _firstEntryProps z.

(** The stages of [init]. *)
Definition init_stage1 `{ReaderImpl} : M unit := _locateEocdr;; mret tt.
Definition init_stage2 `{ReaderImpl} `{Platform} : M unit :=
  eocdrBuffer ← _locateEocdr; _parseEocdr eocdrBuffer.
Definition init_stage3 `{ReaderImpl} `{Platform} : M unit :=
  init_stage2;;
  z ← get_zip;
  when (bool_decide (zip_isZip64 z = Some true)) _parseZip64Eocdr.
Definition init_stage4 `{ReaderImpl} `{Platform} : M unit :=
  init_stage3;; _locateCentralDirectory.

(** What can happen to an open archive, one event at a time.  A call of
    [readEntry] that is accepted runs up to its [await]; it is resumed
    by a later event, and other events may come in between.  The events
    of a validating stream may come from any stream, in any state. *)
Inductive ZipEvent : Type :=
| call_readEntry
| resume_readEntry
| call_openReadStream (entry : EntryRef) (options : OptionsArg)
| stream_transform (stream : SizeValidator) (chunkLength : Z)
| stream_flush (stream : SizeValidator)
| call_setAsMacArchive (numEntriesRead entryCursor : Z)
| call_setAsNotMacArchive
| collected (entry : EntryRef)
| reader_event (ev : ReaderEvent).

(** The world with the promise of [readEntry] that has not settled, if
    there is one, and the reads of the reader that await their result. *)
Record ZipState : Type := {
  zs_world : World;
  zs_reading : bool;
  zs_reads : nat;
}.

Definition zip_step `{ReaderImpl} `{Platform} (ev : ZipEvent) (s : ZipState)
  : option ZipState :=
  let w := zs_world s in
  let moved w' := Some {| zs_world := w'; zs_reading := zs_reading s;
                          zs_reads := zs_reads s |} in
  match ev with
  | call_readEntry =>
      match readEntry_call w with
      | (ok _, w') => Some {| zs_world := w'; zs_reading := true; zs_reads := zs_reads s |}
      | (err _, w') => moved w'
      end
  | resume_readEntry =>
      if zs_reading s
      then Some {| zs_world := snd (readEntry_resume w); zs_reading := false;
                   zs_reads := zs_reads s |}
      else None
  | call_openReadStream entry options => moved (snd (openReadStream entry options w))
  | stream_transform stream chunkLength =>
      moved (snd (SizeValidator_transform stream chunkLength w))
  | stream_flush stream => moved (snd (SizeValidator_flush stream w))
  | call_setAsMacArchive numEntriesRead entryCursor =>
      moved (_setAsMacArchive numEntriesRead entryCursor w)
  | call_setAsNotMacArchive => moved (_setAsNotMacArchive w)
  | collected entry => moved (finalize entry w)
  | reader_event ev =>
      match reader_step ev {| rs_world := w; rs_reads := zs_reads s |} with
      | Some r => Some {| zs_world := rs_world r; zs_reading := zs_reading s;
                          zs_reads := rs_reads r |}
      | None => None
      end
  end.

(** The archives that a factory of index.ts returns, and what becomes
    of them. *)
Inductive zip_reachable `{ReaderImpl} `{Platform} : ZipState -> Prop :=
| zip_opened size options r w :
    init {| zip := Zip_new size options; reader := r; store := ∅ |} = (ok tt, w) ->
    zip_reachable {| zs_world := w; zs_reading := false; zs_reads := 0 |}
| zip_stepped ev s s' :
    zip_reachable s -> zip_step ev s = Some s' -> zip_reachable s'.

(** [m] keeps a property of the archive, however it ends. *)
Definition zpreserves {A} (Iz : Zip -> Prop) (m : M A) : Prop :=
  forall w, Iz (zip w) -> wp m (fun _ w' => Iz (zip w')) (fun w' => Iz (zip w')) w.

(** [m] keeps a property of the archive, and its value satisfies [R]. *)
Definition zpreserves_res {A} (Iz : Zip -> Prop) (m : M A) (R : A -> Prop) : Prop :=
  forall w, Iz (zip w) ->
    wp m (fun a w' => Iz (zip w') /\ R a) (fun w' => Iz (zip w')) w.

(** [init_inv], wherever the footer is. *)
Definition init_free (z : Zip) : Prop := init_inv (footerOffset z) z.

(** An entry, if any, whose Local File Header lies before [c]. *)
Definition header_before (c : option Z) (entry : option EntryProperties) : Prop :=
  forall e, entry = Some e -> fileHeaderOffset e + 30 <= num c.

Fixpoint zip_run `{ReaderImpl} `{Platform} (events : list ZipEvent) (s : ZipState)
  : option ZipState :=
  match events with
  | [] => Some s
  | ev :: events =>
      match zip_step ev s with
      | Some s' => zip_run events s'
      | None => None
      end
  end.

(** The invariant of the reachable states: the promise of [readEntry]
    is pending exactly while [_isReading] is set. *)
Definition reach_inv (s : ZipState) : Prop :=
  zip_inv (footerOffset (zip (zs_world s))) (zs_reading s) (zip (zs_world s)).

(** [fromBuffer(sample_archive)]: the sample archive, opened. *)
Definition sample_opened : World :=
  snd (@init (BufferReader sample_archive) ascii_platform
         (new_world (buf_length sample_archive) default_options)).

Definition sample_state : ZipState :=
  {| zs_world := sample_opened; zs_reading := false; zs_reads := 0 |}.

(** The same, with a call of [readEntry] under way. *)
Definition sample_reading : ZipState :=
  {| zs_world := with_zip (with_isReading true (zip sample_opened)) sample_opened;
     zs_reading := true; zs_reads := 0 |}.

(** [fromBuffer(mac_archive)], opened, and after two calls of
    [readEntry] have settled. *)
Definition mac_opened : World :=
  snd (@init (BufferReader mac_archive) ascii_platform
         (new_world (buf_length mac_archive) default_options)).

Definition mac_state : ZipState :=
  {| zs_world := mac_opened; zs_reading := false; zs_reads := 0 |}.

Definition mac_read_state : ZipState :=
  default mac_state
    (@zip_run (BufferReader mac_archive) ascii_platform
       [call_readEntry; resume_readEntry; call_readEntry; resume_readEntry]
       mac_state).

(** The sample archive after a first call of [readEntry] has settled. *)
Definition sample_read_state : ZipState :=
  default sample_state
    (@zip_run (BufferReader sample_archive) ascii_platform
       [call_readEntry; resume_readEntry] sample_state).

(** [fromBuffer(mac_archive)] with one entry read and a second call of
    [readEntry] under way. *)
Definition mac_reading : ZipState :=
  default mac_state
    (@zip_run (BufferReader mac_archive) ascii_platform
       [call_readEntry; resume_readEntry; call_readEntry] mac_state).

(** [fromBuffer(lying_archive)], opened, and after a call of [readEntry]
    has settled. *)
Definition lying_opened : World :=
  snd (@init (BufferReader lying_archive) ascii_platform
         (new_world (buf_length lying_archive) default_options)).

Definition lying_state : ZipState :=
  {| zs_world := lying_opened; zs_reading := false; zs_reads := 0 |}.

Definition lying_read_state : ZipState :=
  default lying_state
    (@zip_run (BufferReader lying_archive) ascii_platform
       [call_readEntry; resume_readEntry] lying_state).

(** ** Where the entries lie *)

(** The entry at address [ref] is alive and its properties satisfy [P]. *)
Definition props_sat (P : EntryProperties -> Prop) (ref : EntryRef) (w : World) : Prop :=
  exists e, store w !! ref = Some e /\ P (props e).

(** A property of an entry that does not read [uncompressedSizeIsCertain],
    the one field that the archive changes behind the back of an entry. *)
Definition settled (P : EntryProperties -> Prop) : Prop :=
  forall p v, P p -> P (set_uncompressedSizeIsCertain v p).

(** The Local File Header of the entry lies before the footer. *)
Definition header_in_bounds (ref : EntryRef) (w : World) : Prop :=
  props_sat (fun p => fileHeaderOffset p + 30 <= num (footerOffset (zip w))) ref w.

(** The file data of the entry have been located and end before the
    footer; [data_in_bounds_if_any] asks it of an entry with data only. *)
Definition data_in_bounds (ref : EntryRef) (w : World) : Prop :=
  props_sat (fun p => exists fileDataOffset_,
                        fileDataOffset p = Some fileDataOffset_
                        /\ fileDataOffset_ + compressedSize p <= num (footerOffset (zip w)))
            ref w.

Definition data_in_bounds_if_any (ref : EntryRef) (w : World) : Prop :=
  props_sat (fun p => exists fileDataOffset_,
                        fileDataOffset p = Some fileDataOffset_
                        /\ (compressedSize p <> 0 ->
                            fileDataOffset_ + compressedSize p
                            <= num (footerOffset (zip w))))
            ref w.

(** The counter counts the pending reads and the live streams. *)
Definition counter_invariant (s : ReaderState) : Prop :=
  _readCount (reader (rs_world s))
  = Z.of_nat (rs_reads s) + live_streams (reader (rs_world s)).

(** ** Words for the properties of filenames *)

(** [s] holds the character [c]. *)
Definition has_char (c : ascii) (s : string) : Prop :=
  In c (list_ascii_of_string s).

(** [s] starts with a drive letter and a colon, as [/^[a-zA-Z]:/] tests. *)
Definition drive_letter_path (s : string) : Prop :=
  exists c rest, s = String c (String ":"%char rest) /\ is_letter c = true.

Definition starts_with (prefix s : string) : Prop :=
  exists rest, s = String.append prefix rest.

(** [c] is one of the components of the path [s]: it stands between
    two slashes, or between a slash and an end of [s], or is all of [s]. *)
Definition path_component (c s : string) : Prop :=
  exists pre post,
    s = String.append pre (String.append c post)
    /\ (pre = EmptyString \/ exists p, pre = String.append p "/")
    /\ (post = EmptyString \/ exists q, post = String.append "/" q).

(** [segments.join('/')] *)
Fixpoint join_slash (segments : list string) : string :=
  match segments with
  | [] => EmptyString
  | [segment] => segment
  | segment :: segments => String.append segment (String "/"%char (join_slash segments))
  end.

(** An archive opened with [decodeStrings: false]. *)
Definition raw_options : bool * bool * bool * bool * bool :=
  (false, true, true, false, true).

Definition raw_opened : World :=
  snd (@init (BufferReader sample_archive) ascii_platform
         (new_world (buf_length sample_archive) raw_options)).

(** [{ decrypt: false, validateCrc32: false }] *)
Definition raw_stream_options : OpenReadStreamOptions :=
  {| opt_decompress := NotBoolean; opt_decrypt := Boolean false;
     opt_validateCrc32 := Boolean false; opt_start := NotNumber; opt_end := NotNumber |}.

(** ** A validating stream, driven

    The stream machinery calls [_transform] once for each chunk, in
    order, stops at the first error, and calls [_flush] when the source
    ends.  [chunks] are the lengths of the chunks. *)
Fixpoint SizeValidator_run (this : SizeValidator) (chunks : list Z) : M unit :=
  match chunks with
  | [] => SizeValidator_flush this
  | chunkLength :: chunks =>
      this ← SizeValidator_transform this chunkLength;
      SizeValidator_run this chunks
  end.

(** [new ValidateUncompressedSizeStream(entry)], fed with [chunks]. *)
Definition validate_uncompressed_size (entry : EntryRef) (chunks : list Z) : M unit :=
  this ← SizeValidator_new entry;
  SizeValidator_run this chunks.

Definition total_length (chunks : list Z) : Z := fold_right Z.add 0 chunks.

(** One deflated entry in the style of Archive Utility that claims
    9000000 compressed bytes for 5 uncompressed ones: the archive may be
    a Mac archive, and the uncompressed size of the entry is uncertain. *)
Definition doubtful_archive : Buffer :=
  repeat "000"%byte 100
  ++ cdh_bytes 789 20 8 8 0 9000000 5 0 ["a"]%byte mac_extra
  ++ eocdr_bytes 1 59 100 [].

Definition doubtful_opened : World :=
  snd (@init (BufferReader doubtful_archive) ascii_platform
         (new_world (buf_length doubtful_archive) default_options)).

Definition doubtful_state : ZipState :=
  {| zs_world := doubtful_opened; zs_reading := false; zs_reads := 0 |}.

Definition doubtful_read_state : ZipState :=
  default doubtful_state
    (@zip_run (BufferReader doubtful_archive) ascii_platform
       [call_readEntry; resume_readEntry] doubtful_state).

(** What [_readEntryAt] promises of the properties it returns. *)
Definition entry_read_at (offset footer : Z) (e : EntryProperties) : Prop :=
  offset + CDH_MIN_LENGTH + filenameLength e <= entryEnd e
  /\ entryEnd e <= footer
  /\ fileHeaderOffset e + 30 <= footer
  /\ 0 <= fileHeaderOffset e /\ 0 <= compressedSize e /\ 0 <= uncompressedSize e
  /\ 0 <= filenameLength e
  /\ uncompressedSizeIsCertain e = true /\ fileDataOffset e = None
  /\ js_and (generalPurposeBitFlag e) 0x40 = 0.


(** ** What [init] leaves behind *)

(** The reader, the entries, the size and the options are those of
    [w0], and the footer starts at [f]. *)
Definition init_frame (w0 : World) (f : Z) (w : World) : Prop :=
  reader w = reader w0 /\ store w = store w0
  /\ zip_size (zip w) = zip_size (zip w0)
  /\ decodeStrings (zip w) = decodeStrings (zip w0)
  /\ validateEntrySizes (zip w) = validateEntrySizes (zip w0)
  /\ validateFilenames (zip w) = validateFilenames (zip w0)
  /\ strictFilenames (zip w) = strictFilenames (zip w0)
  /\ supportMacArchive (zip w) = supportMacArchive (zip w0)
  /\ footerOffset (zip w) = Some f.

(** The entry kept for the first [readEntry] was read where the
    Central Directory starts. *)
Definition first_entry_read (z : Zip) : Prop :=
  forall e, _firstEntryProps z = Some e ->
    entry_read_at (num (centralDirectoryOffset z)) (num (footerOffset z)) e.

(** While [init] looks for the Central Directory: no entry is kept yet. *)
Definition locating (w0 : World) (f : Z) (w : World) : Prop :=
  init_frame w0 f w /\ _firstEntryProps (zip w) = None.

(** The entry [r], if any, was read where the directory of [w] starts. *)
Definition found_at (w : World) (f : Z) (r : option EntryProperties) : Prop :=
  forall e, r = Some e -> entry_read_at (num (centralDirectoryOffset (zip w))) f e.

Definition located (w0 : World) (f : Z) (w : World) : Prop :=
  init_frame w0 f w /\ first_entry_read (zip w).

(** ** Reading the entries in turn *)

(** What an archive keeps while it does anything but take an entry:
    the footer, the cursor, the entry kept from [init], the count of
    the entries read, the flag of [readEntry], the size, the options. *)
Definition kept (z z' : Zip) : Prop :=
  footerOffset z' = footerOffset z
  /\ _entryCursor z' = _entryCursor z
  /\ _firstEntryProps z' = _firstEntryProps z
  /\ _isReading z' = _isReading z
  /\ numEntriesRead z' = numEntriesRead z
  /\ zip_size z' = zip_size z
  /\ decodeStrings z' = decodeStrings z
  /\ validateEntrySizes z' = validateEntrySizes z
  /\ validateFilenames z' = validateFilenames z
  /\ strictFilenames z' = strictFilenames z
  /\ supportMacArchive z' = supportMacArchive z.

(** The entry kept from [init], if any, was read at the cursor. *)
Definition cursor_inv (z : Zip) : Prop :=
  forall e, _firstEntryProps z = Some e ->
    entry_read_at (num (_entryCursor z)) (num (footerOffset z)) e.

(** No entry is kept from [init]. *)
Definition no_first (z : Zip) : Prop := _firstEntryProps z = None.

(** An entry that ends at [entryEnd] has been taken. *)
Definition advanced (entryEnd : Z) (z z' : Zip) : Prop :=
  kept (with_numEntriesRead (numEntriesRead z + 1)
          (with_entryCursor (Some entryEnd) (with_firstEntryProps None z))) z'.

(** What [readEntry] does to the archive, by what it answers. *)
Definition entry_taken (z : Zip) (result : option EntryRef) (z' : Zip) : Prop :=
  match result with
  | Some _ =>
      exists entryEnd,
        advanced entryEnd z z'
        /\ num (_entryCursor z) + CDH_MIN_LENGTH <= entryEnd <= num (footerOffset z)
  | None => kept z z'
  end.

(** The most headers that fit between the cursor and the footer. *)
Definition entries_left (z : Zip) : nat :=
  Z.to_nat ((num (footerOffset z) - num (_entryCursor z)) / CDH_MIN_LENGTH).

(** What a loop of [readEntries] that started with [entries] at turn
    [i] has done when it answers [result]. *)
Definition entries_read (numEntries : option Z) (i : Z) (entries : list EntryRef)
    (z : Zip) (result : option (list EntryRef)) (z' : Zip) : Prop :=
  exists more,
    result = Some (entries ++ more)
    /\ (length more <= entries_left z)%nat
    /\ numEntriesRead z' = numEntriesRead z + Z.of_nat (length more)
    /\ (forall n, numEntries = Some n -> Z.of_nat (length more) <= Z.max 0 (n - i))
    /\ cursor_inv z'.

Section Zip_readEntries.
Context `{ReaderImpl} `{Platform}.

(** The loop of [readEntries]; [numEntries] is [None] for [Infinity].
    The answer [None] tells that the loop has not ended within [fuel]
    turns. *)
Fixpoint readEntries_loop (fuel : nat) (numEntries : option Z) (i : Z)
    (entries : list EntryRef) : M (option (list EntryRef)) :=
  match fuel with
  | O => mret None
  | S fuel =>
      if match numEntries with Some n => i <? n | None => true end then
        entry ← readEntry;
        match entry with
        | None => mret (Some entries)
        | Some entry => readEntries_loop fuel numEntries (i + 1) (entries ++ [entry])
        end
      else mret (Some entries)
  end.

(** [readEntries(numEntries)]; the argument is [None] when it is
    [undefined]. *)
Definition readEntries (fuel : nat) (numEntries : option JsNumber)
  : M (option (list EntryRef)) :=
  match numEntries with
  | None => readEntries_loop fuel None 0 []
  | Some (Integer n) =>
      if negb (0 <=? n)
      then fail "`numEntries` must be a positive integer if provided"
      else readEntries_loop fuel (Some n) 0 []
  | Some _ => fail "`numEntries` must be a positive integer if provided"
  end.

(** What [next] of the iterator answers. *)
Record IteratorResult : Type := {
  ir_value : Result (option EntryRef);
  ir_done : bool;
}.

(** [next] of the iterator of [Symbol.asyncIterator]; the variable
    [exhausted] of the closure is passed in and out. *)
Definition iterator_next (exhausted : bool) (w : World)
  : IteratorResult * bool * World :=
  if exhausted then ({| ir_value := ok None; ir_done := true |}, exhausted, w)
  else
    let '(entryResult, w) := readEntry w in
    match entryResult with
    | err _ => ({| ir_value := entryResult; ir_done := false |}, true, w)
    | ok None => ({| ir_value := entryResult; ir_done := true |}, true, w)
    | ok (Some _) => ({| ir_value := entryResult; ir_done := false |}, exhausted, w)
    end.

(** [for await (const entryResult of zip)] with a body that only
    collects the values: the values met before [done], in order. *)
Fixpoint iterate (fuel : nat) (exhausted : bool) (w : World)
  : option (list (Result (option EntryRef)) * World) :=
  match fuel with
  | O => None
  | S fuel =>
      let '(result, exhausted, w) := iterator_next exhausted w in
      if ir_done result then Some ([], w)
      else
        match iterate fuel exhausted w with
        | Some (values, w) => Some (ir_value result :: values, w)
        | None => None
        end
  end.
End Zip_readEntries.

(** ** The factories (index.ts) *)

(** The argument [inputOptions] of [validateOptions]: falsy, not a
    record, or a record, given by its entries in the order of
    [Object.entries]. *)
Inductive InputOptions : Type :=
| FalsyOptions
| NotARecord
| OptionsRecord (entries : list (string * JsBoolean)).

(** The keys that [options] has. *)
Definition option_keys : list string :=
  ["decodeStrings"; "validateEntrySizes"; "validateFilenames"; "strictFilenames";
   "supportMacArchive"]%string.

(** [Object.hasOwn(options, key)] *)
Definition has_option (key : string) : bool := bool_decide (key ∈ option_keys).

(** [options[key]] and [options[key] = value], for a key that
    [options] has. *)
Definition get_option (key : string) (options : bool * bool * bool * bool * bool) : bool :=
  let '(o_decodeStrings, o_validateEntrySizes, o_validateFilenames,
        o_strictFilenames, o_supportMacArchive) := options in
  if String.eqb key "decodeStrings" then o_decodeStrings
  else if String.eqb key "validateEntrySizes" then o_validateEntrySizes
  else if String.eqb key "validateFilenames" then o_validateFilenames
  else if String.eqb key "strictFilenames" then o_strictFilenames
  else o_supportMacArchive.

Definition set_option (key : string) (value : bool)
    (options : bool * bool * bool * bool * bool) : bool * bool * bool * bool * bool :=
  let '(o_decodeStrings, o_validateEntrySizes, o_validateFilenames,
        o_strictFilenames, o_supportMacArchive) := options in
  if String.eqb key "decodeStrings"
  then (value, o_validateEntrySizes, o_validateFilenames, o_strictFilenames,
        o_supportMacArchive)
  else if String.eqb key "validateEntrySizes"
  then (o_decodeStrings, value, o_validateFilenames, o_strictFilenames,
        o_supportMacArchive)
  else if String.eqb key "validateFilenames"
  then (o_decodeStrings, o_validateEntrySizes, value, o_strictFilenames,
        o_supportMacArchive)
  else if String.eqb key "strictFilenames"
  then (o_decodeStrings, o_validateEntrySizes, o_validateFilenames, value,
        o_supportMacArchive)
  else (o_decodeStrings, o_validateEntrySizes, o_validateFilenames, o_strictFilenames,
        value).

(** The error that [validateOptions] gives for an entry, if any. *)
Definition option_error (entry : string * JsBoolean) : option string :=
  let '(key, value) := entry in
  if negb (has_option key)
  then Some (String.append "Unknown option '" (String.append key "'"))
  else match value with
       | NotBoolean =>
           Some (String.append "`options."
                   (String.append key "` must be a boolean if provided"))
       | Boolean _ => None
       end.

(** The loop over [Object.entries(inputOptions)]. *)
Fixpoint validateOptions_loop (entries : list (string * JsBoolean))
    (options : bool * bool * bool * bool * bool)
  : Result (bool * bool * bool * bool * bool) :=
  match entries with
  | [] => ok options
  | (key, value) :: entries =>
      if negb (has_option key)
      then err (String.append "Unknown option '" (String.append key "'"))
      else match value with
           | NotBoolean =>
               err (String.append "`options."
                      (String.append key "` must be a boolean if provided"))
           | Boolean value => validateOptions_loop entries (set_option key value options)
           end
  end.

Definition validateOptions (inputOptions : InputOptions)
  : Result (bool * bool * bool * bool * bool) :=
  match inputOptions with
  | FalsyOptions => ok default_options
  | NotARecord => err "`options` must be an object if provided"
  | OptionsRecord entries => validateOptions_loop entries default_options
  end.

Section Factories.
Context `{ReaderImpl} `{Platform}.

(** From [reader.open()] to the end of a factory.  The answer is the
    world of the archive made; the reader is given as the call leaves
    it, whatever the answer.  The constructor of [Zip] only stores its
    arguments, so that the world can be made before the reader is
    opened. *)
Definition open_archive (r : Reader) (size : Z)
    (options : bool * bool * bool * bool * bool) : Result World * Reader :=
  match Reader_open {| zip := Zip_new size options; reader := r; store := ∅ |} with
  | (err e, w) => (err e, reader w)
  | (ok _, w) =>
      match init w with
      | (err e, w) => (err e, reader w)
      | (ok _, w) => (ok w, reader w)
      end
  end.

(** [fromReader(reader, size, options)] *)
Definition fromReader (r : Reader) (size : JsNumber) (inputOptions : InputOptions)
  : Result World * Reader :=
  match size with
  | Integer size =>
      if negb (0 <? size) then (err "`size` must be a positive integer", r) else
      match validateOptions inputOptions with
      | err e => (err e, r)
      | ok options => open_archive r size options
      end
  | _ => (err "`size` must be a positive integer", r)
  end.
End Factories.

(** [fromBuffer(buffer, options)]: the reader is a new [BufferReader]. *)
Definition fromBuffer `{Platform} (buffer : Buffer) (inputOptions : InputOptions)
  : Result World * Reader :=
  match validateOptions inputOptions with
  | err e => (err e, Reader_new)
  | ok options =>
      @open_archive (BufferReader buffer) _ Reader_new (buf_length buffer) options
  end.

(** [m] keeps a property of the world, however it ends. *)
Definition wpreserves {A} (Iw : World -> Prop) (m : M A) : Prop :=
  forall w, Iw w -> wp m (fun _ w' => Iw w') Iw w.

(** The reader and the entries are those of [w0]. *)
Definition same_reader (w0 w : World) : Prop :=
  reader w = reader w0 /\ store w = store w0.

(** ** Further readers and entries *)

(** reader.ts, class [FileReader], for a path that [fse.open] refuses
    with [error]: the descriptor [fd] stays [null], so that [_read] and
    [_createReadStream], which are those of [FdReader], and [_close]
    answer that it is not open. *)
Definition FileReader_unopened (error : string) : ReaderImpl :=
  {| _read := fun _ _ => err "File descriptor not open";
     _createReadStream := fun _ _ => err "File descriptor not open";
     _open := err error;
     _close := err "File descriptor not open" |}.

(** Such a reader after the one call of [open], which has failed. *)
Definition unopened_file_reader : ReaderState :=
  {| rs_world :=
       {| zip := Zip_new 276 default_options;
          reader := {| _isOpen := true; _readCount := 0; isEnded := [] |};
          store := ∅ |};
     rs_reads := 0 |}.

(** An entry as the directory gives it, whose name is the bytes of
    [../x]. *)
Definition unsafe_named : EntryProperties :=
  {| filename := Raw ["."; "."; "/"; "x"]%byte;
     compressedSize := 0;
     uncompressedSize := 0;
     uncompressedSizeIsCertain := true;
     compressionMethod := 0;
     fileHeaderOffset := 0;
     fileDataOffset := None;
     isZip64 := false;
     crc32 := 0;
     lastModTime := 0;
     lastModDate := 0;
     comment := Raw [];
     extraFields := [];
     versionMadeBy := 20;
     versionNeededToExtract := 20;
     generalPurposeBitFlag := 0;
     internalFileAttributes := 0;
     externalFileAttributes := 0;
     filenameLength := 4;
     entryEnd := 50 |}.

(** A stored, encrypted entry of 5 bytes whose data take
    [compressedSize_] bytes. *)
Definition encrypted_stored (compressedSize_ : Z) : EntryProperties :=
  {| filename := Raw ["s"]%byte;
     compressedSize := compressedSize_;
     uncompressedSize := 5;
     uncompressedSizeIsCertain := true;
     compressionMethod := 0;
     fileHeaderOffset := 0;
     fileDataOffset := None;
     isZip64 := false;
     crc32 := 0;
     lastModTime := 0;
     lastModDate := 0;
     comment := Raw [];
     extraFields := [];
     versionMadeBy := 20;
     versionNeededToExtract := 20;
     generalPurposeBitFlag := 1;
     internalFileAttributes := 0;
     externalFileAttributes := 0;
     filenameLength := 1;
     entryEnd := 47 |}.

(** [{ decrypt: false, validateCrc32: false, start: 2, end: 5 }] *)
Definition section_options : OpenReadStreamOptions :=
  {| opt_decompress := NotBoolean; opt_decrypt := Boolean false;
     opt_validateCrc32 := Boolean false; opt_start := Integer 2; opt_end := Integer 5 |}.

(** The stream that [createReadStream(start, length)] of the reader
    answers when it succeeds: an empty stream for a length of 0, and
    what [_createReadStream] makes otherwise. *)
Definition stream_of_range `{ReaderImpl} (start length : Z) (stream : Stream) : Prop :=
  if length =? 0 then stream = PassThrough
  else _createReadStream start length = ok stream.

(** * Properties *)

(** ** DOS dates *)

Lemma toInt32_range x : - 2 ^ 31 <= toInt32 x < 2 ^ 31.
Proof. unfold toInt32. pose proof (Z.mod_pos_bound (x + 2 ^ 31) (2 ^ 32)). lia. Qed.

Lemma toInt32_small x : - 2 ^ 31 <= x < 2 ^ 31 -> toInt32 x = x.
Proof. intros Hx. unfold toInt32. rewrite Z.mod_small; lia. Qed.

Lemma toInt32_congr x : exists q, toInt32 x = x + 2 ^ 32 * q.
Proof.
  exists (- ((x + 2 ^ 31) / 2 ^ 32)). unfold toInt32.
  pose proof (Z.div_mod (x + 2 ^ 31) (2 ^ 32)). lia.
Qed.

(** A field of [k] bits starting at bit [lo], read the JavaScript way. *)
Lemma js_field x lo k :
  0 <= lo -> 0 < k -> lo + k <= 31 ->
  js_and (js_sar x lo) (2 ^ k - 1) = bits lo (lo + k - 1) x.
Proof.
  intros Hlo Hk Hle. unfold js_and, js_sar, bits.
  replace (lo + k - 1 - lo + 1) with k by lia.
  rewrite (Z.mod_small lo 32) by lia.
  rewrite Z.shiftr_div_pow2 by lia.
  assert (Hpow : 0 < 2 ^ lo) by (apply Z.pow_pos_nonneg; lia).
  assert (Hk31 : 2 ^ k <= 2 ^ 31) by (apply Z.pow_le_mono_r; lia).
  assert (Hkpos : 0 < 2 ^ k) by (apply Z.pow_pos_nonneg; lia).
  pose proof (toInt32_range x) as Hr.
  assert (Hq : - 2 ^ 31 <= toInt32 x / 2 ^ lo < 2 ^ 31).
  { split.
    - apply Z.div_le_lower_bound; [lia|]. nia.
    - apply Z.div_lt_upper_bound; [lia|]. nia. }
  rewrite (toInt32_small (toInt32 x / 2 ^ lo)) by exact Hq.
  rewrite (toInt32_small (2 ^ k - 1)) by lia.
  replace (2 ^ k - 1) with (Z.ones k) by (rewrite Z.ones_equiv; lia).
  rewrite Z.land_ones by lia.
  destruct (toInt32_congr x) as [q ->].
  replace (2 ^ 32) with (2 ^ lo * 2 ^ k * 2 ^ (32 - lo - k)).
  2:{ rewrite <- !Z.pow_add_r by lia. f_equal. lia. }
  replace (x + 2 ^ lo * 2 ^ k * 2 ^ (32 - lo - k) * q)
    with (x + (2 ^ k * 2 ^ (32 - lo - k) * q) * 2 ^ lo) by lia.
  rewrite Z.div_add by lia.
  replace (x / 2 ^ lo + 2 ^ k * 2 ^ (32 - lo - k) * q)
    with (x / 2 ^ lo + (2 ^ (32 - lo - k) * q) * 2 ^ k) by lia.
  apply Z.mod_add. lia.
Qed.

Lemma js_field0 x k : 0 < k -> k <= 31 -> js_and x (2 ^ k - 1) = bits 0 (k - 1) x.
Proof.
  intros Hk Hle. unfold js_and, bits.
  replace (k - 1 - 0 + 1) with k by lia.
  assert (Hk31 : 2 ^ k <= 2 ^ 31) by (apply Z.pow_le_mono_r; lia).
  assert (Hkpos : 0 < 2 ^ k) by (apply Z.pow_pos_nonneg; lia).
  rewrite (toInt32_small (2 ^ k - 1)) by lia.
  replace (2 ^ k - 1) with (Z.ones k) by (rewrite Z.ones_equiv; lia).
  rewrite Z.land_ones by lia.
  destruct (toInt32_congr x) as [q ->].
  replace (2 ^ 32) with (2 ^ (32 - k) * 2 ^ k).
  2:{ rewrite <- Z.pow_add_r by lia. f_equal. lia. }
  rewrite Z.pow_0_r, Z.div_1_r.
  replace (x + 2 ^ (32 - k) * 2 ^ k * q) with (x + (2 ^ (32 - k) * q) * 2 ^ k) by lia.
  apply Z.mod_add. lia.
Qed.

(** The bits of a field are the bits of the number, shifted. *)
Lemma bits_testbit lo hi x i :
  0 <= lo -> lo <= hi -> 0 <= i ->
  Z.testbit (bits lo hi x) i = Z.testbit x (lo + i) && (i <=? hi - lo).
Proof.
  intros Hlo Hhi Hi. unfold bits.
  destruct (Z.leb_spec i (hi - lo)).
  - rewrite Z.mod_pow2_bits_low by lia.
    rewrite Z.div_pow2_bits by lia. rewrite andb_true_r. f_equal. lia.
  - rewrite Z.mod_pow2_bits_high by lia. now rewrite andb_false_r.
Qed.

(** C9: [getLastModified] decodes the DOS date and time of the entry
    into the UTC time stamp whose day is bits 0-4 of the date, month is
    bits 5-8 minus 1, year is bits 9-15 plus 1980, second is
    [(time & 0x1F) * 2], minute is bits 5-10 and hour is bits 11-15 of the
    time, with 0 milliseconds. *)
Theorem getLastModified_decodes_dos_fields (e : EntryProperties) :
  getLastModified e =
    Date_UTC (bits 9 15 (lastModDate e) + 1980)
             (bits 5 8 (lastModDate e) - 1)
             (bits 0 4 (lastModDate e))
             (bits 11 15 (lastModTime e))
             (bits 5 10 (lastModTime e))
             (Z.land (lastModTime e) 0x1F * 2)
             0.
Proof.
  unfold getLastModified, dosDateTimeToDate.
  pose proof (js_field (lastModDate e) 9 7) as Hy.
  pose proof (js_field (lastModDate e) 5 4) as Hm.
  pose proof (js_field0 (lastModDate e) 5) as Hd.
  pose proof (js_field (lastModTime e) 11 5) as Hh.
  pose proof (js_field (lastModTime e) 5 6) as Hmi.
  pose proof (js_field0 (lastModTime e) 5) as Hs.
  change (2 ^ 7 - 1) with 127 in Hy. change (2 ^ 4 - 1) with 15 in Hm.
  change (2 ^ 5 - 1) with 31 in Hd, Hh, Hs. change (2 ^ 6 - 1) with 63 in Hmi.
  rewrite Hy, Hm, Hd, Hh, Hmi, Hs by lia.
  replace (Z.land (lastModTime e) 31) with (bits 0 (5 - 1) (lastModTime e)).
  - reflexivity.
  - unfold bits. change 31 with (Z.ones 5). rewrite Z.land_ones by lia.
    rewrite Z.pow_0_r, Z.div_1_r. reflexivity.
Qed.

(** ** The Mac entry signature *)

Lemma endsWithSlash_spec f : endsWithSlash f = true <-> ends_with_slash f.
Proof.
  unfold endsWithSlash, ends_with_slash. destruct f as [b|s].
  - rewrite bool_decide_eq_true. split.
    + intros Hb. now exists b.
    + intros (b' & Heq & Hb). now inversion Heq; subst.
  - split; [discriminate|]. intros (b & Heq & _). discriminate.
Qed.

Lemma endsWithSlash_false f : endsWithSlash f = false <-> ~ ends_with_slash f.
Proof.
  rewrite <- endsWithSlash_spec. destruct (endsWithSlash f); split; intros; congruence.
Qed.

(** The last check of [entryMaybeMac]. *)
Lemma extraFieldCheck_spec (e : EntryProperties) :
  match extraFields e !! 0%nat with
  | Some field0 =>
      if negb (Z.of_nat (length (extraFields e)) =? 1)
         || negb (ef_id field0 =? MAC_CDH_EXTRA_FIELD_ID)
         || negb (buf_length (ef_data field0) =? MAC_CDH_EXTRA_FIELD_LENGTH)
      then false else true
  | None => false
  end = true <-> one_mac_extra_field e.
Proof.
  unfold one_mac_extra_field, MAC_CDH_EXTRA_FIELD_ID, MAC_CDH_EXTRA_FIELD_LENGTH.
  destruct (extraFields e) as [|f [|g l]]; simpl.
  - split; [discriminate|]. intros (f & Hf & _). discriminate.
  - destruct (Z.eqb_spec (ef_id f) 22613), (Z.eqb_spec (buf_length (ef_data f)) 8);
      simpl; split; try discriminate; try (intros _; exists f; tauto);
      intros (f' & Hf & Hid & Hlen); inversion Hf; subst; congruence.
  - split.
    + destruct (Pos.of_succ_nat (length l)); simpl; discriminate.
    + intros (f' & Hf & _). discriminate.
Qed.

Ltac close_false := split; [discriminate | intuition (try lia; try congruence)].
Ltac close_true :=
  split; [intros _; intuition (try lia; try congruence) | reflexivity].

Lemma entryMaybeMac_spec (e : EntryProperties) :
  entryMaybeMac e = true <-> mac_signature e.
Proof.
  unfold entryMaybeMac, mac_signature, mac_common, mac_normal_file, mac_stored,
    mac_symlink_shape.
  pose proof (extraFieldCheck_spec e) as Hx.
  assert (Hlen : Z.of_nat (length (extraFields e)) = 0 <-> extraFields e = []).
  { destruct (extraFields e); simpl; split; intros; try congruence; lia. }
  assert (Hone : one_mac_extra_field e -> extraFields e <> []).
  { intros (f & -> & _). discriminate. }
  assert (Hc0 : text_length (comment e) <= 0 -> text_length (comment e) = 0).
  { destruct (comment e); simpl; unfold buf_length; lia. }
  assert (Hsl : if endsWithSlash (filename e) then ends_with_slash (filename e)
                else ~ ends_with_slash (filename e)).
  { destruct (endsWithSlash (filename e)) eqn:E;
      [apply endsWithSlash_spec | apply endsWithSlash_false]; exact E. }
  destruct (Z.eqb_spec (versionMadeBy e) 789); cbn [negb]; [|close_false].
  destruct (Z.gtb_spec (text_length (comment e)) 0); [close_false|].
  destruct (isZip64 e); [close_false|].
  destruct (Z.eqb_spec (versionNeededToExtract e) 20).
  - destruct (Z.eqb_spec (generalPurposeBitFlag e) 8); cbn [negb orb]; [|close_false].
    destruct (Z.eqb_spec (compressionMethod e) 8); cbn [negb orb]; [|close_false].
    destruct (endsWithSlash (filename e)); [close_false|].
    rewrite Hx. intuition (try lia; try congruence).
  - destruct (Z.eqb_spec (versionNeededToExtract e) 10); [|close_false].
    destruct (Z.eqb_spec (generalPurposeBitFlag e) 0); cbn [negb orb]; [|close_false].
    destruct (Z.eqb_spec (compressionMethod e) 0); cbn [negb orb]; [|close_false].
    destruct (Z.eqb_spec (uncompressedSize e) (compressedSize e));
      cbn [negb orb]; [|close_false].
    destruct (Z.eqb_spec (Z.of_nat (length (extraFields e))) 0).
    + destruct (Z.eqb_spec (compressedSize e) 0); cbn [orb]; [close_false|].
      destruct (endsWithSlash (filename e)); [close_false|close_true].
    + destruct (Z.eqb_spec (compressedSize e) 0); cbn [negb orb]; [|close_false].
      destruct (Z.eqb_spec (crc32 e) 0); cbn [negb orb]; [|close_false].
      rewrite Hx. intuition (try lia; try congruence).
Qed.

(** C4, as amended: [entryMaybeMac] holds exactly for the entries made
    by version 789, without comment and without ZIP64 markers, that are
    either a normal file (needs version 20, flags 8, method 8, no
    trailing slash) or a stored entry (needs version 10, flags 0, method
    0, equal sizes) that is a symlink (no extra field, nonzero size, no
    trailing slash) or a folder or empty file (size 0 and CRC32 0), and
    that, unless a symlink, have exactly one extra field, of id 22613 and
    length 8; [firstEntryMaybeMac] asks in addition for a header offset
    of 0. *)
Theorem entryMaybeMac_iff_signature (e : EntryProperties) :
  (entryMaybeMac e = true <-> mac_signature e)
  /\ (firstEntryMaybeMac e = true <-> fileHeaderOffset e = 0 /\ mac_signature e).
Proof.
  split; [apply entryMaybeMac_spec|].
  unfold firstEntryMaybeMac. rewrite <- entryMaybeMac_spec.
  destruct (Z.eqb_spec (fileHeaderOffset e) 0); simpl; intuition congruence.
Qed.

(** C4, as claimed, fails: a folder entry with a nonzero CRC32 has the
    claimed signature and is refused by the code. *)
Lemma entryMaybeMac_claimed_counterexample :
  mac_signature_claimed folder_with_crc /\ entryMaybeMac folder_with_crc = false.
Proof.
  split; [|reflexivity].
  unfold mac_signature_claimed, mac_common, mac_stored_claimed.
  split; [repeat split; reflexivity|].
  split; [right; repeat split; try reflexivity; right; reflexivity|].
  intros _. eexists. simpl. repeat split; reflexivity.
Qed.

(** ** Entry counts *)

Lemma land_pow2 x n :
  0 <= n -> Z.land x (2 ^ n) = if Z.testbit x n then 2 ^ n else 0.
Proof.
  intros Hn. apply Z.bits_inj'. intros i Hi.
  rewrite Z.land_spec, Z.pow2_bits_eqb by lia.
  destruct (Z.eqb_spec n i) as [->|Hne].
  - rewrite andb_true_r. destruct (Z.testbit x i) eqn:E.
    + now rewrite Z.pow2_bits_true.
    + now rewrite Z.bits_0.
  - rewrite andb_false_r. destruct (Z.testbit x n).
    + now rewrite Z.pow2_bits_false.
    + now rewrite Z.bits_0.
Qed.

Lemma toInt32_testbit x i : 0 <= i < 32 -> Z.testbit (toInt32 x) i = Z.testbit x i.
Proof.
  intros Hi. destruct (toInt32_congr x) as [q ->].
  rewrite <- (Z.mod_pow2_bits_low (x + 2 ^ 32 * q) 32 i) by lia.
  rewrite <- (Z.mod_pow2_bits_low x 32 i) by lia.
  f_equal. rewrite Z.mul_comm. apply Z.mod_add. lia.
Qed.

(** [x & 0x10000] is bit 16 of [x]: either 0 or 65536. *)
Lemma js_and_bit16 x : js_and x 0x10000 = if Z.testbit x 16 then 65536 else 0.
Proof.
  unfold js_and. rewrite (toInt32_small 65536) by lia.
  change 65536 with (2 ^ 16). rewrite land_pow2 by lia.
  now rewrite toInt32_testbit by lia.
Qed.

Lemma js_and_bit16_land x : js_and x 0x10000 = Z.land x 0x10000.
Proof. rewrite js_and_bit16. change 65536 with (2 ^ 16). now rewrite land_pow2 by lia. Qed.

Lemma recalculateEntryCount_unchanged numEntriesRead entryCursor z :
  (num (entryCount z) - numEntriesRead)
    * (if isMacArchive z then CDH_MAX_LENGTH_MAC else CDH_MAX_LENGTH)
  >= num (centralDirectoryOffset z) + num (centralDirectorySize z) - entryCursor ->
  _recalculateEntryCount numEntriesRead entryCursor z = (false, z).
Proof.
  intros Hge. unfold _recalculateEntryCount.
  destruct (Z.geb_spec
    ((num (entryCount z) - numEntriesRead)
       * (if isMacArchive z then CDH_MAX_LENGTH_MAC else CDH_MAX_LENGTH))
    (num (centralDirectoryOffset z) + num (centralDirectorySize z) - entryCursor));
    [reflexivity | lia].
Qed.

Lemma recalculateEntryCount_raised numEntriesRead entryCursor z :
  (num (entryCount z) - numEntriesRead)
    * (if isMacArchive z then CDH_MAX_LENGTH_MAC else CDH_MAX_LENGTH)
  < num (centralDirectoryOffset z) + num (centralDirectorySize z) - entryCursor ->
  _recalculateEntryCount numEntriesRead entryCursor z =
    (true,
     with_entryCount
       (Some (num (entryCount z)
              + Z.land (ceil_div (num (centralDirectoryOffset z)
                                  + num (centralDirectorySize z) - entryCursor)
                                 CDH_MAX_LENGTH_MAC
                        - (num (entryCount z) - numEntriesRead) + 65535) 0x10000)) z).
Proof.
  intros Hlt. unfold _recalculateEntryCount.
  destruct (Z.geb_spec
    ((num (entryCount z) - numEntriesRead)
       * (if isMacArchive z then CDH_MAX_LENGTH_MAC else CDH_MAX_LENGTH))
    (num (centralDirectoryOffset z) + num (centralDirectorySize z) - entryCursor));
    [lia|].
  now rewrite js_and_bit16_land.
Qed.

(** While at most 65536 entries are missing, the increment is 65536, the
    smallest multiple that reconciles. *)
Lemma increment_small_gap need :
  1 <= need <= 65536 ->
  js_and (need + 0xFFFF) 0x10000 = 65536 /\ smallest_multiple_reaching need 65536.
Proof.
  intros Hn. split.
  - rewrite js_and_bit16.
    assert (Hb : Z.testbit (need + 65535) 16 = true).
    { apply Z.testbit_true; [lia|]. change (2 ^ 16) with 65536.
      assert ((need + 65535) / 65536 = 1) as ->; [|reflexivity].
      symmetry. apply Z.div_unique with (r := need - 1); lia. }
    now rewrite Hb.
  - unfold smallest_multiple_reaching. repeat split; try lia.
    + exists 1. lia.
    + intros m Hm [k ->] _. lia.
Qed.

(** C3, at a failing input: the directory of [zip_grown_directory] needs
    at least 130959 entries, 130958 more than the one declared, so the
    smallest multiple of 65536 that reconciles is 131072; the code
    answers [true] and adds [(130958 + 65535) & 0x10000 = 0]. *)
Theorem recalculateEntryCount_misses_large_gap :
  let z := zip_grown_directory in
  let minEntriesRemaining :=
    ceil_div (num (centralDirectoryOffset z) + num (centralDirectorySize z) - 0)
             CDH_MAX_LENGTH_MAC in
  let need := minEntriesRemaining - (num (entryCount z) - 0) in
  need = 130958
  /\ smallest_multiple_reaching need 131072
  /\ _recalculateEntryCount 0 0 z = (true, with_entryCount (Some (1 + 0)) z)
  /\ entryCount (snd (_recalculateEntryCount 0 0 z)) = Some 1.
Proof.
  cbv zeta. split; [reflexivity|]. split; [|split; reflexivity].
  change (ceil_div _ _ - _) with 130958.
  unfold smallest_multiple_reaching. repeat split; try lia.
  - exists 2. lia.
  - intros m Hm [k ->] Hk. lia.
Qed.

(** ** Locating the End of Central Directory Record *)

Lemma u8_range b : 0 <= u8 b < 256.
Proof. unfold u8. pose proof (Byte.to_N_bounded b). lia. Qed.

Lemma byte_at_range buffer i : 0 <= byte_at buffer i < 256.
Proof.
  unfold byte_at, buf_at. destruct (i <? 0); simpl; [lia|].
  destruct (buffer !! Z.to_nat i); simpl; [apply u8_range | lia].
Qed.

Lemma byte_at_nonzero buffer i v :
  byte_at buffer i = v -> v <> 0 -> buf_at buffer i = Some v.
Proof.
  unfold byte_at. destruct (buf_at buffer i); simpl; intros; [congruence | lia].
Qed.

Lemma readUInt16LE_range buffer i : 0 <= readUInt16LE buffer i < 65536.
Proof.
  unfold readUInt16LE.
  pose proof (byte_at_range buffer i). pose proof (byte_at_range buffer (i + 1)). lia.
Qed.

Lemma readUInt32LE_range buffer i : 0 <= readUInt32LE buffer i < FOUR_GIB.
Proof.
  unfold readUInt32LE, FOUR_GIB.
  pose proof (byte_at_range buffer i). pose proof (byte_at_range buffer (i + 1)).
  pose proof (byte_at_range buffer (i + 2)). pose proof (byte_at_range buffer (i + 3)).
  lia.
Qed.

(** The signature starts with the byte that the loop tests first. *)
Lemma signature_first_byte buffer p :
  readUInt32LE buffer p = 0x06054B50 -> buf_at buffer p = Some 0x50.
Proof.
  intros Hsig. apply byte_at_nonzero; [|lia].
  unfold readUInt32LE in Hsig.
  pose proof (byte_at_range buffer p). pose proof (byte_at_range buffer (p + 1)).
  pose proof (byte_at_range buffer (p + 2)). pose proof (byte_at_range buffer (p + 3)).
  lia.
Qed.

(** One round of the loop accepts exactly the accepted positions. *)
Lemma eocdr_scan_unfold buffer bufferSize position :
  eocdr_scan buffer bufferSize position =
    if bool_decide (eocdr_accepted buffer bufferSize (Z.of_nat position))
    then Some (Z.of_nat position)
    else match position with
         | O => None
         | S position' => eocdr_scan buffer bufferSize position'
         end.
Proof.
  set (continue := match position with
                   | O => None
                   | S position' => eocdr_scan buffer bufferSize position'
                   end).
  assert (eocdr_scan buffer bufferSize position =
    if negb (bool_decide (buf_at buffer (Z.of_nat position) = Some 0x50)) then continue
    else if negb (readUInt32LE buffer (Z.of_nat position) =? 0x06054B50) then continue
    else if readUInt16LE buffer (Z.of_nat position + 20)
            =? bufferSize - Z.of_nat position - EOCDR_WITHOUT_COMMENT_SIZE
         then Some (Z.of_nat position) else continue) as ->
    by (destruct position; reflexivity).
  generalize (Z.of_nat position). intros p. unfold eocdr_accepted.
  destruct (decide (readUInt32LE buffer p = 0x06054B50)) as [Hsig|Hsig].
  - rewrite (signature_first_byte _ _ Hsig), bool_decide_eq_true_2 by reflexivity.
    cbn [negb]. rewrite Hsig. cbn [negb Z.eqb Pos.eqb].
    destruct (Z.eqb_spec (readUInt16LE buffer (p + 20))
                (bufferSize - p - EOCDR_WITHOUT_COMMENT_SIZE)) as [Hlen|Hlen].
    + now rewrite bool_decide_eq_true_2.
    + rewrite bool_decide_eq_false_2 by tauto. reflexivity.
  - rewrite (bool_decide_eq_false_2 (_ /\ _)) by tauto.
    destruct (bool_decide (buf_at buffer p = Some 80)); cbn [negb]; [|reflexivity].
    destruct (Z.eqb_spec (readUInt32LE buffer p) 0x06054B50); [contradiction|].
    reflexivity.
Qed.

Lemma eocdr_scan_spec buffer bufferSize position :
  match eocdr_scan buffer bufferSize position with
  | Some p =>
      0 <= p <= Z.of_nat position /\ eocdr_accepted buffer bufferSize p
      /\ forall q, p < q <= Z.of_nat position -> ~ eocdr_accepted buffer bufferSize q
  | None => forall q, 0 <= q <= Z.of_nat position -> ~ eocdr_accepted buffer bufferSize q
  end.
Proof.
  induction position as [|n IH]; rewrite eocdr_scan_unfold; case_bool_decide as Hacc.
  - split; [lia|]. split; [exact Hacc|]. intros q Hq. lia.
  - intros q Hq. replace q with (Z.of_nat 0) by lia. exact Hacc.
  - split; [lia|]. split; [exact Hacc|]. intros q Hq. lia.
  - destruct (eocdr_scan buffer bufferSize n) as [p|].
    + destruct IH as (Hp & Hpa & Hmax). split; [lia|]. split; [exact Hpa|].
      intros q Hq. destruct (decide (q = Z.of_nat (S n))) as [->|]; [exact Hacc|].
      apply Hmax. lia.
    + intros q Hq. destruct (decide (q = Z.of_nat (S n))) as [->|]; [exact Hacc|].
      apply IH. lia.
Qed.

(** An accepted position leaves room for the 22 bytes of the record. *)
Lemma eocdr_accepted_room buffer bufferSize p :
  eocdr_accepted buffer bufferSize p -> p <= bufferSize - EOCDR_WITHOUT_COMMENT_SIZE.
Proof.
  intros [_ Hlen]. pose proof (readUInt16LE_range buffer (p + 20)). lia.
Qed.

Lemma with_reader_id w : with_reader (reader w) w = w.
Proof. now destruct w. Qed.

(** A read that runs to completion leaves the world as it was. *)
Lemma Reader_read_open `{ReaderImpl} start length w :
  _isOpen (reader w) = true -> length <> 0 ->
  Reader_read start length w = (_read start length, w).
Proof.
  intros Hopen Hlen. unfold Reader_read, Reader_read_begin, Reader_read_settle.
  unfold mbind, M_bind. rewrite Hopen. cbn [negb].
  destruct (Z.eqb_spec length 0); [contradiction|].
  f_equal. destruct w as [z [o c l] st]. unfold with_reader, with_readCount. cbn.
  do 2 f_equal. lia.
Qed.

Lemma Reader_read_zip `{ReaderImpl} start length w :
  zip (snd (Reader_read start length w)) = zip w
  /\ store (snd (Reader_read start length w)) = store w.
Proof.
  unfold Reader_read, Reader_read_begin, Reader_read_settle, mbind, M_bind.
  destruct (_isOpen (reader w)); cbn [negb]; [|now split].
  destruct (length =? 0); now split.
Qed.

(** ** Running computations *)

Lemma bind_run {A B} (m : M A) (f : A -> M B) w :
  (m ≫= f) w =
    match m w with
    | (ok a, w') => f a w'
    | (err e, w') => (err e, w')
    end.
Proof. reflexivity. Qed.

Lemma bind_get_zip {B} (f : Zip -> M B) w : (get_zip ≫= f) w = f (zip w) w.
Proof. reflexivity. Qed.

Lemma bind_update_zip {B} (g : Zip -> Zip) (f : unit -> M B) w :
  (update_zip g ≫= f) w = f tt (with_zip (g (zip w)) w).
Proof. reflexivity. Qed.

Lemma bind_update_world {B} (g : World -> World) (f : unit -> M B) w :
  (update_world g ≫= f) w = f tt (g w).
Proof. reflexivity. Qed.

Lemma bind_mret {A B} (a : A) (f : A -> M B) w : (mret a ≫= f) w = f a w.
Proof. reflexivity. Qed.

Lemma bind_fail {A B} (e : string) (f : A -> M B) w : (fail e ≫= f) w = (err e, w).
Proof. reflexivity. Qed.

Lemma bind_lift {A B} (r : Result A) (f : A -> M B) w :
  (lift r ≫= f) w = match r with ok a => f a w | err e => (err e, w) end.
Proof. now destruct r. Qed.

Lemma mret_run {A} (a : A) w : mret (M := M) a w = (ok a, w).
Proof. reflexivity. Qed.

Lemma fail_run {A} (e : string) w : fail (A := A) e w = (err e, w).
Proof. reflexivity. Qed.

Ltac mstep :=
  first [ rewrite bind_get_zip | rewrite bind_update_zip | rewrite bind_update_world
        | rewrite bind_mret | rewrite bind_fail | rewrite bind_lift ].
Ltac msimpl := repeat mstep.
Lemma locateEocdr_run `{ReaderImpl} (w : World) buffer :
  22 <= zip_size (zip w) ->
  _isOpen (reader w) = true ->
  _read (zip_size (zip w) - eocdr_window_size (zip_size (zip w)))
        (eocdr_window_size (zip_size (zip w))) = ok buffer ->
  _locateEocdr w =
    match eocdr_scan buffer (eocdr_window_size (zip_size (zip w)))
            (Z.to_nat (eocdr_window_size (zip_size (zip w)) - 22)) with
    | Some p =>
        (ok (subarray_from buffer p),
         with_zip (with_footerOffset
                     (Some (zip_size (zip w) - eocdr_window_size (zip_size (zip w)) + p))
                     (zip w)) w)
    | None => (err "End of Central Directory Record not found", w)
    end.
Proof.
  intros Hsize Hopen Hread. unfold _locateEocdr. msimpl.
  unfold eocdr_window_size, EOCDR_WITHOUT_COMMENT_SIZE, MAX_EOCDR_COMMENT_SIZE in *.
  destruct (Z.ltb_spec (zip_size (zip w)) 22) as [|_]; [lia|].
  rewrite andb_false_r.
  assert (Hmin : (if zip_size (zip w) <? 22 + 65535 then zip_size (zip w)
                  else 22 + 65535) = Z.min (zip_size (zip w)) (22 + 65535)).
  { destruct (Z.ltb_spec (zip_size (zip w)) (22 + 65535)); lia. }
  rewrite Hmin.
  rewrite bind_run, Reader_read_open by (auto; lia). rewrite Hread.
  destruct (eocdr_scan _ _ _); reflexivity.
Qed.

(** C5: the locator reads the last [min(size, 22 + 65535)] bytes and
    accepts the largest position of that window that carries the
    signature 0x06054B50 and whose 16-bit comment length, at [p + 20],
    equals [windowEnd - p - 22]: it records the absolute offset of [p] as
    [footerOffset] and returns the buffer from [p] on.  When there is no
    such position, or the archive has fewer than 22 bytes, it fails with
    "End of Central Directory Record not found". *)
Theorem locateEocdr_accepts_last_record `{ReaderImpl} (w : World) :
  (zip_size (zip w) < 22 ->
   _locateEocdr w = (err "End of Central Directory Record not found", w))
  /\ (forall buffer bufferSize,
        22 <= zip_size (zip w) ->
        bufferSize = eocdr_window_size (zip_size (zip w)) ->
        _isOpen (reader w) = true ->
        _read (zip_size (zip w) - bufferSize) bufferSize = ok buffer ->
        (forall p,
           0 <= p < bufferSize ->
           eocdr_accepted buffer bufferSize p ->
           (forall q, p < q < bufferSize -> ~ eocdr_accepted buffer bufferSize q) ->
           _locateEocdr w =
             (ok (subarray_from buffer p),
              with_zip (with_footerOffset (Some (zip_size (zip w) - bufferSize + p))
                          (zip w)) w))
        /\ ((forall p, 0 <= p < bufferSize -> ~ eocdr_accepted buffer bufferSize p) ->
            _locateEocdr w = (err "End of Central Directory Record not found", w))).
Proof.
  split.
  - intros Hsize. unfold _locateEocdr. msimpl.
    unfold EOCDR_WITHOUT_COMMENT_SIZE, MAX_EOCDR_COMMENT_SIZE.
    destruct (Z.ltb_spec (zip_size (zip w)) (22 + 65535)); [|lia].
    destruct (Z.ltb_spec (zip_size (zip w)) 22); [|lia]. reflexivity.
  - intros buffer bufferSize Hsize -> Hopen Hread.
    rewrite (locateEocdr_run w buffer Hsize Hopen Hread).
    set (bufferSize := eocdr_window_size (zip_size (zip w))) in *.
    assert (Hbs : 22 <= bufferSize).
    { unfold bufferSize, eocdr_window_size, EOCDR_WITHOUT_COMMENT_SIZE,
        MAX_EOCDR_COMMENT_SIZE. lia. }
    pose proof (eocdr_scan_spec buffer bufferSize (Z.to_nat (bufferSize - 22))) as Hscan.
    rewrite Z2Nat.id in Hscan by lia.
    destruct (eocdr_scan buffer bufferSize (Z.to_nat (bufferSize - 22))) as [p'|].
    + destruct Hscan as (Hp' & Hacc' & Hmax'). split.
      * intros p Hp Hacc Hmax.
        pose proof (eocdr_accepted_room _ _ _ Hacc) as Hroom.
        unfold EOCDR_WITHOUT_COMMENT_SIZE in Hroom.
        assert (p = p') as ->.
        { destruct (Z.lt_trichotomy p p') as [Hlt|[Heq|Hgt]]; [|exact Heq|].
          - exfalso. apply (Hmax p'); [lia | exact Hacc'].
          - exfalso. apply (Hmax' p); [lia | exact Hacc]. }
        reflexivity.
      * intros Hnone. exfalso. apply (Hnone p'); [lia | exact Hacc'].
    + split.
      * intros p Hp Hacc _. exfalso.
        pose proof (eocdr_accepted_room _ _ _ Hacc) as Hroom.
        unfold EOCDR_WITHOUT_COMMENT_SIZE in Hroom.
        apply (Hscan p); [lia | exact Hacc].
      * intros _. reflexivity.
Qed.

(** The lone record of [empty_archive] is found at position 0. *)
Lemma locateEocdr_accepts_last_record_witness :
  @_locateEocdr (BufferReader empty_archive) (new_world 22 default_options) =
    (ok (subarray_from empty_archive 0),
     with_zip (with_footerOffset (Some (22 - 22 + 0)) (Zip_new 22 default_options))
       (new_world 22 default_options)).
Proof.
  apply (proj2 (@locateEocdr_accepts_last_record (BufferReader empty_archive)
                  (new_world 22 default_options)) empty_archive 22).
  - simpl. lia.
  - reflexivity.
  - reflexivity.
  - reflexivity.
  - lia.
  - split; reflexivity.
  - intros q Hq [_ Hlen].
    pose proof (readUInt16LE_range empty_archive (q + 20)).
    unfold EOCDR_WITHOUT_COMMENT_SIZE in Hlen. lia.
Defined.

(** ** The options of [openReadStream] *)

(** What the settings are when the options are accepted. *)
Lemma resolve_options_ok this o s :
  resolve_options this (Options o) = ok s ->
  decompress s = match opt_decompress o with
                 | Boolean b => b && isCompressed this
                 | NotBoolean => isCompressed this
                 end
  /\ decrypt s = match opt_decrypt o with
                 | Boolean b => b && isEncrypted this
                 | NotBoolean => isEncrypted this
                 end
  /\ validateCrc32 s = match opt_validateCrc32 o with
                       | Boolean b => b
                       | NotBoolean => negb (decompress s)
                       end.
Proof.
  unfold resolve_options. intros Hs.
  set (dc := match opt_decompress o with
             | Boolean b => b && isCompressed this
             | NotBoolean => isCompressed this
             end) in *.
  set (dy := match opt_decrypt o with
             | Boolean b => b && isEncrypted this
             | NotBoolean => isEncrypted this
             end) in *.
  cbv zeta in Hs. unfold mbind at 1, Result_bind at 1 in Hs.
  destruct (match opt_validateCrc32 o with
            | NotBoolean => _ | Boolean b => _ end) as [v|] eqn:Hv; [|discriminate].
  unfold mbind at 1, Result_bind at 1 in Hs.
  destruct (match opt_start o with
            | NotNumber => _ | Integer n => _ | NonInteger => _ end) as [st|];
    [|discriminate].
  unfold mbind at 1, Result_bind at 1 in Hs.
  destruct (match opt_end o with
            | NotNumber => _ | Integer n => _ | NonInteger => _ end) as [en|];
    [|discriminate].
  injection Hs as <-. cbn. split; [reflexivity|]. split; [reflexivity|].
  destruct (opt_validateCrc32 o) as [|b].
  - now injection Hv as <-.
  - destruct (b && dc); [discriminate|]. now injection Hv as <-.
Qed.

Lemma resolve_options_absent this s :
  resolve_options this NoOptions = ok s ->
  decompress s = isCompressed this /\ decrypt s = isEncrypted this
  /\ validateCrc32 s = true.
Proof. cbn. intros [= <-]. auto. Qed.

(** With [validateCrc32] left out of an options object, CRC32 is
    validated exactly when the data is not decompressed. *)
Lemma resolve_options_crc32_default this o s :
  opt_validateCrc32 o = NotBoolean ->
  resolve_options this (Options o) = ok s ->
  validateCrc32 s = negb (decompress s).
Proof.
  intros Ho Hs. destruct (resolve_options_ok _ _ _ Hs) as (_ & _ & Hv).
  now rewrite Ho in Hv.
Qed.

Lemma compose_streams_crc32 v this crc s stream :
  In (ValidateCrc32Stream crc) (compose_streams v this crc s stream)
  <-> validateCrc32 s = true \/ stream = ValidateCrc32Stream crc.
Proof.
  unfold compose_streams.
  destruct (decompress s), v, (validateCrc32 s); cbn;
    intuition (try discriminate; try congruence).
Qed.

Lemma compose_streams_inflate v this crc s stream :
  In InflateRaw (compose_streams v this crc s stream)
  <-> decompress s = true \/ stream = InflateRaw.
Proof.
  unfold compose_streams.
  destruct (decompress s), v, (validateCrc32 s); cbn;
    intuition (try discriminate; try congruence).
Qed.

(** The decrypt option does not count for an entry that is not encrypted. *)
Lemma resolve_options_decrypt_ignored this o b :
  isEncrypted this = false ->
  opt_decrypt o = Boolean b ->
  resolve_options this (Options o)
  = resolve_options this (Options (with_opt_decrypt NotBoolean o)).
Proof.
  intros He Ho. unfold resolve_options. cbn [with_opt_decrypt opt_decompress
    opt_decrypt opt_validateCrc32 opt_start opt_end].
  rewrite Ho, He, andb_false_r. reflexivity.
Qed.

Lemma bind_get_entry {B} this entry (f : Entry -> M B) w :
  store w !! this = Some entry -> (get_entry this ≫= f) w = f entry w.
Proof. intros Hs. rewrite bind_run. unfold get_entry. now rewrite Hs. Qed.

(** C1, as amended: with [decrypt: true] in the options, the call on an
    encrypted entry fails, with "Decryption is not supported" when the
    options are accepted and with the error of the options otherwise,
    and leaves the world as it was; on an entry that is not encrypted the
    option has no effect. *)
Theorem openReadStream_decrypt_true `{ReaderImpl} (w : World) this entry o :
  store w !! this = Some entry ->
  opt_decrypt o = Boolean true ->
  (isEncrypted (props entry) = true ->
   openReadStream this (Options o) w =
     (match resolve_options (props entry) (Options o) with
      | ok _ => err "Decryption is not supported"
      | err e => err e
      end, w))
  /\ (isEncrypted (props entry) = false ->
      openReadStream this (Options o) w
      = openReadStream this (Options (with_opt_decrypt NotBoolean o)) w).
Proof.
  intros Hentry Ho. split; intros He.
  - unfold openReadStream. rewrite (bind_get_entry _ _ _ _ Hentry), bind_lift.
    destruct (resolve_options (props entry) (Options o)) as [s|e] eqn:Hs; [|reflexivity].
    destruct (resolve_options_ok _ _ _ Hs) as (_ & Hd & _).
    rewrite Ho, He in Hd. rewrite bind_lift. unfold check_settings. rewrite Hd.
    reflexivity.
  - unfold openReadStream. rewrite !(bind_get_entry _ _ _ _ Hentry).
    now rewrite (resolve_options_decrypt_ignored _ _ true He Ho).
Qed.

(** On entry [b] of the sample archive, which is encrypted. *)
Lemma openReadStream_decrypt_true_witness :
  @openReadStream (BufferReader sample_archive) 1%nat
     (Options (with_opt_decrypt (Boolean true) no_option)) sample_world
  = (err "Decryption is not supported", sample_world).
Proof.
  destruct (store sample_world !! 1%nat) as [entry|] eqn:Hentry;
    [|vm_compute in Hentry; discriminate].
  assert (He : isEncrypted (props entry) = true).
  { vm_compute in Hentry. injection Hentry as <-. reflexivity. }
  assert (Hr : resolve_options (props entry)
                 (Options (with_opt_decrypt (Boolean true) no_option))
               = ok {| decompress := false; decrypt := true; validateCrc32 := true;
                       start := 0; end_ := 14 |}).
  { vm_compute in Hentry. injection Hentry as <-. reflexivity. }
  pose proof (proj1 (@openReadStream_decrypt_true (BufferReader sample_archive)
                       sample_world 1%nat entry
                       (with_opt_decrypt (Boolean true) no_option)
                       Hentry eq_refl) He) as Hcall.
  rewrite Hr in Hcall. exact Hcall.
Defined.

(** C1, as claimed, fails twice: on entry [a] of the sample archive,
    which is not encrypted, the call with [decrypt: true] succeeds; on
    the encrypted entry [b], a fractional [start] is reported first. *)
Lemma openReadStream_decrypt_true_counterexample :
  fst (@openReadStream (BufferReader sample_archive) 0%nat
         (Options (with_opt_decrypt (Boolean true) no_option)) sample_world)
  = ok [FromReader 31 2; ValidateCrc32Stream 17]
  /\ fst (@openReadStream (BufferReader sample_archive) 1%nat
            (Options (with_opt_start NonInteger
                        (with_opt_decrypt (Boolean true) no_option))) sample_world)
     = err "`options.start` must be a positive integer if provided".
Proof. split; vm_compute; reflexivity. Qed.

(** C2 fails for the call without options: the code then validates the
    CRC32 whatever [decompress] is, and [decompress] is set for every
    compressed entry, while with an options object that leaves
    [validateCrc32] out it validates exactly when it does not
    decompress.  So for the deflated entry [c] of the sample archive
    the call without options decompresses and validates the CRC32 as
    well, where the call with an empty options object decompresses and
    does not. *)
Theorem openReadStream_without_options_validates_crc32 :
  (forall this : EntryProperties,
     exists s, resolve_options this NoOptions = ok s
               /\ decompress s = isCompressed this /\ validateCrc32 s = true)
  /\ (forall this : EntryProperties,
        exists s, resolve_options this (Options no_option) = ok s
                  /\ decompress s = isCompressed this
                  /\ validateCrc32 s = negb (isCompressed this))
  /\ fst (@openReadStream (BufferReader sample_archive) 2%nat NoOptions sample_world)
     = ok [FromReader 109 4; InflateRaw; ValidateUncompressedSizeStream 2%nat;
           ValidateCrc32Stream 51]
  /\ fst (@openReadStream (BufferReader sample_archive) 2%nat (Options no_option)
            sample_world)
     = ok [FromReader 109 4; InflateRaw; ValidateUncompressedSizeStream 2%nat].
Proof.
  split; [|split; [|split]].
  - intros this. eexists. split; [reflexivity|]. split; reflexivity.
  - intros this. eexists. split; [reflexivity|]. split; reflexivity.
  - vm_compute. reflexivity.
  - vm_compute. reflexivity.
Qed.

(** ** The read counter of a reader *)

Lemma live_streams_app r flags :
  live_streams (with_isEnded (isEnded r ++ flags) r)
  = live_streams r + Z.of_nat (length (filter (fun ended => ended = false) flags)).
Proof. unfold live_streams. cbn. rewrite filter_app, length_app. lia. Qed.

Lemma live_streams_insert (l : list bool) i :
  l !! i = Some false ->
  Z.of_nat (length (filter (fun ended => ended = false) (<[i := true]> l)))
  = Z.of_nat (length (filter (fun ended => ended = false) l)) - 1.
Proof.
  revert i. induction l as [|b l IH]; intros [|i] Hi; try discriminate.
  - cbn in Hi. injection Hi as ->.
    change (<[0%nat := true]> (false :: l)) with (true :: l).
    rewrite filter_cons_False by discriminate.
    rewrite filter_cons_True by reflexivity. cbn [length]. lia.
  - cbn in Hi. change (<[S i := true]> (b :: l)) with (b :: <[i := true]> l).
    specialize (IH i Hi). destruct b.
    + rewrite !filter_cons_False by discriminate. exact IH.
    + rewrite !filter_cons_True by reflexivity. cbn [length]. lia.
Qed.

Lemma reader_step_invariant `{ReaderImpl} ev s s' :
  counter_invariant s -> reader_step ev s = Some s' -> counter_invariant s'.
Proof.
  unfold counter_invariant. destruct s as [w n]. cbn [rs_world rs_reads].
  intros Hinv Hstep.
  destruct ev as [| |start length|result|start length|listener event]; cbn in Hstep.
  - injection Hstep as <-. cbn. unfold Reader_open.
    destruct (_isOpen (reader w)); cbn; exact Hinv.
  - injection Hstep as <-. cbn. unfold Reader_close.
    destruct (_isOpen (reader w)); cbn; [|exact Hinv].
    destruct (_readCount (reader w) =? 0); cbn; exact Hinv.
  - unfold Reader_read_begin in Hstep.
    destruct (_isOpen (reader w)); cbn in Hstep;
      [|injection Hstep as <-; exact Hinv].
    destruct (length =? 0); injection Hstep as <-; cbn; [exact Hinv|].
    unfold live_streams in *. cbn. lia.
  - destruct n as [|n]; [discriminate|]. injection Hstep as <-. cbn.
    unfold live_streams in *. cbn. lia.
  - injection Hstep as <-. cbn. unfold Reader_createReadStream.
    destruct start as [start|]; [|exact Hinv].
    destruct (start <? 0); [exact Hinv|].
    destruct length as [length|]; [|exact Hinv].
    destruct (length <? 0); [exact Hinv|].
    destruct (_isOpen (reader w)); cbn [negb]; [|exact Hinv].
    destruct (length =? 0); [exact Hinv|].
    destruct (_createReadStream start length); cbn.
    + unfold live_streams in *. cbn. rewrite filter_app, length_app.
      rewrite filter_cons_True by reflexivity. cbn. lia.
    + unfold live_streams in *. cbn. lia.
  - injection Hstep as <-. cbn. unfold onEnd.
    destruct (isEnded (reader w) !! listener) as [[|]|] eqn:Hl; try exact Hinv.
    cbn. unfold live_streams in *. cbn.
    rewrite (live_streams_insert _ _ Hl). lia.
Qed.

Lemma reader_reachable_invariant `{ReaderImpl} s :
  reader_reachable s -> counter_invariant s.
Proof.
  induction 1 as [z st|ev s s' _ IH Hstep].
  - reflexivity.
  - exact (reader_step_invariant ev s s' IH Hstep).
Qed.

Lemma live_streams_all_ended r :
  Forall (fun ended => ended = true) (isEnded r) -> live_streams r = 0.
Proof.
  unfold live_streams. induction 1 as [|b l Hb _ IH]; [reflexivity|].
  subst b. rewrite filter_cons_False by discriminate. exact IH.
Qed.

Lemma reader_step_ended `{ReaderImpl} ev s s' listener :
  reader_step ev s = Some s' ->
  isEnded (reader (rs_world s)) !! listener = Some true ->
  isEnded (reader (rs_world s')) !! listener = Some true.
Proof.
  destruct s as [w n]. cbn [rs_world rs_reads]. intros Hstep Hl.
  destruct ev as [| |start length|result|start length|listener' event]; cbn in Hstep.
  - injection Hstep as <-. cbn. unfold Reader_open.
    destruct (_isOpen (reader w)); cbn; exact Hl.
  - injection Hstep as <-. cbn. unfold Reader_close.
    destruct (_isOpen (reader w)); cbn; [|exact Hl].
    destruct (_readCount (reader w) =? 0); cbn; exact Hl.
  - unfold Reader_read_begin in Hstep.
    destruct (_isOpen (reader w)); cbn in Hstep;
      [|injection Hstep as <-; exact Hl].
    destruct (length =? 0); injection Hstep as <-; cbn; exact Hl.
  - destruct n as [|n]; [discriminate|]. injection Hstep as <-. exact Hl.
  - injection Hstep as <-. cbn. unfold Reader_createReadStream.
    destruct start as [start|]; [|exact Hl].
    destruct (start <? 0); [exact Hl|].
    destruct length as [length|]; [|exact Hl].
    destruct (length <? 0); [exact Hl|].
    destruct (_isOpen (reader w)); cbn [negb]; [|exact Hl].
    destruct (length =? 0); [exact Hl|].
    destruct (_createReadStream start length); cbn; [|exact Hl].
    apply lookup_app_l_Some. exact Hl.
  - injection Hstep as <-. cbn. unfold onEnd.
    destruct (isEnded (reader w) !! listener') as [[|]|] eqn:Hl0; try exact Hl.
    cbn. destruct (decide (listener' = listener)) as [->|Hne]; [congruence|].
    now rewrite list_lookup_insert_ne.
Qed.

(** C10: a stream made by [createReadStream] for a nonzero length
    raises the read counter by one, once, at its creation; the first of
    its events ['end'], ['error'] or ['close'] lowers the counter by one,
    and later events of the stream, which nothing revives, change
    nothing; a request of length zero is answered by an empty stream and
    leaves the counter alone; so, once every stream has had an event and
    every [read] has settled, the counter is zero and [close] goes
    through to the [_close] of the subclass. *)
Theorem read_counter_follows_streams `{ReaderImpl} :
  (forall w start length stream l w',
     length <> 0 ->
     Reader_createReadStream (Some start) (Some length) w = (ok (stream, l), w') ->
     exists listener,
       l = Some listener
       /\ _readCount (reader w') = _readCount (reader w) + 1
       /\ isEnded (reader w) !! listener = None
       /\ isEnded (reader w') !! listener = Some false)
  /\ (forall w listener,
        isEnded (reader w) !! listener = Some false ->
        _readCount (reader (onEnd listener w)) = _readCount (reader w) - 1
        /\ isEnded (reader (onEnd listener w)) !! listener = Some true)
  /\ (forall w listener,
        isEnded (reader w) !! listener = Some true -> onEnd listener w = w)
  /\ (forall ev s s' listener,
        reader_step ev s = Some s' ->
        isEnded (reader (rs_world s)) !! listener = Some true ->
        isEnded (reader (rs_world s')) !! listener = Some true)
  /\ (forall w start,
        _readCount (reader (snd (Reader_createReadStream start (Some 0) w)))
        = _readCount (reader w)
        /\ (_isOpen (reader w) = true -> forall n, start = Some n -> 0 <= n ->
            Reader_createReadStream start (Some 0) w = (ok (PassThrough, None), w)))
  /\ (forall s,
        reader_reachable s ->
        rs_reads s = 0%nat ->
        Forall (fun ended => ended = true) (isEnded (reader (rs_world s))) ->
        _readCount (reader (rs_world s)) = 0
        /\ (_isOpen (reader (rs_world s)) = true ->
            Reader_close (rs_world s)
            = (_close, with_reader (with_isOpen false (reader (rs_world s)))
                         (rs_world s)))).
Proof.
  repeat apply conj.
  - intros w start length stream l w' Hlen. unfold Reader_createReadStream.
    destruct (start <? 0); [discriminate|].
    destruct (length <? 0); [discriminate|].
    destruct (_isOpen (reader w)); cbn [negb]; [|discriminate].
    destruct (Z.eqb_spec length 0); [contradiction|].
    destruct (_createReadStream start length); [|discriminate].
    intros [= <- <- <-]. eexists. split; [reflexivity|]. cbn.
    split; [reflexivity|]. split.
    + apply lookup_ge_None_2. lia.
    + rewrite lookup_app_r by lia. now rewrite Nat.sub_diag.
  - intros w listener Hl. unfold onEnd. rewrite Hl. cbn. split; [reflexivity|].
    apply list_lookup_insert_eq. now apply lookup_lt_Some in Hl.
  - intros w listener Hl. unfold onEnd. now rewrite Hl.
  - intros ev s s' listener. apply reader_step_ended.
  - intros w start. split.
    + unfold Reader_createReadStream.
      destruct start as [start|]; [|reflexivity].
      destruct (start <? 0); [reflexivity|]. cbn.
      destruct (_isOpen (reader w)); reflexivity.
    + intros Hopen n -> Hn. unfold Reader_createReadStream.
      destruct (Z.ltb_spec n 0); [lia|]. cbn. now rewrite Hopen.
  - intros s Hreach Hreads Hended.
    pose proof (reader_reachable_invariant s Hreach) as Hinv.
    unfold counter_invariant in Hinv.
    rewrite Hreads, (live_streams_all_ended _ Hended) in Hinv.
    split; [exact Hinv|]. intros Hopen. unfold Reader_close.
    rewrite Hopen, Hinv. reflexivity.
Qed.

Lemma reader_run_reachable `{ReaderImpl} events s s' :
  reader_reachable s -> reader_run events s = Some s' -> reader_reachable s'.
Proof.
  revert s. induction events as [|ev events IH]; intros s Hs Hrun; cbn in Hrun.
  - now injection Hrun as <-.
  - destruct (reader_step ev s) as [s1|] eqn:Hstep; [|discriminate].
    exact (IH s1 (reader_stepped ev s s1 Hs Hstep) Hrun).
Qed.

Lemma served_reader_reachable : @reader_reachable (BufferReader sample_archive) served_reader.
Proof.
  apply (@reader_run_reachable (BufferReader sample_archive)
           [call_open; call_read 0 4; call_createReadStream (Some 0) (Some 10);
            settle_read (ok []); emit 0%nat on_end; emit 0%nat on_close]
           _ _ (reader_created (Zip_new 276 default_options) ∅)).
  reflexivity.
Defined.

(** The reader of [served_reader] can be closed. *)
Lemma read_counter_follows_streams_witness :
  _readCount (reader (rs_world served_reader)) = 0
  /\ @Reader_close (BufferReader sample_archive) (rs_world served_reader)
     = (ok tt, with_reader (with_isOpen false (reader (rs_world served_reader)))
                 (rs_world served_reader)).
Proof.
  pose proof (proj2 (proj2 (proj2 (proj2 (proj2
    (@read_counter_follows_streams (BufferReader sample_archive))))))
    served_reader served_reader_reachable eq_refl) as Hdrained.
  destruct Hdrained as [Hcount Hclose].
  - repeat constructor.
  - split; [exact Hcount|]. apply Hclose. reflexivity.
Defined.

(** A [FileReader] whose file could not be opened counts as open.  A
    [read] of it has settled, with an error, and it has handed out no
    stream; its counter is zero, yet [close] fails: the claim as stated
    does not hold. *)
Lemma read_counter_claimed_counterexample :
  let impl := FileReader_unopened "ENOENT: no such file or directory" in
  (@reader_reachable impl unopened_file_reader
   /\ rs_reads unopened_file_reader = 0%nat
   /\ Forall (fun ended => ended = true) (isEnded (reader (rs_world unopened_file_reader)))
   /\ _readCount (reader (rs_world unopened_file_reader)) = 0
   /\ fst (@Reader_close impl (rs_world unopened_file_reader))
      = err "File descriptor not open")
  /\ ~ (forall (impl : ReaderImpl) (s : ReaderState),
          @reader_reachable impl s ->
          rs_reads s = 0%nat ->
          Forall (fun ended => ended = true) (isEnded (reader (rs_world s))) ->
          exists w', @Reader_close impl (rs_world s) = (ok tt, w')).
Proof.
  cbv zeta.
  assert (Hreach : @reader_reachable
                     (FileReader_unopened "ENOENT: no such file or directory")
                     unopened_file_reader).
  { apply (@reader_run_reachable
             (FileReader_unopened "ENOENT: no such file or directory")
             [call_open; call_read 0 4; settle_read (err "File descriptor not open");
              call_createReadStream (Some 0) (Some 4)]
             _ _ (reader_created (Zip_new 276 default_options) ∅)).
    reflexivity. }
  split.
  - split; [exact Hreach|]. split; [reflexivity|]. split; [constructor|].
    split; reflexivity.
  - intros Hclaim.
    destruct (Hclaim _ _ Hreach eq_refl (Forall_nil_2 _)) as [w' Hclose].
    discriminate Hclose.
Qed.

(** ** Weakest preconditions *)

Lemma wp_bind {A B} (m : M A) (f : A -> M B) Q E w :
  wp (m ≫= f) Q E w <-> wp m (fun a w' => wp (f a) Q E w') E w.
Proof. unfold wp. rewrite bind_run. destruct (m w) as [[a|e] w']; reflexivity. Qed.

Lemma wp_mret {A} (a : A) Q E w : wp (mret a) Q E w <-> Q a w.
Proof. reflexivity. Qed.

Lemma wp_fail {A} e (Q : A -> World -> Prop) E w : wp (fail e) Q E w <-> E w.
Proof. reflexivity. Qed.

Lemma wp_lift {A} (r : Result A) Q E w :
  wp (lift r) Q E w <-> match r with ok a => Q a w | err _ => E w end.
Proof. unfold wp, lift. destruct r; reflexivity. Qed.

Lemma wp_get_zip Q E w : wp get_zip Q E w <-> Q (zip w) w.
Proof. reflexivity. Qed.

Lemma wp_update_zip g Q E w : wp (update_zip g) Q E w <-> Q tt (with_zip (g (zip w)) w).
Proof. reflexivity. Qed.

Lemma wp_update_world g Q E w : wp (update_world g) Q E w <-> Q tt (g w).
Proof. reflexivity. Qed.

Lemma wp_when (b : bool) (m : M unit) Q E w :
  wp (when b m) Q E w <-> if b then wp m Q E w else Q tt w.
Proof. destruct b; reflexivity. Qed.

Lemma wp_mono {A} (m : M A) (Q Q' : A -> World -> Prop) (E E' : World -> Prop) w :
  wp m Q' E' w ->
  (forall a w', Q' a w' -> Q a w') ->
  (forall w', E' w' -> E w') ->
  wp m Q E w.
Proof. unfold wp. destruct (m w) as [[a|e] w']; auto. Qed.

Lemma wp_run {A} (m : M A) Q E w r w' :
  wp m Q E w -> m w = (r, w') ->
  match r with ok a => Q a w' | err _ => E w' end.
Proof. unfold wp. intros Hwp Hm. now rewrite Hm in Hwp. Qed.

(** One step of symbolic execution. *)
Ltac wp_step :=
  lazymatch goal with
  | |- wp (_ ≫= _) _ _ _ => apply wp_bind
  | |- wp (mret _) _ _ _ => apply wp_mret
  | |- wp (fail _) _ _ _ => apply wp_fail
  | |- wp (lift _) _ _ _ => apply wp_lift
  | |- wp get_zip _ _ _ => apply wp_get_zip
  | |- wp (update_zip _) _ _ _ => apply wp_update_zip
  | |- wp (update_world _) _ _ _ => apply wp_update_world
  | |- wp (when _ _) _ _ _ => apply wp_when
  | |- wp (if ?b then _ else _) _ _ _ => destruct b eqn:?
  | |- wp (match ?x with _ => _ end) _ _ _ => destruct x eqn:?
  | |- wp (let '(_, _) := ?x in _) _ _ _ => destruct x eqn:?
  | |- match ?x with _ => _ end => destruct x eqn:?
  | |- if ?b then _ else _ => destruct b eqn:?
  end.

Lemma same_archive_refl w : same_archive w w.
Proof. now split. Qed.

Lemma same_archive_trans w1 w2 w3 :
  same_archive w1 w2 -> same_archive w2 w3 -> same_archive w1 w3.
Proof. unfold same_archive. intros [-> ->] [-> ->]. now split. Qed.

Lemma Reader_read_spec `{ReaderImpl} start length w :
  wp (Reader_read start length) (fun _ w' => same_archive w w') (same_archive w) w.
Proof.
  unfold wp. pose proof (Reader_read_zip start length w) as Hz.
  destruct (Reader_read start length w) as [[b|e] w']; exact Hz.
Qed.

(** Call a computation whose specification is [spec]. *)
Ltac wp_call spec :=
  eapply wp_mono; [apply spec | cbv beta; intros ? ? ? | cbv beta; intros ? ?].

(** Bring the facts [same_archive w w'] to bear: every later world is
    spoken of through the first. *)
Ltac arch_subst :=
  unfold same_archive in *;
  repeat match goal with
         | H : _ /\ _ |- _ => destruct H as [? ?]
         | H : zip ?a = _ |- _ => is_var a; rewrite H in *; clear H
         | H : store ?a = _ |- _ => is_var a; rewrite H in *; clear H
         end.

(** [_readEntryAt] changes neither archive nor entries, and what it
    returns has a Local File Header within the archive. *)
Lemma readEntryAt_spec `{ReaderImpl} offset w :
  wp (_readEntryAt offset)
     (fun r w' => same_archive w w' /\ header_before (footerOffset (zip w)) r)
     (same_archive w) w.
Proof.
  unfold _readEntryAt, header_before.
  repeat (first [ wp_step | wp_call Reader_read_spec ]).
  all: arch_subst; auto.
  all: split; auto; intros ? [=]; subst; cbn; lia.
Qed.

(** ** Invariants of an archive *)

Lemma same_core_refl z : same_core z z.
Proof. repeat split. Qed.

Lemma same_core_trans z1 z2 z3 : same_core z1 z2 -> same_core z2 z3 -> same_core z1 z3.
Proof. unfold same_core. intuition congruence. Qed.

Lemma zip_inv_same_core c b z z' : same_core z z' -> zip_inv c b z -> zip_inv c b z'.
Proof.
  unfold same_core, zip_inv, mac_flags_exclusive, first_entry_in_bounds.
  intros (Hf & Hr & Hm & Hy & Hp) (H1 & H2 & H3 & H4).
  rewrite Hf, Hr, Hm, Hy, Hp. auto.
Qed.

Lemma init_inv_same_core c z z' : same_core z z' -> init_inv c z -> init_inv c z'.
Proof.
  unfold same_core, init_inv.
  intros (Hf & Hr & Hm & Hy & Hp) (H1 & H2 & H3 & H4).
  rewrite Hf, Hr, Hy, Hp. auto.
Qed.

Lemma recalculateEntryCount_core n cur z :
  same_core z (snd (_recalculateEntryCount n cur z)).
Proof.
  unfold _recalculateEntryCount. destruct (_ >=? _); cbn; repeat split.
Qed.

Lemma recalculateEntryCountIsCertain_core n cur z :
  same_core z (_recalculateEntryCountIsCertain n cur z).
Proof.
  unfold _recalculateEntryCountIsCertain. destruct (entryCountIsCertain_fn _ _);
    repeat split.
Qed.

(** Promotion sets one flag and clears the other. *)
Lemma setAsMacArchive_zip n cur w :
  let z' := zip (_setAsMacArchive n cur w) in
  isMacArchive z' = true /\ isMaybeMacArchive z' = false
  /\ footerOffset z' = footerOffset (zip w) /\ _isReading z' = _isReading (zip w)
  /\ _firstEntryProps z' = _firstEntryProps (zip w).
Proof.
  unfold _setAsMacArchive. cbv zeta. cbn [zip with_store with_zip].
  match goal with
  | |- context [with_uncertainUncompressedSizeEntryRefs None ?z] => set (z2 := z)
  end.
  match goal with
  | z2 := (if negb (entryCountIsCertain ?z) then _ else _) |- _ => set (z1 := z) in *
  end.
  assert (H1 : isMacArchive z1 = true /\ isMaybeMacArchive z1 = false
               /\ footerOffset z1 = footerOffset (zip w)
               /\ _isReading z1 = _isReading (zip w)
               /\ _firstEntryProps z1 = _firstEntryProps (zip w)).
  { unfold z1. destruct (negb _); cbn; auto. }
  assert (H2 : same_core z1 z2).
  { unfold z2. destruct (negb (entryCountIsCertain z1)); [|apply same_core_refl].
    eapply same_core_trans;
      [apply recalculateEntryCount_core | apply recalculateEntryCountIsCertain_core]. }
  destruct H2 as (Hf & Hr & Hm & Hy & Hp). cbn.
  rewrite Hf, Hr, Hm, Hy, Hp. exact H1.
Qed.

Lemma setAsMacArchive_inv c b n cur w :
  zip_inv c b (zip w) -> zip_inv c b (zip (_setAsMacArchive n cur w)).
Proof.
  destruct (setAsMacArchive_zip n cur w) as (Hm & Hy & Hf & Hr & Hp).
  unfold zip_inv, mac_flags_exclusive, first_entry_in_bounds.
  rewrite Hm, Hy, Hf, Hr, Hp. intuition congruence.
Qed.

(** Demotion clears the tentative flag and leaves the definite one. *)
Lemma setAsNotMacArchive_zip w :
  let z' := zip (_setAsNotMacArchive w) in
  isMacArchive z' = isMacArchive (zip w) /\ isMaybeMacArchive z' = false
  /\ footerOffset z' = footerOffset (zip w) /\ _isReading z' = _isReading (zip w)
  /\ _firstEntryProps z' = _firstEntryProps (zip w).
Proof. cbn. auto. Qed.

Lemma setAsNotMacArchive_inv c b w :
  zip_inv c b (zip w) -> zip_inv c b (zip (_setAsNotMacArchive w)).
Proof.
  destruct (setAsNotMacArchive_zip w) as (Hm & Hy & Hf & Hr & Hp).
  unfold zip_inv, mac_flags_exclusive, first_entry_in_bounds.
  rewrite Hm, Hy, Hf, Hr, Hp. intuition congruence.
Qed.

Lemma finalize_inv c b entry w :
  zip_inv c b (zip w) -> zip_inv c b (zip (finalize entry w)).
Proof.
  unfold finalize. cbn. destruct (_uncertainUncompressedSizeEntryRefs (zip w)); auto.
Qed.

(** ** Computations that keep an invariant *)

Section Preserves.
Context {Iz : Zip -> Prop}.

Lemma zp_bind {A B} (m : M A) (f : A -> M B) :
  zpreserves Iz m -> (forall a, zpreserves Iz (f a)) -> zpreserves Iz (m ≫= f).
Proof.
  intros Hm Hf w Hw. apply wp_bind. eapply wp_mono; [apply Hm, Hw| |auto].
  cbv beta. intros a w' Hw'. apply Hf, Hw'.
Qed.

Lemma zp_get_zip_bind {B} (f : Zip -> M B) :
  (forall z, Iz z -> zpreserves Iz (f z)) -> zpreserves Iz (get_zip ≫= f).
Proof. intros Hf w Hw. apply wp_bind, wp_get_zip. now apply Hf. Qed.

Lemma zp_mret {A} (a : A) : zpreserves Iz (mret a).
Proof. intros w Hw. exact Hw. Qed.

Lemma zp_fail {A} e : zpreserves Iz (fail (A := A) e).
Proof. intros w Hw. exact Hw. Qed.

Lemma zp_lift {A} (r : Result A) : zpreserves Iz (lift r).
Proof. intros w Hw. apply wp_lift. now destruct r. Qed.

Lemma zp_get_zip : zpreserves Iz get_zip.
Proof. intros w Hw. exact Hw. Qed.

Lemma zp_update_zip g : (forall z, Iz z -> Iz (g z)) -> zpreserves Iz (update_zip g).
Proof. intros Hg w Hw. apply wp_update_zip. cbn. auto. Qed.

Lemma zp_update_world g :
  (forall w, Iz (zip w) -> Iz (zip (g w))) -> zpreserves Iz (update_world g).
Proof. intros Hg w Hw. apply wp_update_world. auto. Qed.

Lemma zp_when (b : bool) m : zpreserves Iz m -> zpreserves Iz (when b m).
Proof. destruct b; [auto|]. intros _. apply zp_mret. Qed.

(** A computation that leaves the archive alone keeps every invariant. *)
Lemma zp_same_archive {A} (m : M A) :
  (forall w, wp m (fun _ w' => same_archive w w') (same_archive w) w) ->
  zpreserves Iz m.
Proof.
  intros Hm w Hw. eapply wp_mono; [apply Hm| |]; cbv beta.
  - intros _ w' [-> _]. exact Hw.
  - intros w' [-> _]. exact Hw.
Qed.

Lemma zp_get_entry this : zpreserves Iz (get_entry this).
Proof.
  intros w Hw. unfold wp, get_entry. destruct (store w !! this); exact Hw.
Qed.

Lemma zp_update_entry this f : zpreserves Iz (update_entry this f).
Proof. apply zp_update_world. auto. Qed.

End Preserves.

Lemma readEntryAt_same_archive `{ReaderImpl} offset w :
  wp (_readEntryAt offset) (fun _ w' => same_archive w w') (same_archive w) w.
Proof.
  eapply wp_mono; [apply readEntryAt_spec| |]; cbv beta; tauto.
Qed.

(** The structure of a computation, taken apart. *)
Ltac zp_step :=
  lazymatch goal with
  | |- zpreserves _ (get_zip ≫= _) => apply zp_get_zip_bind; intros ? ?
  | |- zpreserves _ (_ ≫= _) => apply zp_bind; [|intros ?]
  | |- zpreserves _ (mret _) => apply zp_mret
  | |- zpreserves _ (fail _) => apply zp_fail
  | |- zpreserves _ (lift _) => apply zp_lift
  | |- zpreserves _ get_zip => apply zp_get_zip
  | |- zpreserves _ (get_entry _) => apply zp_get_entry
  | |- zpreserves _ (update_entry _ _) => apply zp_update_entry
  | |- zpreserves _ (when _ _) => apply zp_when
  | |- zpreserves _ (Reader_read _ _) =>
      apply zp_same_archive; intros ?; apply Reader_read_spec
  | |- zpreserves _ (_readEntryAt _) =>
      apply zp_same_archive; intros ?; apply readEntryAt_same_archive
  | |- zpreserves _ (update_zip _) => apply zp_update_zip; intros ? ?
  | |- zpreserves _ (update_world _) => apply zp_update_world; intros ? ?
  | |- zpreserves _ (if ?b then _ else _) => destruct b
  | |- zpreserves _ (match ?x with _ => _ end) => destruct x eqn:?
  end.

Section OpenArchive.
Context `{ReaderImpl} `{Platform}.
Context (c : option Z) (b : bool).

(** The leaves: an update of a field that the invariant does not read. *)
Ltac zp_leaf :=
  try (eapply zip_inv_same_core; [|eassumption]; repeat split; fail);
  try (apply setAsMacArchive_inv; assumption);
  try (apply setAsNotMacArchive_inv; assumption).

Lemma search_dataDescriptor_inv fuel entryProperties fileDataEnd :
  zpreserves (zip_inv c b) (search_dataDescriptor fuel entryProperties fileDataEnd).
Proof.
  revert fileDataEnd. induction fuel as [|fuel IH]; intros fileDataEnd;
    cbn [search_dataDescriptor]; repeat zp_step; auto.
Qed.

Lemma determineCompressedSize_inv entryProperties fileDataOffsetIfMac :
  zpreserves (zip_inv c b) (_determineCompressedSize entryProperties fileDataOffsetIfMac).
Proof.
  unfold _determineCompressedSize.
  repeat first [ apply search_dataDescriptor_inv | zp_step ]; zp_leaf.
Qed.

Lemma validateAndDecodeEntry_inv entry :
  zpreserves (zip_inv c b) (_validateAndDecodeEntry entry).
Proof.
  intros w Hw. unfold wp, _validateAndDecodeEntry.
  destruct (validateAndDecode (zip w) entry); exact Hw.
Qed.

(** The archive is replaced by what [_recalculateEntryCount] made of an
    archive read before. *)
Ltac zp_recalculated :=
  match goal with
  | Hr : _recalculateEntryCount ?n ?cur ?z = (_, ?z0), Hz : zip_inv _ _ ?z
    |- zip_inv ?c ?b ?z0 =>
      apply (zip_inv_same_core c b z z0); [|exact Hz];
      replace z0 with (snd (_recalculateEntryCount n cur z)) by (now rewrite Hr);
      apply recalculateEntryCount_core
  end.

Lemma update_mac_state_inv entryProperties entryEnd centralDirectoryEnd :
  zpreserves (zip_inv c b) (update_mac_state entryProperties entryEnd centralDirectoryEnd).
Proof.
  unfold update_mac_state. repeat zp_step; zp_leaf.
  all: try zp_recalculated.
  all: eapply zip_inv_same_core; [|eassumption].
  all: first [ apply recalculateEntryCount_core
             | apply recalculateEntryCountIsCertain_core ].
Qed.

Lemma finish_entry_inv entryProperties entryEnd :
  zpreserves (zip_inv c b) (finish_entry entryProperties entryEnd).
Proof.
  unfold finish_entry.
  repeat first [ apply determineCompressedSize_inv
               | apply validateAndDecodeEntry_inv | zp_step ]; zp_leaf.
Qed.

Lemma zip_inv_first_taken z :
  zip_inv c b z -> zip_inv c b (with_firstEntryProps None z).
Proof.
  unfold zip_inv, mac_flags_exclusive, first_entry_in_bounds. cbn.
  intuition discriminate.
Qed.

Lemma readEntry_inv : zpreserves (zip_inv c b) _readEntry.
Proof.
  unfold _readEntry.
  repeat first [ apply finish_entry_inv | apply update_mac_state_inv | zp_step ];
    zp_leaf.
  now apply zip_inv_first_taken.
Qed.

Lemma Reader_createReadStream_same_archive start length w :
  wp (Reader_createReadStream start length)
     (fun _ w' => same_archive w w') (same_archive w) w.
Proof.
  unfold wp, Reader_createReadStream.
  destruct start as [start|]; [|apply same_archive_refl].
  destruct (start <? 0); [apply same_archive_refl|].
  destruct length as [length|]; [|apply same_archive_refl].
  destruct (length <? 0); [apply same_archive_refl|].
  destruct (negb (_isOpen (reader w))); [apply same_archive_refl|].
  destruct (length =? 0); [apply same_archive_refl|].
  destruct (_createReadStream start length); split; reflexivity.
Qed.

Lemma openReadStream_inv this options :
  zpreserves (zip_inv c b) (openReadStream this options).
Proof.
  unfold openReadStream.
  repeat first
    [ apply zp_same_archive; intros ?; apply Reader_createReadStream_same_archive
    | zp_step ]; zp_leaf.
Qed.

Lemma SizeValidator_transform_inv stream chunkLength :
  zpreserves (zip_inv c b) (SizeValidator_transform stream chunkLength).
Proof. unfold SizeValidator_transform. repeat zp_step; zp_leaf. Qed.

Lemma SizeValidator_flush_inv stream :
  zpreserves (zip_inv c b) (SizeValidator_flush stream).
Proof.
  unfold SizeValidator_flush. repeat zp_step; zp_leaf.
  destruct (_uncertainUncompressedSizeEntryRefs _); zp_leaf; assumption.
Qed.

Lemma reader_step_zip ev w n r :
  reader_step ev {| rs_world := w; rs_reads := n |} = Some r ->
  zip (rs_world r) = zip w.
Proof.
  destruct ev as [| |start length|result|start length|listener event]; cbn.
  - intros [= <-]. cbn. unfold Reader_open. now destruct (_isOpen (reader w)).
  - intros [= <-]. cbn. unfold Reader_close.
    destruct (negb (_isOpen (reader w))); [reflexivity|].
    now destruct (negb (_readCount (reader w) =? 0)).
  - unfold Reader_read_begin. destruct (negb (_isOpen (reader w)));
      [now intros [= <-]|].
    destruct (length =? 0); now intros [= <-].
  - destruct n; [discriminate|]. now intros [= <-].
  - intros [= <-]. cbn.
    pose proof (Reader_createReadStream_same_archive start length w) as Hs.
    unfold wp in Hs.
    destruct (Reader_createReadStream start length w) as [[?|?] ?]; apply Hs.
  - intros [= <-]. cbn. unfold onEnd.
    now destruct (isEnded (reader w) !! listener) as [[|]|].
Qed.
End OpenArchive.
(** ** The invariants after [init] *)

Lemma init_inv_zip_inv c z : init_inv c z -> zip_inv c false z.
Proof.
  unfold init_inv, zip_inv, mac_flags_exclusive, first_entry_in_bounds.
  intros (Hf & Hr & Hy & Hp). rewrite Hy, Hp. intuition discriminate.
Qed.

Lemma recalc_footerOffset n cur z :
  footerOffset (snd (_recalculateEntryCount n cur z)) = footerOffset z.
Proof. apply recalculateEntryCount_core. Qed.

Lemma recalc_isReading n cur z :
  _isReading (snd (_recalculateEntryCount n cur z)) = _isReading z.
Proof. apply recalculateEntryCount_core. Qed.

Lemma recalc_isMacArchive n cur z :
  isMacArchive (snd (_recalculateEntryCount n cur z)) = isMacArchive z.
Proof. apply recalculateEntryCount_core. Qed.

Lemma recalc_isMaybeMacArchive n cur z :
  isMaybeMacArchive (snd (_recalculateEntryCount n cur z)) = isMaybeMacArchive z.
Proof. apply recalculateEntryCount_core. Qed.

Lemma recalc_firstEntryProps n cur z :
  _firstEntryProps (snd (_recalculateEntryCount n cur z)) = _firstEntryProps z.
Proof. apply recalculateEntryCount_core. Qed.

Ltac inv_unfold :=
  unfold zip_inv, mac_flags_exclusive, first_entry_in_bounds, init_inv, init_free,
    header_before in *.

Ltac core_rewrite :=
  rewrite ?recalc_footerOffset, ?recalc_isReading, ?recalc_isMacArchive,
    ?recalc_isMaybeMacArchive, ?recalc_firstEntryProps in *.

(** The leaves of a symbolic execution: the fields that the invariants
    read, computed through the updates. *)
Ltac inv_leaf :=
  inv_unfold; cbn in *;
  repeat match goal with
         | |- context [if ?b then _ else _] => destruct b eqn:?
         end;
  cbn in *; core_rewrite; cbn in *; unfold num in *;
  repeat match goal with
         | H : _ /\ _ |- _ => destruct H as [? ?]
         end;
  try (intuition (try discriminate; try congruence; eauto); fail).

(** Symbolic execution of a computation on the archive alone, with the
    conditions met on the way taken apart. *)
Ltac wp_exec :=
  repeat first
    [ wp_step; cbn [zip with_zip]
    | match goal with
      | |- context [if bool_decide ?P then _ else _] => destruct (bool_decide P) eqn:?
      end ].

Section Init.
Context `{ReaderImpl} `{Platform}.

Lemma locate_finish_spec c entry centralDirectoryEnd w :
  init_inv c (zip w) -> header_before c entry ->
  wp (locate_finish entry centralDirectoryEnd)
     (fun _ w' => zip_inv c false (zip w')) (fun w' => zip_inv c false (zip w')) w.
Proof.
  intros Hinv Hentry. unfold locate_finish. wp_exec.
  all: inv_leaf.
  all: subst c; intuition (try discriminate; try congruence; eauto).
Qed.

Lemma search_centralDirectory_spec c fuel offset alreadyCheckedOffset w :
  init_inv c (zip w) ->
  wp (search_centralDirectory fuel offset alreadyCheckedOffset)
     (fun r w' => init_inv c (zip w') /\ header_before c r)
     (fun w' => init_inv c (zip w')) w.
Proof.
  revert offset w. induction fuel as [|fuel IH]; intros offset w Hinv;
    cbn [search_centralDirectory].
  - apply wp_mret. split; [exact Hinv|]. intros e [=].
  - wp_step; [|apply wp_mret; split; [exact Hinv|]; intros e [=]].
    apply wp_bind. wp_call readEntryAt_spec.
    + destruct H1 as [[Hz _] Hb]. destruct a as [e|].
      * wp_exec; cbn [zip with_zip]; rewrite Hz.
        -- exact Hinv.
        -- split; [inv_leaf|]. intros e' [= <-].
           destruct Hinv as (<- & _). now apply Hb.
      * apply IH. now rewrite Hz.
    + destruct H1 as [Hz _]. now rewrite Hz.
Qed.

Lemma locate_search_spec c entry alreadyCheckedOffset w :
  init_inv c (zip w) -> header_before c entry ->
  wp (locate_search entry alreadyCheckedOffset)
     (fun r w' => init_inv c (zip w') /\ header_before c r)
     (fun w' => init_inv c (zip w')) w.
Proof.
  intros Hinv Hentry. unfold locate_search. destruct entry as [e|].
  - apply wp_mret. now split.
  - repeat (wp_step; cbn [zip with_zip]); try exact Hinv.
    all: now apply search_centralDirectory_spec.
Qed.

Lemma locate_rest_spec c entry alreadyCheckedOffset centralDirectoryEnd w :
  init_inv c (zip w) -> header_before c entry ->
  wp (entry ← locate_search entry alreadyCheckedOffset;
      locate_finish entry centralDirectoryEnd)
     (fun _ w' => zip_inv c false (zip w')) (fun w' => zip_inv c false (zip w')) w.
Proof.
  intros Hinv Hentry. apply wp_bind.
  eapply wp_mono; [now apply (locate_search_spec c)| |]; cbv beta.
  - intros r w' [Hi Hb]. now apply locate_finish_spec.
  - intros w'. apply init_inv_zip_inv.
Qed.

Lemma init_inv_first_entry c z e :
  init_inv c z -> fileHeaderOffset e + 30 <= num c ->
  zip_inv c false (with_firstEntryProps (Some e) z).
Proof.
  unfold init_inv, zip_inv, mac_flags_exclusive, first_entry_in_bounds. cbn.
  intros (<- & Hr & Hy & _) Hb. rewrite Hy.
  repeat split; auto; [intuition discriminate|]. now intros e' [= <-].
Qed.

(** What [_recalculateEntryCount] returned, named through [snd]. *)
Ltac name_recalculated :=
  repeat match goal with
         | Hr : _recalculateEntryCount ?n ?cur ?z0 = (_, ?z) |- _ =>
             is_var z;
             assert (z = snd (_recalculateEntryCount n cur z0)) by (now rewrite Hr);
             clear Hr; subst z
         end.

Lemma locateCentralDirectory_spec c w :
  init_inv c (zip w) ->
  wp _locateCentralDirectory
     (fun _ w' => zip_inv c false (zip w')) (fun w' => zip_inv c false (zip w')) w.
Proof.
  intros Hinv. unfold _locateCentralDirectory.
  repeat (wp_step; cbn [zip with_zip]).
  all: try (apply init_inv_zip_inv; exact Hinv).
  all: name_recalculated.
  all: match goal with
       | |- wp _ _ _ ?wc =>
           let Hc := fresh "Hc" in
           let wn := fresh "wc" in
           assert (Hc : init_inv c (zip wc)) by inv_leaf;
           set (wn := wc) in *; clearbody wn
       end.
  all: try (apply (proj1 (wp_bind (locate_search _ _)
                             (fun entry => locate_finish entry _) _ _ _));
            apply locate_rest_spec; [exact Hc | intros ? [=]]).
  all: wp_call readEntryAt_spec.
  all: try (arch_subst; apply init_inv_zip_inv; congruence).
  all: match goal with
       | Hs : same_archive ?wq ?w' /\ header_before _ ?r, Hq : init_inv _ (zip ?wq)
         |- _ =>
           destruct Hs as [[Hz _] Hb];
           assert (Hc' : init_inv c (zip w')) by (now rewrite Hz);
           assert (Ha : header_before c r)
             by (destruct Hq as (<- & _); exact Hb);
           clear Hz Hb
       end.
  all: repeat (wp_step; cbn [zip with_zip]).
  all: try (apply init_inv_zip_inv; assumption).
  all: try (apply init_inv_first_entry; [assumption | now apply Ha]).
  all: apply (proj1 (wp_bind (locate_search _ _)
                        (fun entry => locate_finish entry _) _ _ _));
       apply locate_rest_spec; [assumption | first [exact Ha | intros ? [=]]].
Qed.

(** The stages of [init] before the Central Directory is located. *)
Ltac init_leaf :=
  unfold init_free, init_inv in *; cbn in *;
  repeat match goal with
         | |- context [if ?b then _ else _] => destruct b
         end;
  cbn in *; try tauto.

Lemma locateEocdr_init : zpreserves init_free _locateEocdr.
Proof. unfold _locateEocdr. repeat zp_step; init_leaf. Qed.

Lemma parseEocdr_init eocdrBuffer : zpreserves init_free (_parseEocdr eocdrBuffer).
Proof. unfold _parseEocdr. repeat zp_step; init_leaf. Qed.

Lemma parseZip64Eocdr_init : zpreserves init_free _parseZip64Eocdr.
Proof. unfold _parseZip64Eocdr. repeat zp_step; init_leaf. Qed.

Lemma init_free_new size options : init_free (Zip_new size options).
Proof. destruct options as [[[[? ?] ?] ?] ?]. repeat split. Qed.

Lemma init_stage3_init : zpreserves init_free init_stage3.
Proof.
  unfold init_stage3, init_stage2.
  repeat first [ apply locateEocdr_init | apply parseEocdr_init
               | apply parseZip64Eocdr_init | zp_step ].
Qed.

Lemma init_free_zip_inv z : init_free z -> zip_inv (footerOffset z) false z.
Proof. apply init_inv_zip_inv. Qed.
End Init.
(** ** Reachable states *)

Section Reachable.
Context `{ReaderImpl} `{Platform}.

Lemma zpreserves_snd {A} Iz (m : M A) w :
  zpreserves Iz m -> Iz (zip w) -> Iz (zip (snd (m w))).
Proof.
  intros Hm Hw. specialize (Hm w Hw). unfold wp in Hm.
  destruct (m w) as [[a|e] w']; exact Hm.
Qed.

Lemma zip_inv_footer c b z : zip_inv c b z -> zip_inv (footerOffset z) b z.
Proof. intros Hz. pose proof Hz as (<- & _). exact Hz. Qed.

(** [init] establishes the invariant up to its last stage, whether it
    succeeds or not. *)
Lemma init_stage4_spec w :
  init_free (zip w) ->
  wp init_stage4
     (fun _ w' => zip_inv (footerOffset (zip w')) false (zip w'))
     (fun w' => zip_inv (footerOffset (zip w')) false (zip w')) w.
Proof.
  intros Hw. unfold init_stage4. apply wp_bind.
  eapply wp_mono; [apply init_stage3_init, Hw| |]; cbv beta.
  - intros _ w' Hw'.
    eapply wp_mono; [apply locateCentralDirectory_spec, Hw'| |];
      cbv beta; intros; eapply zip_inv_footer; eassumption.
  - intros w' Hw'. now apply init_free_zip_inv.
Qed.

Lemma init_stages w :
  init w = (init_stage4;; update_zip (fun z => with_entryCursor (centralDirectoryOffset z) z)) w.
Proof.
  unfold init, init_stage4, init_stage3, init_stage2.
  unfold mbind, M_bind.
  destruct (_locateEocdr w) as [[buf|e] w1]; [|reflexivity].
  destruct (_parseEocdr buf w1) as [[[]|e] w2]; [|reflexivity].
  destruct (get_zip w2) as [[z|e] w3]; [|reflexivity].
  destruct (when _ _ w3) as [[[]|e] w4]; [|reflexivity].
  destruct (_locateCentralDirectory w4) as [[[]|e] w5]; reflexivity.
Qed.

Lemma init_spec w :
  init_free (zip w) ->
  wp init
     (fun _ w' => zip_inv (footerOffset (zip w')) false (zip w'))
     (fun w' => zip_inv (footerOffset (zip w')) false (zip w')) w.
Proof.
  intros Hw. unfold wp. rewrite init_stages.
  change (wp (init_stage4;; update_zip (fun z => with_entryCursor (centralDirectoryOffset z) z))
     (fun _ w' => zip_inv (footerOffset (zip w')) false (zip w'))
     (fun w' => zip_inv (footerOffset (zip w')) false (zip w')) w).
  apply wp_bind.
  eapply wp_mono; [apply init_stage4_spec, Hw| |]; cbv beta; [|auto].
  intros _ w' Hw'. apply wp_update_zip. cbn. exact Hw'.
Qed.

Lemma init_reach_inv size options r res w :
  init {| zip := Zip_new size options; reader := r; store := ∅ |} = (res, w) ->
  zip_inv (footerOffset (zip w)) false (zip w).
Proof.
  intros Hrun.
  pose proof (init_spec {| zip := Zip_new size options; reader := r; store := ∅ |}
                (init_free_new size options)) as Hwp.
  unfold wp in Hwp. rewrite Hrun in Hwp. destruct res; exact Hwp.
Qed.

Lemma zip_step_reach_inv ev s s' :
  reach_inv s -> zip_step ev s = Some s' -> reach_inv s'.
Proof.
  unfold reach_inv. destruct s as [w b n]. cbn [zs_world zs_reading zs_reads].
  intros Hinv.
  destruct ev; cbn [zip_step zs_world zs_reading zs_reads].
  - unfold readEntry_call.
    destruct Hinv as (Hf & Hr & Hm & Hp).
    destruct (_isReading (zip w)) eqn:Hreading; intros [= <-]; cbn.
    + subst b. repeat split; assumption.
    + repeat split; assumption.
  - destruct b; [|discriminate]. intros [= <-]. cbn.
    unfold readEntry_resume.
    pose proof (readEntry_inv _ _ w Hinv) as Hwp. unfold wp in Hwp.
    destruct (_readEntry w) as [[a|e] w']; cbn;
      destruct Hwp as (Hf & Hr & Hm & Hp); repeat split; assumption.
  - intros [= <-]; cbn [zs_world zs_reading zs_reads]. eapply zip_inv_footer.
    apply (zpreserves_snd _ _ _ (openReadStream_inv _ _ entry options) Hinv).
  - intros [= <-]; cbn [zs_world zs_reading zs_reads]. eapply zip_inv_footer.
    apply (zpreserves_snd _ _ _ (SizeValidator_transform_inv _ _ stream chunkLength) Hinv).
  - intros [= <-]; cbn [zs_world zs_reading zs_reads]. eapply zip_inv_footer.
    apply (zpreserves_snd _ _ _ (SizeValidator_flush_inv _ _ stream) Hinv).
  - intros [= <-]; cbn [zs_world zs_reading zs_reads]. eapply zip_inv_footer. apply setAsMacArchive_inv, Hinv.
  - intros [= <-]; cbn [zs_world zs_reading zs_reads]. eapply zip_inv_footer. apply setAsNotMacArchive_inv, Hinv.
  - intros [= <-]; cbn [zs_world zs_reading zs_reads]. eapply zip_inv_footer. apply finalize_inv, Hinv.
  - destruct (reader_step _ _) as [r|] eqn:Hstep; [|discriminate].
    intros [= <-]; cbn [zs_world zs_reading zs_reads rs_world]. rewrite (reader_step_zip _ _ _ _ Hstep). exact Hinv.
Qed.

Lemma zip_reachable_inv s : zip_reachable s -> reach_inv s.
Proof.
  induction 1 as [size options r w Hinit | ev s s' _ IH Hstep].
  - unfold reach_inv. cbn. eapply init_reach_inv, Hinit.
  - eapply zip_step_reach_inv; eassumption.
Qed.

Lemma zip_run_reachable events : forall s s',
  zip_reachable s -> zip_run events s = Some s' -> zip_reachable s'.
Proof.
  induction events as [|ev events IH]; cbn; intros s s' Hs.
  - now intros [= <-].
  - destruct (zip_step ev s) as [s1|] eqn:Hstep; [|discriminate].
    apply IH. eapply zip_stepped; eassumption.
Qed.
End Reachable.
(** ** The Mac flags *)

Section InitStages.
Context `{ReaderImpl} `{Platform}.

Lemma init_stage1_init : zpreserves init_free init_stage1.
Proof. unfold init_stage1. repeat first [ apply locateEocdr_init | zp_step ]. Qed.

Lemma init_stage2_init : zpreserves init_free init_stage2.
Proof.
  unfold init_stage2. repeat first [ apply locateEocdr_init | apply parseEocdr_init | zp_step ].
Qed.

Lemma init_free_exclusive z : init_free z -> mac_flags_exclusive z.
Proof. intros (_ & _ & Hy & _) (_ & Hy'). congruence. Qed.

Lemma zip_inv_exclusive c b z : zip_inv c b z -> mac_flags_exclusive z.
Proof. now intros (_ & _ & Hm & _). Qed.

Lemma wp_snd {A} (m : M A) (P : World -> Prop) w :
  wp m (fun _ => P) P w -> P (snd (m w)).
Proof. unfold wp. destruct (m w) as [[a|e] w']; auto. Qed.
End InitStages.

(** C7: [isMacArchive] and [isMaybeMacArchive] are never both true: not
    in the archive that the constructor builds, not after any stage of
    [init] (locating the EOCDR, parsing it, parsing the ZIP64 EOCDR,
    locating the Central Directory, the whole of [init]), however the
    stage ends, and not in any state that an open archive reaches by
    calls of [readEntry], [openReadStream], [_setAsMacArchive] and
    [_setAsNotMacArchive], events of the validating streams, collected
    entries and events of the reader. *)
Theorem mac_flags_never_both_true `{ReaderImpl} `{Platform} :
  (forall size options, mac_flags_exclusive (Zip_new size options))
  /\ (forall size options r stage,
        In stage [init_stage1; init_stage2; init_stage3; init_stage4; init] ->
        mac_flags_exclusive
          (zip (snd (stage {| zip := Zip_new size options; reader := r; store := ∅ |}))))
  /\ (forall s, zip_reachable s -> mac_flags_exclusive (zip (zs_world s))).
Proof.
  split; [|split].
  - intros size options. apply init_free_exclusive, init_free_new.
  - intros size options r stage Hstage.
    set (w0 := {| zip := Zip_new size options; reader := r; store := ∅ |}).
    assert (Hnew : init_free (zip w0)) by apply init_free_new.
    cbn [In] in Hstage.
    destruct Hstage as [<- | [<- | [<- | [<- | [<- | []]]]]].
    + apply init_free_exclusive, (zpreserves_snd _ _ _ init_stage1_init Hnew).
    + apply init_free_exclusive, (zpreserves_snd _ _ _ init_stage2_init Hnew).
    + apply init_free_exclusive, (zpreserves_snd _ _ _ init_stage3_init Hnew).
    + eapply zip_inv_exclusive.
      apply (wp_snd init_stage4 (fun w => zip_inv (footerOffset (zip w)) false (zip w))).
      apply init_stage4_spec, Hnew.
    + eapply zip_inv_exclusive.
      apply (wp_snd init (fun w => zip_inv (footerOffset (zip w)) false (zip w))).
      apply init_spec, Hnew.
  - intros s Hs. eapply zip_inv_exclusive. apply zip_reachable_inv, Hs.
Qed.

(** C8: while the promise of a call of [readEntry] has not settled,
    another call fails with the error of re-entrancy and leaves the
    world, and with it the entry cursor, the count of the entries read
    and the Mac flags, as it was; the first call is still under way. *)
Theorem readEntry_rejects_pending_call `{ReaderImpl} `{Platform} (s : ZipState) :
  zip_reachable s ->
  zs_reading s = true ->
  readEntry (zs_world s)
  = (err "Cannot call `readEntry()` before previous call's promise has settled",
     zs_world s)
  /\ zip_step call_readEntry s = Some s.
Proof.
  intros Hs Hpending.
  pose proof (zip_reachable_inv s Hs) as (_ & Hreading & _).
  rewrite Hpending in Hreading.
  split.
  - unfold readEntry. rewrite bind_run. unfold readEntry_call.
    now rewrite Hreading.
  - cbn [zip_step]. unfold readEntry_call. rewrite Hreading.
    destruct s as [w b n]. cbn in *. now subst b.
Qed.

Lemma sample_state_reachable :
  @zip_reachable (BufferReader sample_archive) ascii_platform sample_state.
Proof.
  apply (@zip_opened (BufferReader sample_archive) ascii_platform
           (buf_length sample_archive) default_options (with_isOpen true Reader_new)).
  vm_compute. reflexivity.
Defined.

Lemma sample_reading_reachable :
  @zip_reachable (BufferReader sample_archive) ascii_platform sample_reading.
Proof.
  apply (@zip_stepped (BufferReader sample_archive) ascii_platform
           call_readEntry sample_state sample_reading sample_state_reachable).
  vm_compute. reflexivity.
Defined.

Lemma mac_state_reachable :
  @zip_reachable (BufferReader mac_archive) ascii_platform mac_state.
Proof.
  apply (@zip_opened (BufferReader mac_archive) ascii_platform
           (buf_length mac_archive) default_options (with_isOpen true Reader_new)).
  vm_compute. reflexivity.
Defined.

Lemma mac_read_state_reachable :
  @zip_reachable (BufferReader mac_archive) ascii_platform mac_read_state.
Proof.
  apply (@zip_run_reachable (BufferReader mac_archive) ascii_platform
           [call_readEntry; resume_readEntry; call_readEntry; resume_readEntry]
           mac_state mac_read_state mac_state_reachable).
  vm_compute. reflexivity.
Defined.

Lemma mac_flags_never_both_true_witness :
  mac_flags_exclusive (zip mac_opened)
  /\ isMacArchive (zip (zs_world mac_read_state)) = true
  /\ mac_flags_exclusive (zip (zs_world mac_read_state)).
Proof.
  destruct (@mac_flags_never_both_true (BufferReader mac_archive) ascii_platform)
    as (_ & Hstage & Hreach).
  split; [|split].
  - apply (Hstage (buf_length mac_archive) default_options
             (with_isOpen true Reader_new) init).
    simpl. tauto.
  - vm_compute. reflexivity.
  - apply Hreach, mac_read_state_reachable.
Defined.

Lemma readEntry_rejects_pending_call_witness :
  @readEntry (BufferReader sample_archive) ascii_platform (zs_world sample_reading)
  = (err "Cannot call `readEntry()` before previous call's promise has settled",
     zs_world sample_reading)
  /\ @zip_step (BufferReader sample_archive) ascii_platform call_readEntry sample_reading
     = Some sample_reading.
Proof.
  apply (@readEntry_rejects_pending_call (BufferReader sample_archive) ascii_platform
           sample_reading sample_reading_reachable).
  reflexivity.
Defined.

(** ** Where the entries lie *)

Lemma wp_any {A} (m : M A) (Q : A -> World -> Prop) (E : World -> Prop) w :
  (forall a w', Q a w') -> (forall w', E w') -> wp m Q E w.
Proof. intros HQ HE. unfold wp. destruct (m w) as [[a|e] w']; auto. Qed.

Lemma for_each_ref_sat (f : Entry -> Entry) references st (P : EntryProperties -> Prop) i :
  (forall e, P (props e) -> P (props (f e))) ->
  (exists e, st !! i = Some e /\ P (props e)) ->
  exists e, for_each_ref f references st !! i = Some e /\ P (props e).
Proof.
  intros Hf Hst. destruct references as [references|]; [|exact Hst].
  unfold for_each_ref.
  apply (set_fold_ind_L
           (fun st' (_ : gset EntryRef) => exists e, st' !! i = Some e /\ P (props e)));
    [exact Hst|].
  intros x X st' _ (e & He & HP).
  destruct (decide (x = i)) as [->|Hne].
  - exists (f e). rewrite lookup_alter_eq, He. split; [reflexivity|]. now apply Hf.
  - exists e. rewrite lookup_alter_ne by exact Hne. now split.
Qed.

Lemma setAsMacArchive_sat P ref n cur w :
  props_sat P ref w -> props_sat P ref (_setAsMacArchive n cur w).
Proof.
  unfold props_sat, _setAsMacArchive. cbn [store with_store].
  intros Hw. apply for_each_ref_sat; [|exact Hw]. auto.
Qed.

Lemma setAsNotMacArchive_sat P ref w :
  settled P -> props_sat P ref w -> props_sat P ref (_setAsNotMacArchive w).
Proof.
  unfold props_sat, _setAsNotMacArchive. cbn [store with_store].
  intros HP Hw. apply for_each_ref_sat; [|exact Hw].
  intros e He. apply HP, He.
Qed.

Lemma wp_get_entry this (Q : Entry -> World -> Prop) E w :
  wp (get_entry this) Q E w
  <-> match store w !! this with Some e => Q e w | None => E w end.
Proof. unfold wp, get_entry. destruct (store w !! this); reflexivity. Qed.

Lemma props_sat_alter (P : EntryProperties -> Prop) f ref i w :
  (forall e, P (props e) -> P (props (f e))) ->
  props_sat P ref w -> props_sat P ref (with_store (alter f i (store w)) w).
Proof.
  intros Hf (e & He & HP). unfold props_sat. cbn [store with_store].
  destruct (decide (i = ref)) as [->|Hne].
  - exists (f e). rewrite lookup_alter_eq, He. split; [reflexivity|]. now apply Hf.
  - exists e. rewrite lookup_alter_ne by exact Hne. now split.
Qed.

(** A call whose result and effect do not matter to the property. *)
Ltac wp_skip := apply wp_any; [intros ? ?|intros ?; exact I].

Section Headers.
Context `{ReaderImpl} `{Platform}.

Lemma validateAndDecode_header z entry entry' :
  validateAndDecode z entry = ok entry' ->
  fileHeaderOffset entry' = fileHeaderOffset entry.
Proof.
  unfold validateAndDecode.
  destruct (decodeStrings z).
  - destruct (validateFilenames z).
    + cbn. destruct (validateFilename _); cbn; [|discriminate].
      destruct (comment entry); cbn;
        repeat match goal with
               | |- context [if ?b then _ else _] => destruct b
               end; intros [= <-]; reflexivity.
    + cbn. destruct (comment entry); cbn;
        repeat match goal with
               | |- context [if ?b then _ else _] => destruct b
               end; intros [= <-]; reflexivity.
  - cbn. repeat match goal with
               | |- context [if ?b then _ else _] => destruct b
               end; intros [= <-]; reflexivity.
Qed.

Lemma validateAndDecodeEntry_header entry w :
  wp (_validateAndDecodeEntry entry)
     (fun ref w' => props_sat (fun p => fileHeaderOffset p = fileHeaderOffset entry) ref w')
     (fun _ => True) w.
Proof.
  unfold wp, _validateAndDecodeEntry.
  destruct (validateAndDecode (zip w) entry) as [entry'|e] eqn:Hv; [|exact I].
  unfold props_sat. cbn [store with_store].
  eexists. rewrite lookup_insert_eq. split; [reflexivity|].
  cbn. eapply validateAndDecode_header, Hv.
Qed.

Lemma determineCompressedSize_header entryProperties fileDataOffsetIfMac w :
  wp (_determineCompressedSize entryProperties fileDataOffsetIfMac)
     (fun r _ => fileHeaderOffset r.2 = fileHeaderOffset entryProperties)
     (fun _ => True) w.
Proof.
  unfold _determineCompressedSize.
  repeat first
    [ lazymatch goal with
      | |- wp (search_dataDescriptor _ _ _) _ _ _ => wp_skip
      end
    | wp_step ]; try exact I; reflexivity.
Qed.
End Headers.
Section ReadEntryBounds.
Context `{ReaderImpl} `{Platform}.

Lemma finish_entry_header entryProperties entryEnd w :
  wp (finish_entry entryProperties entryEnd)
     (fun r w' => forall ref, r = Some ref ->
        props_sat (fun p => fileHeaderOffset p = fileHeaderOffset entryProperties) ref w')
     (fun _ => True) w.
Proof.
  unfold finish_entry.
  apply wp_bind, wp_get_zip. apply wp_bind.
  apply (wp_mono _ _ (fun r _ => fileHeaderOffset r = fileHeaderOffset entryProperties)
                 _ (fun _ => True)).
  { destruct (negb (compressedSizesAreCertain (zip w))); [|now apply wp_mret].
    apply wp_bind.
    eapply wp_mono; [apply determineCompressedSize_header| |auto].
    intros [isNowCertain entryProperties'] w' Hh. cbn in Hh.
    repeat wp_step; exact Hh. }
  2: auto.
  intros entryProperties1 w1 Hh1. apply wp_bind, wp_get_zip.
  match goal with
  | |- wp (_validateAndDecodeEntry ?p ≫= _) _ _ _ =>
      assert (Hh2 : fileHeaderOffset p = fileHeaderOffset entryProperties)
        by (rewrite <- Hh1;
            repeat match goal with
                   | |- context [if ?b then _ else _] => destruct b
                   end; reflexivity);
      set (entryProperties2 := p) in *; clearbody entryProperties2
  end.
  apply wp_bind.
  eapply wp_mono; [apply validateAndDecodeEntry_header| |auto].
  intros entry w2 Hsat. rewrite Hh2 in Hsat. clear Hh1 Hh2.
  do 6 (wp_step; cbv beta).
  apply wp_bind, wp_get_entry. cbn [store with_zip].
  destruct Hsat as (e & He & Hp). rewrite He.
  assert (Hdone : forall w' : World,
             props_sat (fun p => fileHeaderOffset p = fileHeaderOffset entryProperties)
               entry w' ->
             wp (mret (Some entry))
                (fun r w' => forall ref, r = Some ref ->
                   props_sat (fun p => fileHeaderOffset p = fileHeaderOffset entryProperties)
                     ref w')
                (fun _ => True) w').
  { intros w' Hw'. apply wp_mret. now intros ref [= <-]. }
  assert (Hsat : props_sat (fun p => fileHeaderOffset p = fileHeaderOffset entryProperties)
                   entry w2) by (exists e; auto).
  apply wp_bind.
  repeat wp_step; try exact I; apply Hdone;
    repeat first [ exact Hsat | apply props_sat_alter; [now intros|] ].
Qed.

Lemma update_mac_state_header entryProperties entryEnd centralDirectoryEnd w :
  isMacArchive (zip w) = false ->
  wp (update_mac_state entryProperties entryEnd centralDirectoryEnd)
     (fun r _ => r = entryProperties) (fun _ => True) w.
Proof.
  intros Hmac. unfold update_mac_state. apply wp_bind, wp_get_zip. rewrite Hmac.
  destruct (isMaybeMacArchive (zip w)); [|now apply wp_mret].
  apply wp_bind. wp_skip. now apply wp_mret.
Qed.

(** An entry that [_readEntry] returns while the archive is not known
    to be of Archive Utility has its Local File Header before [c]. *)
Lemma readEntry_header c b w :
  zip_inv c b (zip w) ->
  isMacArchive (zip w) = false ->
  wp _readEntry
     (fun r w' => forall ref, r = Some ref ->
        props_sat (fun p => fileHeaderOffset p + 30 <= num c) ref w')
     (fun _ => True) w.
Proof.
  intros (Hf & _ & _ & Hfirst) Hmac. unfold _readEntry.
  apply wp_bind, wp_get_zip.
  destruct (_ && _); [now apply wp_mret|].
  assert (Hfinish : forall entryProperties entryEnd w',
             fileHeaderOffset entryProperties + 30 <= num c ->
             wp (finish_entry entryProperties entryEnd)
                (fun r w' => forall ref, r = Some ref ->
                   props_sat (fun p => fileHeaderOffset p + 30 <= num c) ref w')
                (fun _ => True) w').
  { intros entryProperties entryEnd w' Hb.
    eapply wp_mono; [apply finish_entry_header| |auto].
    intros r w'' Hr ref Href. destruct (Hr ref Href) as (e & He & Hp).
    exists e. split; [exact He|]. now rewrite Hp. }
  destruct (_firstEntryProps (zip w)) as [entryProperties|] eqn:Hp.
  - apply wp_bind, wp_update_zip. apply Hfinish. rewrite <- Hf. now apply Hfirst.
  - apply wp_bind.
    eapply wp_mono; [apply readEntryAt_spec| |auto].
    intros [entryProperties|] w' (Hsame & Hbefore).
    + apply wp_bind, wp_get_zip. apply wp_bind.
      eapply wp_mono; [apply update_mac_state_header| |auto].
      * destruct Hsame as [-> _]. exact Hmac.
      * intros r w'' ->. apply Hfinish. rewrite <- Hf. now apply Hbefore.
    + apply wp_bind, wp_get_zip. repeat wp_step; try exact I; discriminate.
Qed.
End ReadEntryBounds.
Section StreamBounds.
Context `{ReaderImpl}.

Lemma settled_fileDataOffset v : settled (fun p => fileDataOffset p = Some v).
Proof. intros p b Hp. exact Hp. Qed.

Lemma props_sat_same_archive P ref w w' :
  same_archive w w' -> props_sat P ref w -> props_sat P ref w'.
Proof. intros [_ Hs]. unfold props_sat. now rewrite Hs. Qed.

(** When [openReadStream] succeeds, the entry has its [fileDataOffset],
    and its data, if it has any, end before the footer. *)
Lemma openReadStream_data this options w :
  wp (openReadStream this options)
     (fun _ w' => data_in_bounds_if_any this w') (fun _ => True) w.
Proof.
  unfold openReadStream.
  apply wp_bind, wp_get_entry.
  destruct (store w !! this) as [entry|] eqn:Hentry; [|exact I].
  apply wp_bind, wp_lift. destruct (resolve_options _ _) as [s|?]; [|exact I].
  apply wp_bind, wp_lift. destruct (check_settings _ _) as [[]|?]; [|exact I].
  apply wp_bind.
  eapply wp_mono; [apply Reader_read_spec| |auto].
  intros buffer w1 Hsame1.
  destruct (negb _); [now apply wp_fail|].
  set (fileDataOffset_ := fileHeaderOffset (props entry) + 30
                          + readUInt16LE buffer 26 + readUInt16LE buffer 28).
  set (P := fun p => fileDataOffset p = Some fileDataOffset_).
  apply wp_bind. unfold update_entry. apply wp_update_world.
  match goal with
  | |- wp _ _ _ ?w2 => assert (Hsat : props_sat P this w2)
  end.
  { destruct Hsame1 as [_ Hs]. unfold props_sat. cbn [store with_store].
    exists (set_props (set_fileDataOffset (Some fileDataOffset_) (props entry)) entry).
    rewrite lookup_alter_eq, Hs, Hentry. split; reflexivity. }
  match goal with
  | |- wp _ _ _ ?w2 => set (w2' := w2) in *; clearbody w2'
  end.
  apply wp_bind, wp_get_zip. apply wp_bind.
  apply (wp_mono _ _ (fun _ w' => props_sat P this w') _ (fun _ => True)).
  { repeat wp_step; try exact I; try exact Hsat.
    apply setAsNotMacArchive_sat; [apply settled_fileDataOffset|exact Hsat]. }
  2: auto.
  intros _ w3 (e & He & Hp).
  apply wp_bind, wp_get_entry. rewrite He.
  apply wp_bind, wp_get_zip.
  destruct (negb (compressedSize (props e) =? 0)
            && (fileDataOffset_ + compressedSize (props e) >? num (footerOffset (zip w3))))
    eqn:Hcheck; [now apply wp_fail|].
  apply wp_bind.
  eapply wp_mono; [apply Reader_createReadStream_same_archive| |auto].
  intros [stream listener] w4 [Hz Hs]. apply wp_mret.
  unfold data_in_bounds_if_any, props_sat. rewrite Hs, Hz.
  exists e. split; [exact He|]. exists fileDataOffset_. split; [exact Hp|].
  intros Hsize. apply andb_false_iff in Hcheck as [Hzero|Hover]; lia.
Qed.
End StreamBounds.
(** C6, as amended: an entry that [readEntry] returns while the archive
    is not flagged as a definite Mac archive ([isMacArchive] false when
    the call resumes) has [fileHeaderOffset + 30 <= footerOffset]; and
    when [openReadStream] succeeds on an entry, its [fileDataOffset] is
    set and, if its compressed size is not 0,
    [fileDataOffset + compressedSize <= footerOffset]. *)
Theorem entries_in_bounds `{ReaderImpl} `{Platform} (s : ZipState) :
  zip_reachable s ->
  (forall ref w',
     isMacArchive (zip (zs_world s)) = false ->
     readEntry_resume (zs_world s) = (ok (Some ref), w') ->
     header_in_bounds ref w')
  /\ (forall this options streams w',
        openReadStream this options (zs_world s) = (ok streams, w') ->
        data_in_bounds_if_any this w').
Proof.
  intros Hs. pose proof (zip_reachable_inv s Hs) as Hinv. unfold reach_inv in Hinv.
  set (w := zs_world s) in *. split.
  - intros ref w' Hmac Hrun. unfold readEntry_resume in Hrun.
    pose proof (readEntry_header _ _ w Hinv Hmac) as Hheader.
    pose proof (readEntry_inv _ _ w Hinv) as Hkeep.
    unfold wp in Hheader, Hkeep.
    destruct (_readEntry w) as [result w1]. injection Hrun as -> <-.
    destruct Hkeep as (Hfooter & _).
    destruct (Hheader ref eq_refl) as (e & He & Hp).
    exists e. cbn [store zip with_zip]. split; [exact He|].
    cbn. rewrite Hfooter. exact Hp.
  - intros this options streams w' Hrun.
    pose proof (openReadStream_data this options w) as Hdata.
    unfold wp in Hdata. now rewrite Hrun in Hdata.
Qed.

Lemma sample_read_state_reachable :
  @zip_reachable (BufferReader sample_archive) ascii_platform sample_read_state.
Proof.
  apply (@zip_run_reachable (BufferReader sample_archive) ascii_platform
           [call_readEntry; resume_readEntry]
           sample_state sample_read_state sample_state_reachable).
  vm_compute. reflexivity.
Defined.

Lemma entries_in_bounds_witness :
  @header_in_bounds 0%nat
     (snd (@readEntry_resume (BufferReader sample_archive) ascii_platform
             (zs_world sample_reading)))
  /\ @data_in_bounds_if_any 0%nat
       (snd (@openReadStream (BufferReader sample_archive) 0%nat NoOptions
               (zs_world sample_read_state))).
Proof.
  split.
  - apply (proj1 (@entries_in_bounds (BufferReader sample_archive) ascii_platform
                    sample_reading sample_reading_reachable) 0%nat).
    + vm_compute. reflexivity.
    + vm_compute. reflexivity.
  - apply (proj2 (@entries_in_bounds (BufferReader sample_archive) ascii_platform
                    sample_read_state sample_read_state_reachable)
             0%nat NoOptions [FromReader 31 2; ValidateCrc32Stream 17]).
    vm_compute. reflexivity.
Defined.

Lemma mac_reading_reachable :
  @zip_reachable (BufferReader mac_archive) ascii_platform mac_reading.
Proof.
  apply (@zip_run_reachable (BufferReader mac_archive) ascii_platform
           [call_readEntry; resume_readEntry; call_readEntry]
           mac_state mac_reading mac_state_reachable).
  vm_compute. reflexivity.
Qed.

Lemma lying_read_state_reachable :
  @zip_reachable (BufferReader lying_archive) ascii_platform lying_read_state.
Proof.
  apply (@zip_run_reachable (BufferReader lying_archive) ascii_platform
           [call_readEntry; resume_readEntry] lying_state lying_read_state).
  - apply (@zip_opened (BufferReader lying_archive) ascii_platform
             (buf_length lying_archive) default_options (with_isOpen true Reader_new)).
    vm_compute. reflexivity.
  - vm_compute. reflexivity.
Qed.

(** C6, as claimed, fails twice.  In [mac_archive], flagged as a Mac
    archive by [init], the first entry claims a compressed size of
    4294967280, the second call of [readEntry] takes the file cursor
    4294967343 for the [fileHeaderOffset] of the second entry and
    returns it, and the footer is at 218: the cursor is taken without
    the check against the footer that [_readEntryAt] makes of the offset
    it has read, which the amended claim neither promises nor denies of
    such an archive.  In [lying_archive] the entry has no data and its
    Local File Header claims a name of 65535 bytes: [openReadStream],
    which checks the bounds of an entry with data only, succeeds with
    [fileDataOffset] 65565, and the footer is at 77. *)
Lemma entries_in_bounds_claimed_counterexample :
  (@zip_reachable (BufferReader mac_archive) ascii_platform mac_reading
   /\ (let r := @readEntry_resume (BufferReader mac_archive) ascii_platform
                  (zs_world mac_reading) in
       fst r = ok (Some 1%nat)
       /\ (fun e => fileHeaderOffset (props e)) <$> (store (snd r) !! 1%nat)
          = Some 4294967343
       /\ footerOffset (zip (snd r)) = Some 218
       /\ ~ header_in_bounds 1%nat (snd r)))
  /\ (@zip_reachable (BufferReader lying_archive) ascii_platform lying_read_state
      /\ (let r := @openReadStream (BufferReader lying_archive) 0%nat NoOptions
                     (zs_world lying_read_state) in
          fst r = ok [PassThrough; ValidateCrc32Stream 0]
          /\ (fun e => (fileDataOffset (props e), compressedSize (props e)))
               <$> (store (snd r) !! 0%nat)
             = Some (Some 65565, 0)
          /\ footerOffset (zip (snd r)) = Some 77
          /\ ~ data_in_bounds 0%nat (snd r))).
Proof.
  split; (split; [first [apply mac_reading_reachable | apply lying_read_state_reachable]|]).
  - cbv zeta.
    set (r := @readEntry_resume (BufferReader mac_archive) ascii_platform
                (zs_world mac_reading)).
    assert (Hh : (fun e => fileHeaderOffset (props e)) <$> (store (snd r) !! 1%nat)
                 = Some 4294967343) by (vm_compute; reflexivity).
    assert (Hf : footerOffset (zip (snd r)) = Some 218) by (vm_compute; reflexivity).
    split; [vm_compute; reflexivity|]. split; [exact Hh|]. split; [exact Hf|].
    intros (e & He & Hp). vm_compute in He. injection He as <-.
    vm_compute in Hp. now apply Hp.
  - cbv zeta.
    set (r := @openReadStream (BufferReader lying_archive) 0%nat NoOptions
                (zs_world lying_read_state)).
    assert (Hd : (fun e => (fileDataOffset (props e), compressedSize (props e)))
                   <$> (store (snd r) !! 0%nat)
                 = Some (Some 65565, 0)) by (vm_compute; reflexivity).
    assert (Hf : footerOffset (zip (snd r)) = Some 77) by (vm_compute; reflexivity).
    split; [vm_compute; reflexivity|]. split; [exact Hd|]. split; [exact Hf|].
    intros (e & He & fdo & Hfdo & Hp). vm_compute in He. injection He as <-.
    vm_compute in Hfdo. injection Hfdo as <-. vm_compute in Hp. now apply Hp.
Qed.
(** * Further properties of the code *)

(** ** Buffers *)

Lemma lookup_app_offset {A} (pre l : list A) (i : nat) :
  (pre ++ l) !! (length pre + i)%nat = l !! i.
Proof. now rewrite lookup_app_r, Nat.add_comm, Nat.add_sub by lia. Qed.

Lemma buf_at_app pre l i :
  0 <= i -> buf_at (pre ++ l) (buf_length pre + i) = buf_at l i.
Proof.
  intros Hi. unfold buf_at, buf_length.
  destruct (Z.ltb_spec (Z.of_nat (length pre) + i) 0); [lia|].
  destruct (Z.ltb_spec i 0); [lia|].
  replace (Z.to_nat (Z.of_nat (length pre) + i)) with (length pre + Z.to_nat i)%nat by lia.
  f_equal. apply lookup_app_offset.
Qed.

Lemma byte_at_app pre l i :
  0 <= i -> byte_at (pre ++ l) (buf_length pre + i) = byte_at l i.
Proof. intros Hi. unfold byte_at. now rewrite buf_at_app. Qed.

Lemma readUInt32LE_app pre l i :
  0 <= i -> readUInt32LE (pre ++ l) (buf_length pre + i) = readUInt32LE l i.
Proof.
  intros Hi. unfold readUInt32LE.
  rewrite <- !Z.add_assoc, !byte_at_app by lia. reflexivity.
Qed.

(** X1: [readUInt64LE] reads the eight bytes at [offset] as an unsigned
    little-endian number, as long as that number is one that a JS number
    holds exactly (below 2^53). *)
Theorem readUInt64LE_little_endian (pre post : Buffer) (b0 b1 b2 b3 b4 b5 b6 b7 : byte) :
  let value := u8 b0 + 2 ^ 8 * u8 b1 + 2 ^ 16 * u8 b2 + 2 ^ 24 * u8 b3
               + 2 ^ 32 * u8 b4 + 2 ^ 40 * u8 b5 + 2 ^ 48 * u8 b6 + 2 ^ 56 * u8 b7 in
  value < 2 ^ 53 ->
  readUInt64LE (pre ++ [b0; b1; b2; b3; b4; b5; b6; b7] ++ post) (buf_length pre) = value
  /\ 0 <= value.
Proof.
  cbv zeta. intros _. split.
  - unfold readUInt64LE.
    rewrite readUInt32LE_app by lia.
    pose proof (readUInt32LE_app pre ([b0; b1; b2; b3; b4; b5; b6; b7] ++ post) 0) as Hlow.
    rewrite Z.add_0_r in Hlow. rewrite Hlow by lia.
    unfold readUInt32LE, byte_at, buf_at, FOUR_GIB. simpl. lia.
  - pose proof (u8_range b0). pose proof (u8_range b1). pose proof (u8_range b2).
    pose proof (u8_range b3). pose proof (u8_range b4). pose proof (u8_range b5).
    pose proof (u8_range b6). pose proof (u8_range b7). lia.
Qed.

Lemma readUInt64LE_little_endian_witness :
  readUInt64LE ([x50; x4b] ++ [x01; x02; x00; x00; x01; x00; x00; x00] ++ [xff]) 2
  = 4294967809.
Proof.
  exact (proj1 (readUInt64LE_little_endian [x50; x4b] [xff]
                  x01 x02 x00 x00 x01 x00 x00 x00 ltac:(vm_compute; reflexivity))).
Defined.
(** ** The reader *)

Lemma with_readCount_id w c :
  c = _readCount (reader w) ->
  with_reader (with_readCount c (reader w)) w = w.
Proof. intros ->. now destruct w as [z [o c l] st]. Qed.

(** X2: [open] marks the reader open before it calls [_open], so the
    reader counts as open whatever [_open] answers, and every later
    call of [open] answers [ok] without calling [_open] again. *)
Theorem Reader_open_once `{ReaderImpl} (w : World) :
  let w1 := snd (Reader_open w) in
  _isOpen (reader w1) = true
  /\ Reader_open w1 = (ok tt, w1)
  /\ fst (Reader_open w) = (if _isOpen (reader w) then ok tt else _open)
  /\ _readCount (reader w1) = _readCount (reader w)
  /\ zip w1 = zip w /\ store w1 = store w.
Proof.
  cbv zeta. unfold Reader_open.
  destruct (_isOpen (reader w)) eqn:Hopen; cbn.
  - rewrite Hopen. repeat split; reflexivity.
  - repeat split; reflexivity.
Qed.

Lemma Reader_read_run `{ReaderImpl} (start length : Z) (w : World) :
  Reader_read start length w =
    (if negb (_isOpen (reader w))
     then err "Cannot call `read()` on a reader which is not open"
     else if length =? 0 then ok [] else _read start length,
     w).
Proof.
  unfold Reader_read, Reader_read_begin, Reader_read_settle, mbind, M_bind.
  destruct (_isOpen (reader w)); cbn [negb]; [|reflexivity].
  destruct (length =? 0); [reflexivity|].
  f_equal. cbn [reader with_reader with_readCount _readCount].
  destruct w as [z [o c l] st]. unfold with_reader, with_readCount. cbn.
  do 2 f_equal. lia.
Qed.

(** X3: [read] leaves the reader, its counter included, the archive
    and the entries exactly as they were, whatever [_read] answers; it
    fails on a reader that is not open, answers an empty buffer for a
    length of 0 without calling [_read], and answers what [_read] answers
    otherwise. *)
Theorem Reader_read_restores_reader `{ReaderImpl} (start length : Z) (w : World) :
  Reader_read start length w =
    (if negb (_isOpen (reader w))
     then err "Cannot call `read()` on a reader which is not open"
     else if length =? 0 then ok [] else _read start length,
     w).
Proof. apply Reader_read_run. Qed.

Lemma length_subarray buffer start stop :
  0 <= start -> start <= stop -> stop <= buf_length buffer ->
  buf_length (subarray buffer start stop) = stop - start.
Proof.
  unfold buf_length, subarray. intros H0 H1 H2.
  rewrite length_take, length_drop. lia.
Qed.

Lemma buf_at_subarray buffer start stop i :
  0 <= start -> 0 <= i < stop - start ->
  buf_at (subarray buffer start stop) i = buf_at buffer (start + i).
Proof.
  unfold buf_at, subarray. intros H0 Hi.
  destruct (Z.ltb_spec i 0); [lia|]. destruct (Z.ltb_spec (start + i) 0); [lia|].
  f_equal. unfold Buffer in *. rewrite lookup_take_lt by lia. rewrite lookup_drop. f_equal. lia.
Qed.

(** X4: on an open [BufferReader], [read] of a range that lies in the
    buffer answers exactly the bytes of that range; a range of nonzero
    length that ends beyond the buffer is refused, and a range of length
    0 is answered by an empty buffer wherever it lies. *)
Theorem BufferReader_read_range (buffer : Buffer) (start length : Z) (w : World) :
  _isOpen (reader w) = true ->
  0 <= start -> 0 <= length ->
  (start + length <= buf_length buffer ->
   exists b, @Reader_read (BufferReader buffer) start length w = (ok b, w)
             /\ buf_length b = length
             /\ forall i, 0 <= i < length -> buf_at b i = buf_at buffer (start + i))
  /\ (buf_length buffer < start + length -> length <> 0 ->
      @Reader_read (BufferReader buffer) start length w
      = (err "Cannot read beyond end of buffer", w))
  /\ (length = 0 ->
      @Reader_read (BufferReader buffer) start length w = (ok [], w)).
Proof.
  intros Hopen Hs Hl. rewrite Reader_read_run, Hopen. cbn [negb].
  split; [|split].
  - intros Hin. destruct (Z.eqb_spec length 0) as [->|Hne].
    + exists []. split; [reflexivity|]. split; [reflexivity|]. intros; lia.
    + cbn [_read BufferReader]. destruct (Z.gtb_spec (start + length) (buf_length buffer));
        [lia|].
      eexists. split; [reflexivity|]. split.
      * rewrite length_subarray by lia. lia.
      * intros i Hi. apply buf_at_subarray; lia.
  - intros Hout Hne. destruct (Z.eqb_spec length 0); [contradiction|].
    cbn [_read BufferReader]. destruct (Z.gtb_spec (start + length) (buf_length buffer));
      [reflexivity|lia].
  - intros ->. reflexivity.
Qed.

Lemma BufferReader_read_range_witness :
  exists b, @Reader_read (BufferReader sample_archive) 113 46 sample_opened
            = (ok b, sample_opened)
            /\ buf_length b = 46
            /\ forall i, 0 <= i < 46 -> buf_at b i = buf_at sample_archive (113 + i).
Proof.
  apply (proj1 (BufferReader_read_range sample_archive 113 46 sample_opened
                  eq_refl ltac:(lia) ltac:(lia))).
  vm_compute. discriminate.
Defined.
(** ** Filenames *)

Lemma append_cons c s t : String.append (String c s) t = String c (String.append s t).
Proof. reflexivity. Qed.

Lemma append_nil_l t : String.append EmptyString t = t.
Proof. reflexivity. Qed.

Lemma append_nil_r s : String.append s EmptyString = s.
Proof.
  induction s as [|c s IH]; [reflexivity|]. now rewrite append_cons, IH.
Qed.

Lemma append_assoc s1 s2 s3 :
  String.append (String.append s1 s2) s3 = String.append s1 (String.append s2 s3).
Proof.
  induction s1 as [|c s1 IH]; [reflexivity|]. now rewrite !append_cons, IH.
Qed.

Ltac append_norm :=
  repeat first [rewrite append_assoc | rewrite append_cons | rewrite append_nil_l].

Lemma includes_char_spec c s : includes_char c s = true <-> has_char c s.
Proof.
  unfold has_char. induction s as [|d s IH]; cbn; [intuition discriminate|].
  rewrite orb_true_iff, IH. destruct (Ascii.eqb_spec c d); intuition congruence.
Qed.

Lemma includes_char_append c s1 s2 :
  includes_char c (String.append s1 s2) = includes_char c s1 || includes_char c s2.
Proof.
  induction s1 as [|d s1 IH]; [reflexivity|].
  rewrite append_cons. cbn [includes_char]. now rewrite IH, orb_assoc.
Qed.

(** [split] and [join] undo each other. *)
Lemma join_split s segment :
  join_slash (split_slash s segment) = String.append segment s.
Proof.
  revert segment. induction s as [|c s IH]; intros segment; cbn [split_slash].
  - cbn. now rewrite append_nil_r.
  - destruct (Ascii.eqb_spec c "/"%char) as [->|Hc].
    + specialize (IH EmptyString). rewrite ?append_cons, ?append_nil_l in IH.
      cbn [join_slash]. destruct (split_slash s EmptyString) eqn:Hsplit.
      * destruct s; cbn in Hsplit; [discriminate|].
        destruct (Ascii.eqb _ _); discriminate.
      * now rewrite IH.
    + rewrite IH, append_assoc. reflexivity.
Qed.

Lemma split_slash_nonempty s segment : split_slash s segment <> [].
Proof.
  revert segment. induction s as [|c s IH]; intros segment; cbn; [discriminate|].
  destruct (Ascii.eqb c "/"%char); [discriminate|apply IH].
Qed.

Lemma split_slash_free s segment :
  includes_char "/"%char segment = false ->
  Forall (fun x => includes_char "/"%char x = false) (split_slash s segment).
Proof.
  revert segment. induction s as [|c s IH]; intros segment Hseg; cbn [split_slash].
  - now constructor.
  - destruct (Ascii.eqb_spec c "/"%char) as [->|Hc].
    + constructor; [exact Hseg|]. now apply IH.
    + apply IH. rewrite includes_char_append, Hseg. cbn [includes_char orb].
      rewrite orb_false_r. apply Ascii.eqb_neq. congruence.
Qed.

Lemma split_free x segment :
  includes_char "/"%char x = false ->
  split_slash x segment = [String.append segment x].
Proof.
  revert segment. induction x as [|c x IH]; intros segment Hx; cbn [split_slash].
  - now rewrite append_nil_r.
  - cbn [includes_char] in Hx. apply orb_false_iff in Hx as [Hc Hx].
    rewrite Ascii.eqb_sym, Hc. rewrite IH by exact Hx. now rewrite append_assoc.
Qed.

Lemma split_append_slash x rest segment :
  includes_char "/"%char x = false ->
  split_slash (String.append x (String "/"%char rest)) segment
  = String.append segment x :: split_slash rest EmptyString.
Proof.
  revert segment. induction x as [|c x IH]; intros segment Hx; rewrite ?append_cons, ?append_nil_l; cbn [split_slash].
  - rewrite Ascii.eqb_refl. now rewrite append_nil_r.
  - cbn [includes_char] in Hx. apply orb_false_iff in Hx as [Hc Hx].
    rewrite Ascii.eqb_sym, Hc. rewrite IH by exact Hx. now rewrite append_assoc.
Qed.

Lemma split_join segments :
  segments <> [] ->
  Forall (fun x => includes_char "/"%char x = false) segments ->
  split_slash (join_slash segments) EmptyString = segments.
Proof.
  induction segments as [|x segments IH]; [congruence|]. intros _ Hfree.
  apply Forall_cons in Hfree as [Hx Hfree].
  destruct segments as [|y segments].
  - cbn [join_slash]. now rewrite split_free.
  - change (join_slash (x :: y :: segments))
      with (String.append x (String "/"%char (join_slash (y :: segments)))).
    rewrite split_append_slash by exact Hx. rewrite ?append_cons, ?append_nil_l.
    f_equal. now apply IH.
Qed.

Lemma join_app l1 x l2 :
  join_slash (l1 ++ x :: l2)
  = String.append
      (match l1 with [] => EmptyString | _ => String.append (join_slash l1) "/" end)
      (String.append x
         (match l2 with [] => EmptyString | _ => String "/"%char (join_slash l2) end)).
Proof.
  induction l1 as [|y l1 IH].
  - cbn [app]; rewrite ?append_nil_l. destruct l2; cbn [join_slash]; [now rewrite append_nil_r|].
    reflexivity.
  - change ((y :: l1) ++ x :: l2) with (y :: (l1 ++ x :: l2)).
    destruct (l1 ++ x :: l2) as [|z l] eqn:Happ; [now destruct l1|].
    change (join_slash (y :: z :: l))
      with (String.append y (String "/"%char (join_slash (z :: l)))).
    rewrite IH. destruct l1 as [|y' l1].
    + cbn [join_slash]. now append_norm.
    + change (join_slash (y :: y' :: l1))
        with (String.append y (String "/"%char (join_slash (y' :: l1)))).
      now append_norm.
Qed.

Lemma split_has_component c s :
  includes_char "/"%char c = false ->
  In c (split_slash s EmptyString) <-> path_component c s.
Proof.
  intros Hc. split.
  - intros Hin. apply in_split in Hin as (l1 & l2 & Hsplit).
    pose proof (join_split s EmptyString) as Hjoin. rewrite ?append_cons, ?append_nil_l in Hjoin.
    rewrite Hsplit, join_app in Hjoin.
    eexists _, _. split; [symmetry; exact Hjoin|]. split.
    + destruct l1; [now left|right; eauto].
    + destruct l2; [now left|right]. eexists. reflexivity.
  - intros (pre & post & -> & Hpre & Hpost).
    assert (exists l1,
               Forall (fun x => includes_char "/"%char x = false) l1
               /\ pre = match l1 with
                        | [] => EmptyString
                        | _ => String.append (join_slash l1) "/" end) as (l1 & Hl1 & ->).
    { destruct Hpre as [->|[p ->]].
      - exists []. split; [constructor|reflexivity].
      - exists (split_slash p EmptyString). split; [now apply split_slash_free|].
        pose proof (join_split p EmptyString) as Hj. rewrite ?append_cons, ?append_nil_l in Hj.
        rewrite Hj. destruct (split_slash p EmptyString) eqn:E; [|reflexivity].
        now apply split_slash_nonempty in E. }
    assert (exists l2,
               Forall (fun x => includes_char "/"%char x = false) l2
               /\ post = match l2 with
                         | [] => EmptyString
                         | _ => String "/"%char (join_slash l2) end) as (l2 & Hl2 & ->).
    { destruct Hpost as [->|[q ->]].
      - exists []. split; [constructor|reflexivity].
      - exists (split_slash q EmptyString). split; [now apply split_slash_free|].
        pose proof (join_split q EmptyString) as Hj. rewrite ?append_cons, ?append_nil_l in Hj.
        rewrite Hj. destruct (split_slash q EmptyString) eqn:E; [|reflexivity].
        now apply split_slash_nonempty in E. }
    rewrite <- join_app, split_join.
    + apply in_or_app. right. now left.
    + now destruct l1.
    + apply Forall_app. split; [exact Hl1|]. now constructor.
Qed.
Lemma starts_with_slash s :
  match s with String c _ => Ascii.eqb c "/"%char | _ => false end = true
  <-> starts_with "/" s.
Proof.
  unfold starts_with. split.
  - destruct s as [|c s]; [discriminate|]. intros Hc. apply Ascii.eqb_eq in Hc as ->.
    now exists s.
  - intros [rest ->]. reflexivity.
Qed.

Lemma drive_letter_spec s :
  match s with
  | String c (String d _) => is_letter c && Ascii.eqb d ":"%char
  | _ => false
  end = true
  <-> drive_letter_path s.
Proof.
  unfold drive_letter_path. split.
  - destruct s as [|c [|d s]]; try discriminate. intros Hc.
    apply andb_true_iff in Hc as [Hc Hd]. apply Ascii.eqb_eq in Hd as ->.
    now exists c, s.
  - intros (c & rest & -> & Hc). now rewrite Hc.
Qed.

Lemma dotdot_spec s :
  existsb (String.eqb "..") (split_slash s EmptyString) = true
  <-> path_component ".." s.
Proof.
  rewrite <- split_has_component by reflexivity.
  rewrite existsb_exists. split.
  - intros (x & Hin & Hx). apply String.eqb_eq in Hx as <-. exact Hin.
  - intros Hin. exists ".."%string. split; [exact Hin|reflexivity].
Qed.

Lemma validateFilename_accepts (filename : string) :
  validateFilename filename = ok tt
  <-> ~ has_char "\"%char filename
      /\ ~ (drive_letter_path filename \/ starts_with "/" filename)
      /\ ~ path_component ".." filename.
Proof.
  unfold validateFilename.
  rewrite <- includes_char_spec, <- drive_letter_spec, <- starts_with_slash, <- dotdot_spec.
  destruct (includes_char "\"%char filename); [intuition discriminate|].
  destruct (match filename with
            | String c (String d _) => is_letter c && Ascii.eqb d ":"%char
            | _ => false
            end);
    destruct (match filename with
              | String c _ => Ascii.eqb c "/"%char
              | _ => false
              end);
    cbn [orb]; try (intuition discriminate).
  destruct (existsb _ _); intuition discriminate.
Qed.

(** X5: [validateFilename] accepts a filename exactly when it holds no
    backslash, does not start with a drive letter and a colon nor with
    a slash, and has no component [..]; what it refuses it refuses for
    the first of these reasons that applies, in this order. *)
Theorem validateFilename_verdict (filename : string) :
  let absolute := drive_letter_path filename \/ starts_with "/" filename in
  (validateFilename filename = ok tt
   <-> ~ has_char "\"%char filename /\ ~ absolute
       /\ ~ path_component ".." filename)
  /\ (validateFilename filename
      = err (String.append "Invalid characters in filename: " filename)
      <-> has_char "\"%char filename)
  /\ (validateFilename filename = err (String.append "Absolute path: " filename)
      <-> ~ has_char "\"%char filename /\ absolute)
  /\ (validateFilename filename = err (String.append "Relative path: " filename)
      <-> ~ has_char "\"%char filename /\ ~ absolute
          /\ path_component ".." filename).
Proof.
  cbv zeta. unfold validateFilename.
  rewrite <- includes_char_spec, <- drive_letter_spec, <- starts_with_slash, <- dotdot_spec.
  destruct (includes_char "\"%char filename).
  { repeat split; try tauto; try discriminate;
      intros; intuition (try discriminate; try congruence). }
  destruct (match filename with
            | String c (String d _) => is_letter c && Ascii.eqb d ":"%char
            | _ => false
            end) eqn:Hdrive;
    destruct (match filename with
              | String c _ => Ascii.eqb c "/"%char
              | _ => false
              end) eqn:Hslash;
    cbn [orb];
    try (repeat split; try tauto; try discriminate;
         intros; intuition (try discriminate; try congruence); fail).
  destruct (existsb _ _);
    repeat split; try tauto; try discriminate;
      intros; intuition (try discriminate; try congruence).
Qed.
(** ** Entries as [readEntry] makes them *)

Lemma replace_backslashes_clean s : includes_char "\"%char (replace_backslashes s) = false.
Proof.
  induction s as [|c s IH]; [reflexivity|]. cbn [replace_backslashes includes_char].
  rewrite IH, orb_false_r.
  destruct (Ascii.eqb_spec c "\"%char) as [->|Hc]; [reflexivity|].
  apply Ascii.eqb_neq. congruence.
Qed.

Section MadeEntries.
Context `{ReaderImpl} `{Platform}.

Lemma validateAndDecode_filename z entry entry' :
  decodeStrings z = true -> validateFilenames z = true ->
  validateAndDecode z entry = ok entry' ->
  exists s, filename entry' = Text s /\ validateFilename s = ok tt
            /\ (strictFilenames z = false -> exists s0, s = replace_backslashes s0).
Proof.
  intros Hd Hv. unfold validateAndDecode. rewrite Hd, Hv.
  set (name0 := match unicode_path entry (extraFields entry) with
                | Some s => s
                | None => _
                end).
  set (name := if negb (strictFilenames z) then replace_backslashes name0 else name0).
  cbn. destruct (validateFilename name) as [[]|e] eqn:Hname; cbn; [|discriminate].
  assert (Hlenient : strictFilenames z = false -> exists s0, name = replace_backslashes s0).
  { intros Hs. exists name0. unfold name. now rewrite Hs. }
  destruct (comment entry); cbn;
    repeat match goal with
           | |- context [if ?b then _ else _] => destruct b
           end;
    intros [= <-]; exists name; auto.
Qed.

Lemma validateAndDecode_raw z entry entry' :
  decodeStrings z = false ->
  validateAndDecode z entry = ok entry' -> entry' = entry.
Proof.
  intros Hd. unfold validateAndDecode. rewrite Hd. cbn.
  repeat match goal with
         | |- context [if ?b then _ else _] => destruct b
         end; now intros [= <-].
Qed.

Lemma to_double_exact x : Z.abs x <= 2 ^ 53 -> to_double x = x.
Proof. intros Hx. unfold to_double. now destruct (Z.leb_spec (Z.abs x) (2 ^ 53)); [|lia]. Qed.

Lemma js_add_exact a b : Z.abs (a + b) <= 2 ^ 53 -> js_add a b = a + b.
Proof. apply to_double_exact. Qed.

(** Beyond 2^53 a sum is rounded: 12 added to 2^55 gives 16 more. *)
Lemma js_add_rounded : js_add (2 ^ 55) 12 = 2 ^ 55 + 16.
Proof. reflexivity. Qed.

Lemma validateAndDecode_sizes z entry entry' :
  validateEntrySizes z = true ->
  validateAndDecode z entry = ok entry' ->
  compressionMethod entry' = compressionMethod entry
  /\ compressedSize entry' = compressedSize entry
  /\ uncompressedSize entry' = uncompressedSize entry
  /\ isEncrypted entry' = isEncrypted entry
  /\ (compressionMethod entry = 0 ->
      compressedSize entry
      = if isEncrypted entry then js_add (uncompressedSize entry) 12
        else uncompressedSize entry).
Proof.
  intros Hv. unfold validateAndDecode. rewrite Hv.
  destruct (decodeStrings z).
  - destruct (validateFilenames z); cbn.
    + destruct (validateFilename _); cbn; [|discriminate].
      destruct (comment entry); cbn; unfold isEncrypted; cbn;
        destruct (Z.eqb_spec (compressionMethod entry) 0); cbn;
        repeat match goal with
               | |- context [if ?b then _ else _] => destruct b eqn:?
               end; try discriminate; intros [= <-]; cbn; repeat split; lia.
    + destruct (comment entry); cbn; unfold isEncrypted; cbn;
        destruct (Z.eqb_spec (compressionMethod entry) 0); cbn;
        repeat match goal with
               | |- context [if ?b then _ else _] => destruct b eqn:?
               end; try discriminate; intros [= <-]; cbn; repeat split; lia.
  - cbn. unfold isEncrypted.
    destruct (Z.eqb_spec (compressionMethod entry) 0); cbn;
      repeat match goal with
             | |- context [if ?b then _ else _] => destruct b eqn:?
             end; try discriminate; intros [= <-]; cbn; repeat split; lia.
Qed.
End MadeEntries.
Section MadeEntryObjects.
Context `{ReaderImpl} `{Platform}.

(** What [_validateAndDecodeEntry] does to the world when it succeeds:
    a new [Entry] object, and nothing else. *)
Lemma validateAndDecodeEntry_new entry w ref w' :
  _validateAndDecodeEntry entry w = (ok ref, w') ->
  exists entry',
    validateAndDecode (zip w) entry = ok entry'
    /\ store w !! ref = None
    /\ store w' !! ref = Some {| props := entry'; _ref := None |}
    /\ (forall r, r <> ref -> store w' !! r = store w !! r)
    /\ zip w' = zip w /\ reader w' = reader w.
Proof.
  unfold _validateAndDecodeEntry.
  destruct (validateAndDecode (zip w) entry) as [entry'|e]; [|discriminate].
  intros [= <- <-]. exists entry'. split; [reflexivity|].
  cbn [store with_store zip reader]. split.
  - apply not_elem_of_dom. unfold fresh_ref. apply is_fresh.
  - split; [apply lookup_insert_eq|]. split; [|now split].
    intros r Hr. now apply lookup_insert_ne.
Qed.

(** X6: with [decodeStrings] and [validateFilenames], an entry that
    [_validateAndDecodeEntry] accepts is a new object whose filename is
    text without backslash, drive letter, leading slash or component
    [..]; the other objects, the archive and the reader are as before. *)
Theorem validateAndDecodeEntry_safe_filename (entry : EntryProperties) (w : World)
    (ref : EntryRef) (w' : World) :
  decodeStrings (zip w) = true ->
  validateFilenames (zip w) = true ->
  _validateAndDecodeEntry entry w = (ok ref, w') ->
  store w !! ref = None
  /\ (forall r, r <> ref -> store w' !! r = store w !! r)
  /\ zip w' = zip w /\ reader w' = reader w
  /\ exists e s,
       store w' !! ref = Some e
       /\ filename (props e) = Text s
       /\ ~ has_char "\"%char s
       /\ ~ drive_letter_path s /\ ~ starts_with "/" s
       /\ ~ path_component ".." s.
Proof.
  intros Hd Hv Hrun.
  apply validateAndDecodeEntry_new in Hrun
    as (entry' & Hentry & Hfresh & Hnew & Hothers & Hz & Hr).
  repeat (split; [assumption|]).
  destruct (validateAndDecode_filename _ _ _ Hd Hv Hentry) as (s & Hs & Hok & _).
  eexists _, s. split; [exact Hnew|]. split; [exact Hs|].
  apply validateFilename_accepts in Hok. tauto.
Qed.

(** X7: without [decodeStrings] the filename is never validated, even
    with [validateFilenames]: whatever the name, [_validateAndDecodeEntry]
    accepts the entry as soon as the sizes of a stored entry agree or are
    not checked, so that it accepts the names that [validateFilename]
    refuses; and the entry that it makes carries the properties read
    from the directory unchanged, the filename and the comment as raw
    bytes. *)
Theorem validateAndDecodeEntry_raw_unvalidated (entry : EntryProperties) (w : World) :
  decodeStrings (zip w) = false ->
  (forall ref w',
     _validateAndDecodeEntry entry w = (ok ref, w') ->
     store w' !! ref = Some {| props := entry; _ref := None |})
  /\ ((validateEntrySizes (zip w) = true -> compressionMethod entry = 0 ->
       compressedSize entry
       = if isEncrypted entry then js_add (uncompressedSize entry) 12
         else uncompressedSize entry) ->
      exists ref,
        _validateAndDecodeEntry entry w
        = (ok ref,
           with_store (<[ref := {| props := entry; _ref := None |}]> (store w)) w)
        /\ store w !! ref = None).
Proof.
  intros Hd. split.
  - intros ref w' Hrun.
    apply validateAndDecodeEntry_new in Hrun as (entry' & Hentry & _ & Hnew & _).
    now rewrite (validateAndDecode_raw _ _ _ Hd Hentry) in Hnew.
  - intros Hsizes.
    assert (Hentry : validateAndDecode (zip w) entry = ok entry).
    { unfold validateAndDecode. rewrite Hd. cbn.
      destruct (validateEntrySizes (zip w)); [|reflexivity]. cbn [andb].
      destruct (Z.eqb_spec (compressionMethod entry) 0) as [Hm|]; [|reflexivity].
      specialize (Hsizes eq_refl Hm). unfold isEncrypted in Hsizes.
      rewrite <- Hsizes, Z.eqb_refl. reflexivity. }
    exists (fresh_ref (store w)). unfold _validateAndDecodeEntry. rewrite Hentry.
    split; [reflexivity|]. apply not_elem_of_dom. unfold fresh_ref. apply is_fresh.
Qed.

(** X8: with [validateEntrySizes], a stored entry (method 0) whose
    uncompressed size is one that a JS number adds 12 to exactly is made
    only when its compressed size is its uncompressed size, plus the 12
    bytes of the encryption header when it is encrypted; any other is
    refused and no object is made. *)
Theorem validateAndDecodeEntry_stored_sizes (entry : EntryProperties) (w : World) :
  validateEntrySizes (zip w) = true ->
  compressionMethod entry = 0 ->
  0 <= uncompressedSize entry <= 2 ^ 53 - 12 ->
  (forall ref w',
     _validateAndDecodeEntry entry w = (ok ref, w') ->
     compressedSize entry
     = uncompressedSize entry + (if isEncrypted entry then 12 else 0))
  /\ (compressedSize entry
      <> uncompressedSize entry + (if isEncrypted entry then 12 else 0) ->
      exists e, _validateAndDecodeEntry entry w = (err e, w)).
Proof.
  intros Hv Hm Hrange.
  assert (Hexpected :
            (if isEncrypted entry then js_add (uncompressedSize entry) 12
             else uncompressedSize entry)
            = uncompressedSize entry + (if isEncrypted entry then 12 else 0)).
  { destruct (isEncrypted entry); [|lia]. apply js_add_exact. lia. }
  split.
  - intros ref w' Hrun.
    apply validateAndDecodeEntry_new in Hrun as (entry' & Hentry & _).
    destruct (validateAndDecode_sizes _ _ _ Hv Hentry) as (_ & _ & _ & _ & Hs).
    rewrite <- Hexpected. apply Hs, Hm.
  - intros Hsize. unfold _validateAndDecodeEntry.
    destruct (validateAndDecode (zip w) entry) as [entry'|e] eqn:Hentry; [|eauto].
    destruct (validateAndDecode_sizes _ _ _ Hv Hentry) as (_ & _ & _ & _ & Hs).
    exfalso. apply Hsize. rewrite <- Hexpected. apply Hs, Hm.
Qed.
End MadeEntryObjects.
Lemma validateAndDecodeEntry_safe_filename_witness :
  exists e s,
    store (snd (@_validateAndDecodeEntry ascii_platform folder_with_crc sample_opened))
      !! 0%nat = Some e
    /\ filename (props e) = Text s
    /\ ~ has_char "\"%char s
    /\ ~ drive_letter_path s /\ ~ starts_with "/" s
    /\ ~ path_component ".." s.
Proof.
  apply (@validateAndDecodeEntry_safe_filename ascii_platform folder_with_crc
           sample_opened 0%nat
           (snd (@_validateAndDecodeEntry ascii_platform folder_with_crc sample_opened))).
  - vm_compute. reflexivity.
  - vm_compute. reflexivity.
  - vm_compute. reflexivity.
Defined.

(** The name [../x] is refused once decoded, and accepted as raw
    bytes although [validateFilenames] is set. *)
Lemma validateAndDecodeEntry_raw_unvalidated_witness :
  validateFilenames (zip raw_opened) = true
  /\ validateFilename (@decodeBuffer ascii_platform ["."; "."; "/"; "x"]%byte 0 false)
     = err "Relative path: ../x"
  /\ exists ref,
       @_validateAndDecodeEntry ascii_platform unsafe_named raw_opened
       = (ok ref,
          with_store (<[ref := {| props := unsafe_named; _ref := None |}]>
                        (store raw_opened)) raw_opened)
       /\ store raw_opened !! ref = None.
Proof.
  split; [vm_compute; reflexivity|]. split; [vm_compute; reflexivity|].
  refine (proj2 (@validateAndDecodeEntry_raw_unvalidated ascii_platform unsafe_named
                   raw_opened _) _).
  - vm_compute. reflexivity.
  - intros _ _. vm_compute. reflexivity.
Defined.

(** A stored, encrypted entry of 5 bytes is made when its data take 17
    bytes and refused when they take 5. *)
Lemma validateAndDecodeEntry_stored_sizes_witness :
  (fst (@_validateAndDecodeEntry ascii_platform (encrypted_stored 17) sample_opened)
   = ok 0%nat
   /\ compressedSize (encrypted_stored 17)
      = uncompressedSize (encrypted_stored 17)
        + (if isEncrypted (encrypted_stored 17) then 12 else 0))
  /\ exists e,
       @_validateAndDecodeEntry ascii_platform (encrypted_stored 5) sample_opened
       = (err e, sample_opened).
Proof.
  split.
  - split; [vm_compute; reflexivity|].
    refine (proj1 (@validateAndDecodeEntry_stored_sizes ascii_platform
                     (encrypted_stored 17) sample_opened _ eq_refl _)
              0%nat
              (snd (@_validateAndDecodeEntry ascii_platform (encrypted_stored 17)
                      sample_opened)) _).
    + vm_compute. reflexivity.
    + vm_compute. split; discriminate.
    + vm_compute. reflexivity.
  - refine (proj2 (@validateAndDecodeEntry_stored_sizes ascii_platform
                     (encrypted_stored 5) sample_opened _ eq_refl _) _).
    + vm_compute. reflexivity.
    + vm_compute. split; discriminate.
    + vm_compute. discriminate.
Defined.
(** ** The options of [openReadStream] *)

Ltac split_ifs :=
  repeat match goal with
         | H : context [if ?b then _ else _] |- _ => destruct b eqn:?
         end.

(** X9: the settings that [openReadStream] derives from accepted
    options describe a range within the file data,
    [0 <= start <= end <= compressedSize]; and a range other than the
    whole of the data is accepted only for a stream that is neither
    decompressed nor CRC32-validated. *)
Theorem resolve_options_range (this : EntryProperties) (options : OptionsArg)
    (s : Settings) :
  0 <= compressedSize this ->
  resolve_options this options = ok s ->
  0 <= start s <= end_ s
  /\ end_ s <= compressedSize this
  /\ (start s <> 0 \/ end_ s <> compressedSize this ->
      decompress s = false /\ validateCrc32 s = false).
Proof.
  intros Hsize. unfold resolve_options.
  destruct options as [| |o]; [|discriminate|].
  - intros [= <-]. cbn. split; [lia|]. split; [lia|]. intros [|]; lia.
  - set (dc := match opt_decompress o with
               | Boolean b => b && isCompressed this
               | NotBoolean => isCompressed this
               end).
    cbv zeta. unfold mbind at 1, Result_bind at 1.
    destruct (match opt_validateCrc32 o with
              | NotBoolean => _ | Boolean b => _ end) as [v|]; [|discriminate].
    unfold mbind at 1, Result_bind at 1.
    destruct (opt_start o) as [|st|]; [| |discriminate].
    + unfold mbind at 1, Result_bind at 1.
      destruct (opt_end o) as [|en|]; [| |discriminate].
      * intros [= <-]. cbn. split; [lia|]. split; [lia|]. intros [|]; lia.
      * intros Hs. split_ifs; try discriminate. injection Hs as <-. cbn.
        split; [lia|]. split; [lia|]. auto.
    + destruct (negb (st =? 0)) eqn:Hst.
      * destruct (negb (0 <? st)) eqn:Hpos; [discriminate|].
        destruct dc eqn:Hdc; [discriminate|].
        destruct v; [discriminate|].
        destruct (st >? compressedSize this) eqn:Hafter; [discriminate|].
        unfold mbind at 1, Result_bind at 1.
        destruct (opt_end o) as [|en|]; [| |discriminate].
        -- intros [= <-]. cbn. split; [lia|]. split; [lia|]. auto.
        -- intros Hs. split_ifs; try discriminate. injection Hs as <-. cbn.
           split; [lia|]. split; [lia|]. auto.
      * unfold mbind at 1, Result_bind at 1.
        destruct (opt_end o) as [|en|]; [| |discriminate].
        -- intros [= <-]. cbn. split; [lia|]. split; [lia|]. intros [|]; lia.
        -- intros Hs. split_ifs; try discriminate. injection Hs as <-. cbn.
           split; [lia|]. split; [lia|]. auto.
Qed.
(** The bytes 2 to 5 of the 17 bytes of an entry, asked for with
    [validateCrc32: false]; the same range without it is refused. *)
Lemma resolve_options_range_witness :
  let s := {| decompress := false; decrypt := false; validateCrc32 := false;
              start := 2; end_ := 5 |} in
  resolve_options (encrypted_stored 17) (Options section_options) = ok s
  /\ resolve_options (encrypted_stored 17)
       (Options (with_opt_start (Integer 2) no_option))
     = err "Cannot validate CRC32 for a section of file"
  /\ 0 <= start s <= end_ s
  /\ end_ s <= compressedSize (encrypted_stored 17)
  /\ (start s <> 0 \/ end_ s <> compressedSize (encrypted_stored 17) ->
      decompress s = false /\ validateCrc32 s = false).
Proof.
  cbv zeta. split; [reflexivity|]. split; [reflexivity|].
  apply (resolve_options_range (encrypted_stored 17) (Options section_options)).
  - vm_compute. discriminate.
  - reflexivity.
Defined.

Lemma compose_streams_raw v this crc s stream :
  decompress s = false -> validateCrc32 s = false ->
  compose_streams v this crc s stream = [stream].
Proof. intros Hd Hv. unfold compose_streams. now rewrite Hd, Hv. Qed.

Lemma encrypted_settings this options s :
  isEncrypted this = true ->
  resolve_options this options = ok s ->
  check_settings this s = ok tt ->
  (exists o, options = Options o
             /\ opt_decrypt o = Boolean false /\ opt_validateCrc32 o = Boolean false)
  /\ decompress s = false /\ validateCrc32 s = false.
Proof.
  intros He Hs Hc. unfold check_settings in Hc. rewrite He, !andb_true_r in Hc.
  destruct (decrypt s) eqn:Hdy; [discriminate|].
  destruct (decompress s) eqn:Hdc.
  { destruct (negb (compressionMethod this =? 8)); discriminate. }
  cbn in Hc. destruct (validateCrc32 s) eqn:Hv; [discriminate|].
  split; [|now split].
  destruct options as [| |o].
  - apply resolve_options_absent in Hs as (_ & Hy & _). congruence.
  - discriminate.
  - exists o. split; [reflexivity|].
    apply resolve_options_ok in Hs as (Hd' & Hy' & Hv').
    rewrite Hdy, He in Hy'. rewrite Hv, Hdc in Hv'.
    destruct (opt_decrypt o) as [|[|]]; try discriminate.
    destruct (opt_validateCrc32 o) as [|[|]]; try discriminate. now split.
Qed.

Lemma wp_conj {A} (m : M A) (Q1 Q2 : A -> World -> Prop) (E1 E2 : World -> Prop) w :
  wp m Q1 E1 w -> wp m Q2 E2 w ->
  wp m (fun a w' => Q1 a w' /\ Q2 a w') (fun w' => E1 w' /\ E2 w') w.
Proof. unfold wp. destruct (m w) as [[a|e] w']; auto. Qed.

Lemma wp_self {A} (m : M A) w :
  wp m (fun a w' => m w = (ok a, w')) (fun _ => True) w.
Proof. unfold wp. now destruct (m w) as [[a|e] w']. Qed.

Lemma createReadStream_stream `{ReaderImpl} start length w stream listener w' :
  Reader_createReadStream (Some start) (Some length) w = (ok (stream, listener), w') ->
  stream_of_range start length stream.
Proof.
  unfold Reader_createReadStream, stream_of_range.
  destruct (start <? 0); [discriminate|].
  destruct (length <? 0); [discriminate|].
  destruct (negb (_isOpen (reader w))); [discriminate|].
  destruct (length =? 0); [now intros [= <- _ _]|].
  destruct (_createReadStream start length); [|discriminate]. now intros [= <- _ _].
Qed.

(** X10: [openReadStream] succeeds on an encrypted entry only when the
    options say [decrypt: false] and [validateCrc32: false], and then
    what it returns is one stream, with no inflating or validating
    stream behind it: the stream that the reader makes for the range of
    the options within the file data as stored, which start where the
    Local File Header, its name and its extra fields end. *)
Theorem openReadStream_encrypted_raw_only `{ReaderImpl} (this : EntryRef)
    (options : OptionsArg) (w : World) (entry : Entry) (streams : list Stream)
    (w' : World) :
  store w !! this = Some entry ->
  isEncrypted (props entry) = true ->
  openReadStream this options w = (ok streams, w') ->
  (exists o, options = Options o
             /\ opt_decrypt o = Boolean false /\ opt_validateCrc32 o = Boolean false)
  /\ exists s buffer stream,
       resolve_options (props entry) options = ok s
       /\ Reader_read (fileHeaderOffset (props entry)) 30 w = (ok buffer, w)
       /\ streams = [stream]
       /\ stream_of_range
            (fileHeaderOffset (props entry) + 30
             + readUInt16LE buffer 26 + readUInt16LE buffer 28 + start s)
            (end_ s - start s) stream.
Proof.
  intros Hentry He Hrun.
  assert (Hwp : wp (openReadStream this options)
                  (fun streams _ =>
                     (exists o, options = Options o
                                /\ opt_decrypt o = Boolean false
                                /\ opt_validateCrc32 o = Boolean false)
                     /\ exists s buffer stream,
                          resolve_options (props entry) options = ok s
                          /\ Reader_read (fileHeaderOffset (props entry)) 30 w
                             = (ok buffer, w)
                          /\ streams = [stream]
                          /\ stream_of_range
                               (fileHeaderOffset (props entry) + 30
                                + readUInt16LE buffer 26 + readUInt16LE buffer 28
                                + start s)
                               (end_ s - start s) stream)
                  (fun _ => True) w).
  { unfold openReadStream. apply wp_bind, wp_get_entry. rewrite Hentry.
    apply wp_bind, wp_lift.
    destruct (resolve_options (props entry) options) as [s|] eqn:Hs; [|exact I].
    apply wp_bind, wp_lift.
    destruct (check_settings (props entry) s) as [[]|] eqn:Hc; [|exact I].
    destruct (encrypted_settings _ _ _ He Hs Hc) as (Ho & Hd & Hv).
    apply wp_bind.
    eapply wp_mono; [apply wp_self| |auto].
    cbv beta. intros buffer w1 Hread.
    assert (w1 = w) as -> by (rewrite Reader_read_run in Hread; now injection Hread).
    destruct (negb _); [now apply wp_fail|].
    apply wp_bind. wp_skip. apply wp_bind. wp_skip. apply wp_bind. wp_skip.
    apply wp_bind. wp_skip. apply wp_bind. wp_skip.
    destruct (_ && _); [now apply wp_fail|].
    apply wp_bind. eapply wp_mono; [apply wp_self| |auto].
    cbv beta. intros [stream listener] w5 Hstream.
    apply createReadStream_stream in Hstream.
    apply wp_mret. split; [exact Ho|]. exists s, buffer, stream.
    rewrite compose_streams_raw by assumption. auto. }
  unfold wp in Hwp. now rewrite Hrun in Hwp.
Qed.

(** The bytes 2 to 5 of the second entry of the sample archive: its
    Local File Header is at 33 and its name has one byte, so that its
    data start at 64. *)
Lemma openReadStream_encrypted_raw_only_witness :
  (exists o, Options section_options = Options o
             /\ opt_decrypt o = Boolean false /\ opt_validateCrc32 o = Boolean false)
  /\ fst (@openReadStream (BufferReader sample_archive) 1%nat (Options section_options)
            sample_world)
     = ok [FromReader 66 3]
  /\ exists stream,
       [FromReader 66 3] = [stream]
       /\ @stream_of_range (BufferReader sample_archive) (33 + 30 + 1 + 0 + 2) (5 - 2)
            stream.
Proof.
  destruct (store sample_world !! 1%nat) as [entry|] eqn:Hentry;
    [|vm_compute in Hentry; discriminate].
  destruct (@openReadStream_encrypted_raw_only (BufferReader sample_archive) 1%nat
              (Options section_options) sample_world entry [FromReader 66 3]
              (snd (@openReadStream (BufferReader sample_archive) 1%nat
                      (Options section_options) sample_world)) Hentry)
    as (Ho & s & buffer & stream & Hs & Hread & Hstreams & Hrange).
  - vm_compute in Hentry. injection Hentry as <-. vm_compute. reflexivity.
  - vm_compute. reflexivity.
  - split; [exact Ho|]. split; [vm_compute; reflexivity|].
    vm_compute in Hentry. injection Hentry as <-.
    vm_compute in Hs. injection Hs as <-.
    vm_compute in Hread. injection Hread as <-.
    exists stream. split; [exact Hstreams|].
    vm_compute in Hrange. vm_compute. exact Hrange.
Defined.
(** ** The entries that the archive keeps track of *)

Lemma for_each_ref_lookup (f : Entry -> Entry) (references : gset EntryRef)
    (st : gmap EntryRef Entry) (i : EntryRef) :
  (i ∈ references -> for_each_ref f (Some references) st !! i = f <$> (st !! i))
  /\ (i ∉ references -> for_each_ref f (Some references) st !! i = st !! i).
Proof.
  unfold for_each_ref.
  apply (set_fold_ind_L
           (fun st' (X : gset EntryRef) =>
              (i ∈ X -> st' !! i = f <$> (st !! i)) /\ (i ∉ X -> st' !! i = st !! i))).
  - split; [intros Hempty; now apply not_elem_of_empty in Hempty|reflexivity].
  - intros x X st' Hx [Hin Hout]. destruct (decide (x = i)) as [->|Hne].
    + split.
      * intros _. rewrite lookup_alter_eq. now rewrite Hout.
      * intros Hni. exfalso. apply Hni, elem_of_union_l, elem_of_singleton. reflexivity.
    + rewrite lookup_alter_ne by exact Hne. split; intros Hi.
      * apply Hin. apply elem_of_union in Hi as [Hi|Hi]; [|exact Hi].
        apply elem_of_singleton in Hi. congruence.
      * apply Hout. intros HX. apply Hi, elem_of_union_r, HX.
Qed.

(** X11: [_setAsNotMacArchive] settles every doubt: the archive is no
    longer a possible Mac archive, its counts and sizes are certain,
    the file cursor and the set of uncertain entries are dropped; each
    entry of that set that is alive gets [uncompressedSizeIsCertain] and
    loses its [_ref], with its other properties kept, and no other entry
    changes.  [isMacArchive] and the location of the directory are left
    alone. *)
Theorem setAsNotMacArchive_settles (w : World) :
  let w' := _setAsNotMacArchive w in
  (isMaybeMacArchive (zip w') = false
   /\ entryCountIsCertain (zip w') = true
   /\ centralDirectorySizeIsCertain (zip w') = true
   /\ compressedSizesAreCertain (zip w') = true
   /\ uncompressedSizesAreCertain (zip w') = true
   /\ _fileCursor (zip w') = None
   /\ _uncertainUncompressedSizeEntryRefs (zip w') = None)
  /\ (isMacArchive (zip w') = isMacArchive (zip w)
      /\ entryCount (zip w') = entryCount (zip w)
      /\ centralDirectoryOffset (zip w') = centralDirectoryOffset (zip w)
      /\ centralDirectorySize (zip w') = centralDirectorySize (zip w)
      /\ footerOffset (zip w') = footerOffset (zip w)
      /\ numEntriesRead (zip w') = numEntriesRead (zip w)
      /\ _entryCursor (zip w') = _entryCursor (zip w)
      /\ reader w' = reader w)
  /\ (forall ref,
        store w' !! ref
        = match _uncertainUncompressedSizeEntryRefs (zip w) with
          | Some references =>
              if bool_decide (ref ∈ references)
              then (fun e => {| props := set_uncompressedSizeIsCertain true (props e);
                                _ref := None |}) <$> (store w !! ref)
              else store w !! ref
          | None => store w !! ref
          end).
Proof.
  cbv zeta. split; [repeat split|]. split; [repeat split|].
  intros ref. unfold _setAsNotMacArchive. cbn [store with_store zip with_zip].
  change (_uncertainUncompressedSizeEntryRefs _)
    with (_uncertainUncompressedSizeEntryRefs (zip w)) at 1.
  destruct (_uncertainUncompressedSizeEntryRefs (zip w)) as [references|]; [|reflexivity].
  match goal with
  | |- for_each_ref ?f _ _ !! _ = _ =>
      destruct (for_each_ref_lookup f references (store w) ref) as [Hin Hout]
  end.
  case_bool_decide; [now rewrite Hin|now rewrite Hout].
Qed.

Lemma setAsMacArchive_props n cur w ref :
  props <$> (store (_setAsMacArchive n cur w) !! ref) = props <$> (store w !! ref).
Proof.
  unfold _setAsMacArchive. cbn [store with_store zip with_zip].
  match goal with
  | |- props <$> (for_each_ref _ ?r _ !! _) = _ => destruct r as [references|]
  end; [|reflexivity].
  destruct (for_each_ref_lookup (set_ref None) references (store w) ref) as [Hin Hout].
  destruct (decide (ref ∈ references)) as [Hr|Hr].
  - rewrite Hin by exact Hr. now destruct (store w !! ref).
  - now rewrite Hout.
Qed.

(** X12: [_setAsMacArchive] makes the archive a definite Mac archive:
    [isMacArchive] is set and [isMaybeMacArchive] cleared, the size of
    the Central Directory is certain and, where it was not, reaches up
    to the footer; the entry count stays or grows by 65536; the set of
    uncertain entries is dropped.  No entry changes its properties; the
    entries of the set lose their [_ref]. *)
Theorem setAsMacArchive_promotes (numEntriesRead_ entryCursor : Z) (w : World) :
  let w' := _setAsMacArchive numEntriesRead_ entryCursor w in
  (isMacArchive (zip w') = true
   /\ isMaybeMacArchive (zip w') = false
   /\ centralDirectorySizeIsCertain (zip w') = true
   /\ _uncertainUncompressedSizeEntryRefs (zip w') = None)
  /\ centralDirectorySize (zip w')
     = (if centralDirectorySizeIsCertain (zip w) then centralDirectorySize (zip w)
        else Some (num (footerOffset (zip w)) - num (centralDirectoryOffset (zip w))))
  /\ (num (entryCount (zip w')) = num (entryCount (zip w))
      \/ num (entryCount (zip w')) = num (entryCount (zip w)) + 65536)
  /\ (footerOffset (zip w') = footerOffset (zip w)
      /\ centralDirectoryOffset (zip w') = centralDirectoryOffset (zip w)
      /\ numEntriesRead (zip w') = numEntriesRead (zip w)
      /\ _entryCursor (zip w') = _entryCursor (zip w)
      /\ _fileCursor (zip w') = _fileCursor (zip w)
      /\ reader w' = reader w)
  /\ (forall ref,
        props <$> (store w' !! ref) = props <$> (store w !! ref)
        /\ (_ref <$> (store w' !! ref)
            = match _uncertainUncompressedSizeEntryRefs (zip w) with
              | Some references =>
                  if bool_decide (ref ∈ references)
                  then (fun _ => None) <$> (store w !! ref)
                  else _ref <$> (store w !! ref)
              | None => _ref <$> (store w !! ref)
              end)).
Proof.
  cbv zeta. unfold _setAsMacArchive.
  set (z1 := with_isMaybeMacArchive false (with_isMacArchive true (zip w))).
  set (z2 := if negb (centralDirectorySizeIsCertain z1)
             then with_centralDirectorySizeIsCertain true
                    (with_centralDirectorySize
                       (Some (num (footerOffset z1) - num (centralDirectoryOffset z1))) z1)
             else z1).
  set (z3 := if negb (entryCountIsCertain z2)
             then _recalculateEntryCountIsCertain numEntriesRead_ entryCursor
                    (snd (_recalculateEntryCount numEntriesRead_ entryCursor z2))
             else z2).
  cbn [zip with_zip with_store store reader].
  assert (H2 : isMacArchive z2 = true /\ isMaybeMacArchive z2 = false
               /\ centralDirectorySizeIsCertain z2 = true
               /\ centralDirectorySize z2
                  = (if centralDirectorySizeIsCertain (zip w)
                     then centralDirectorySize (zip w)
                     else Some (num (footerOffset (zip w))
                                - num (centralDirectoryOffset (zip w))))
               /\ entryCount z2 = entryCount (zip w)
               /\ footerOffset z2 = footerOffset (zip w)
               /\ centralDirectoryOffset z2 = centralDirectoryOffset (zip w)
               /\ numEntriesRead z2 = numEntriesRead (zip w)
               /\ _entryCursor z2 = _entryCursor (zip w)
               /\ _fileCursor z2 = _fileCursor (zip w)
               /\ _uncertainUncompressedSizeEntryRefs z2
                  = _uncertainUncompressedSizeEntryRefs (zip w)).
  { unfold z2, z1. cbn.
    destruct (centralDirectorySizeIsCertain (zip w)) eqn:Hcertain; cbn;
      repeat split; exact Hcertain. }
  assert (H3 : isMacArchive z3 = isMacArchive z2
               /\ isMaybeMacArchive z3 = isMaybeMacArchive z2
               /\ centralDirectorySizeIsCertain z3 = centralDirectorySizeIsCertain z2
               /\ centralDirectorySize z3 = centralDirectorySize z2
               /\ (num (entryCount z3) = num (entryCount z2)
                   \/ num (entryCount z3) = num (entryCount z2) + 65536)
               /\ footerOffset z3 = footerOffset z2
               /\ centralDirectoryOffset z3 = centralDirectoryOffset z2
               /\ numEntriesRead z3 = numEntriesRead z2
               /\ _entryCursor z3 = _entryCursor z2
               /\ _fileCursor z3 = _fileCursor z2
               /\ _uncertainUncompressedSizeEntryRefs z3
                  = _uncertainUncompressedSizeEntryRefs z2).
  { unfold z3. destruct (negb (entryCountIsCertain z2)); [|repeat split; auto].
    unfold _recalculateEntryCountIsCertain, _recalculateEntryCount.
    destruct (_ >=? _); cbn [snd].
    - destruct (entryCountIsCertain_fn _ _); cbn; repeat split; auto.
    - rewrite js_and_bit16.
      destruct (entryCountIsCertain_fn _ _), (Z.testbit _ 16); cbn;
        repeat split; auto; left; lia. }
  destruct H2 as (Hm2 & Hy2 & Hc2 & Hs2 & He2 & Hf2 & Ho2 & Hn2 & Hec2 & Hfc2 & Hr2).
  destruct H3 as (Hm3 & Hy3 & Hc3 & Hs3 & He3 & Hf3 & Ho3 & Hn3 & Hec3 & Hfc3 & Hr3).
  split; [cbn; repeat split; congruence|].
  split; [cbn; congruence|].
  split; [rewrite <- He2; exact He3|].
  split; [cbn; repeat split; congruence|].
  intros ref. rewrite Hr3, Hr2.
  destruct (_uncertainUncompressedSizeEntryRefs (zip w)) as [references|];
    [|split; reflexivity].
  destruct (for_each_ref_lookup (set_ref None) references (store w) ref) as [Hin Hout].
  case_bool_decide.
  - rewrite Hin by assumption. destruct (store w !! ref); split; reflexivity.
  - rewrite Hout by assumption. split; reflexivity.
Qed.
(** ** Validating the uncompressed size *)

Lemma SizeValidator_run_certain (this : SizeValidator) (chunks : list Z) (w : World)
    (e : Entry) :
  store w !! sv_entry this = Some e ->
  uncompressedSizeIsCertain (props e) = true ->
  Forall (fun chunkLength => 0 <= chunkLength) chunks ->
  byteCount this <= expectedByteCount this ->
  (byteCount this + total_length chunks = expectedByteCount this ->
   SizeValidator_run this chunks w = (ok tt, w))
  /\ (byteCount this + total_length chunks <> expectedByteCount this ->
      exists message, SizeValidator_run this chunks w = (err message, w)).
Proof.
  intros He Hcertain Hchunks. revert this He.
  induction Hchunks as [|chunkLength chunks Hc Hchunks IH]; intros this He Hle.
  - cbn [SizeValidator_run total_length fold_right]. unfold SizeValidator_flush.
    split; intros Hsum.
    + destruct (Z.ltb_spec (byteCount this) (expectedByteCount this)); [lia|].
      rewrite bind_run. unfold get_entry. rewrite He, Hcertain. reflexivity.
    + destruct (Z.ltb_spec (byteCount this) (expectedByteCount this)); [|lia].
      eexists. reflexivity.
  - cbn [SizeValidator_run total_length fold_right]. rewrite bind_run.
    fold (total_length chunks).
    assert (Hrest : 0 <= total_length chunks).
    { clear -Hchunks. induction Hchunks; cbn; [lia|]. unfold total_length in *. lia. }
    unfold SizeValidator_transform.
    destruct (Z.gtb_spec (byteCount this + chunkLength) (expectedByteCount this)).
    + rewrite bind_run. unfold get_entry. rewrite He, Hcertain.
      split; [lia|]. intros _. eexists. reflexivity.
    + cbn. match goal with
           | |- context [SizeValidator_run ?v chunks w] =>
               destruct (IH v He ltac:(cbn; lia)) as [Hok Herr]
           end.
      cbn in Hok, Herr. split; intros Hsum.
      * apply Hok. lia.
      * apply Herr. lia.
Qed.

(** X13: for an entry whose uncompressed size is certain, the stream
    that validates the size lets the data through exactly when the
    lengths of the chunks add up to [uncompressedSize]: it fails at the
    chunk that exceeds it, or at the end when the data fall short, and
    in no case changes the entry or the archive. *)
Theorem validate_uncompressed_size_certain (entry : EntryRef) (chunks : list Z)
    (w : World) (e : Entry) :
  store w !! entry = Some e ->
  uncompressedSizeIsCertain (props e) = true ->
  0 <= uncompressedSize (props e) ->
  Forall (fun chunkLength => 0 <= chunkLength) chunks ->
  (total_length chunks = uncompressedSize (props e) ->
   validate_uncompressed_size entry chunks w = (ok tt, w))
  /\ (total_length chunks <> uncompressedSize (props e) ->
      exists message, validate_uncompressed_size entry chunks w = (err message, w)).
Proof.
  intros He Hcertain Hsize Hchunks.
  assert (Hstart : validate_uncompressed_size entry chunks w
                   = SizeValidator_run
                       {| byteCount := 0;
                          expectedByteCount := uncompressedSize (props e);
                          sv_entry := entry |} chunks w).
  { unfold validate_uncompressed_size, SizeValidator_new.
    rewrite bind_run, (bind_get_entry _ _ _ _ He). reflexivity. }
  rewrite Hstart.
  match goal with
  | |- context [SizeValidator_run ?v chunks w] =>
      destruct (SizeValidator_run_certain v chunks w e He Hcertain Hchunks
                  ltac:(cbn; lia)) as [Hok Herr]
  end.
  cbn in Hok, Herr. split; intros Hsum; [apply Hok|apply Herr]; lia.
Qed.
Lemma validate_uncompressed_size_certain_witness :
  @validate_uncompressed_size 2%nat [1; 1] sample_world = (ok tt, sample_world)
  /\ exists message,
       @validate_uncompressed_size 2%nat [1; 2] sample_world = (err message, sample_world).
Proof.
  destruct (store sample_world !! 2%nat) as [e|] eqn:He;
    [|vm_compute in He; discriminate].
  assert (Hcertain : uncompressedSizeIsCertain (props e) = true).
  { vm_compute in He. injection He as <-. reflexivity. }
  assert (Hsize : uncompressedSize (props e) = 2).
  { vm_compute in He. injection He as <-. reflexivity. }
  split.
  - apply (proj1 (validate_uncompressed_size_certain 2%nat [1; 1] sample_world e
                    He Hcertain ltac:(lia) ltac:(repeat constructor; lia))).
    rewrite Hsize. reflexivity.
  - apply (proj2 (validate_uncompressed_size_certain 2%nat [1; 2] sample_world e
                    He Hcertain ltac:(lia) ltac:(repeat constructor; lia))).
    rewrite Hsize. cbn. lia.
Defined.

(** X14: when the data of an entry of uncertain uncompressed size run
    past the size that the stream expects, and no other stream has
    raised the size yet, [_transform] lets the chunk through, raises the
    size of the entry and its own expectation by 4 GiB, once whatever
    the excess, and makes the archive a definite Mac archive. *)
Theorem SizeValidator_transform_grows (this : SizeValidator) (chunkLength : Z)
    (w : World) (e : Entry) :
  store w !! sv_entry this = Some e ->
  uncompressedSizeIsCertain (props e) = false ->
  uncompressedSize (props e) = expectedByteCount this ->
  expectedByteCount this < byteCount this + chunkLength ->
  isMacArchive (zip w) = true \/ isMaybeMacArchive (zip w) = true ->
  mac_flags_exclusive (zip w) ->
  exists w',
    SizeValidator_transform this chunkLength w
    = (ok {| byteCount := byteCount this + chunkLength;
             expectedByteCount := expectedByteCount this + FOUR_GIB;
             sv_entry := sv_entry this |}, w')
    /\ isMacArchive (zip w') = true
    /\ isMaybeMacArchive (zip w') = false
    /\ props <$> (store w' !! sv_entry this)
       = Some (set_uncompressedSize (expectedByteCount this + FOUR_GIB) (props e)).
Proof.
  intros He Hcertain Hsize Hover Hmac Hexcl. unfold SizeValidator_transform.
  destruct (Z.gtb_spec (byteCount this + chunkLength) (expectedByteCount this)); [|lia].
  rewrite (bind_get_entry _ _ _ _ He), Hcertain, Hsize, Z.eqb_refl.
  unfold update_entry. rewrite bind_update_world, bind_get_zip.
  cbn [zip with_store].
  set (w1 := with_store _ w).
  assert (H1 : props <$> (store w1 !! sv_entry this)
               = Some (set_uncompressedSize (expectedByteCount this + FOUR_GIB) (props e))).
  { unfold w1. cbn [store with_store]. now rewrite lookup_alter_eq, He. }
  destruct (isMacArchive (zip w)) eqn:Hm; cbn [negb].
  - rewrite bind_mret, mret_run. exists w1. split; [reflexivity|].
    split; [exact Hm|]. split; [|exact H1].
    change (isMaybeMacArchive (zip w1)) with (isMaybeMacArchive (zip w)).
    destruct (isMaybeMacArchive (zip w)) eqn:Hy; [|reflexivity].
    exfalso. apply Hexcl. now split.
  - destruct Hmac as [Hmac|Hy]; [discriminate|]. rewrite Hy. cbn [negb].
    rewrite bind_update_world, mret_run. eexists. split; [reflexivity|].
    destruct (setAsMacArchive_zip (numEntriesRead (zip w))
                (num (_entryCursor (zip w))) w1) as (Hm' & Hy' & _).
    split; [exact Hm'|]. split; [exact Hy'|].
    now rewrite setAsMacArchive_props.
Qed.

Lemma SizeValidator_transform_grows_witness :
  exists w',
    @SizeValidator_transform
      {| byteCount := 0; expectedByteCount := 5; sv_entry := 0%nat |} 6
      (zs_world doubtful_read_state)
    = (ok {| byteCount := 6; expectedByteCount := 5 + FOUR_GIB; sv_entry := 0%nat |}, w')
    /\ isMacArchive (zip w') = true
    /\ isMaybeMacArchive (zip w') = false.
Proof.
  destruct (store (zs_world doubtful_read_state) !! 0%nat) as [e|] eqn:He;
    [|vm_compute in He; discriminate].
  assert (Hcertain : uncompressedSizeIsCertain (props e) = false).
  { vm_compute in He. injection He as <-. reflexivity. }
  assert (Hsize : uncompressedSize (props e) = 5).
  { vm_compute in He. injection He as <-. reflexivity. }
  destruct (SizeValidator_transform_grows
              {| byteCount := 0; expectedByteCount := 5; sv_entry := 0%nat |} 6
              (zs_world doubtful_read_state) e He Hcertain Hsize
              ltac:(cbn; lia)
              ltac:(right; vm_compute; reflexivity)
              ltac:(intros [Hm _]; vm_compute in Hm; discriminate))
    as (w' & Hrun & Hm & Hy & _).
  exists w'. split; [exact Hrun|]. now split.
Defined.
(** ** Reading the Central Directory *)

Lemma Reader_read_world `{ReaderImpl} start length w :
  wp (Reader_read start length) (fun _ w' => w' = w) (fun w' => w' = w) w.
Proof.
  unfold wp. rewrite Reader_read_run.
  destruct (if negb _ then _ else _); reflexivity.
Qed.

Lemma readUInt64LE_nonneg buffer offset : 0 <= readUInt64LE buffer offset.
Proof.
  unfold readUInt64LE.
  pose proof (readUInt32LE_range buffer (offset + 4)).
  pose proof (readUInt32LE_range buffer offset). unfold FOUR_GIB in *. lia.
Qed.

Lemma apply_zip64_nonneg buffer u c h u' c' h' :
  0 <= u -> 0 <= c -> 0 <= h ->
  apply_zip64 buffer u c h = ok (u', c', h') ->
  0 <= u' /\ 0 <= c' /\ 0 <= h'.
Proof.
  intros Hu Hc Hh. unfold apply_zip64. destruct buffer as [buffer|]; [|discriminate].
  pose proof (readUInt64LE_nonneg buffer) as Hn.
  destruct (u =? 0xFFFFFFFF); destruct (c =? 0xFFFFFFFF); destruct (h =? 0xFFFFFFFF);
    cbn;
    repeat match goal with
           | |- context [if ?b then _ else _] => destruct b; cbn
           end;
    try discriminate; intros [= <- <- <-]; repeat split; auto.
Qed.

Lemma readEntryAt_bounds_wp `{ReaderImpl} offset w :
  wp (_readEntryAt offset)
     (fun r w' => w' = w
                  /\ forall e, r = Some e ->
                       entry_read_at offset (num (footerOffset (zip w))) e)
     (fun w' => w' = w) w.
Proof.
  unfold _readEntryAt, entry_read_at.
  repeat (first [ wp_step | wp_call Reader_read_world ]); subst; auto.
  all: split; auto; intros ? [=]; subst; cbn.
  pose proof (readUInt16LE_range a 28). pose proof (readUInt16LE_range a 30).
  pose proof (readUInt16LE_range a 32).
  pose proof (readUInt32LE_range a 24). pose proof (readUInt32LE_range a 20).
  pose proof (readUInt32LE_range a 42).
  assert (0 <= z0 /\ 0 <= z1 /\ 0 <= z) as (? & ? & ?).
  { destruct (_ || _).
    - eapply apply_zip64_nonneg; [| | |eassumption]; lia.
    - injection Heqr0 as <- <- <-. lia. }
  repeat split; try lia.
Qed.

(** X15: [_readEntryAt] leaves the world as it was, whatever it
    answers; it refuses an offset with less than 46 bytes before the
    footer without reading; and the properties it returns describe a
    header that ends at or before the footer, at least 46 bytes and the
    filename after [offset], with a Local File Header offset that leaves
    room for 30 bytes before the footer, sizes that are not negative, no
    strong encryption, a certain uncompressed size and no file data
    offset yet. *)
Theorem readEntryAt_bounds `{ReaderImpl} (offset : Z) (w : World) :
  snd (_readEntryAt offset w) = w
  /\ (num (footerOffset (zip w)) < offset + CDH_MIN_LENGTH ->
      fst (_readEntryAt offset w) = err "Invalid Central Directory File Header")
  /\ (forall e, fst (_readEntryAt offset w) = ok (Some e) ->
        entry_read_at offset (num (footerOffset (zip w))) e).
Proof.
  pose proof (readEntryAt_bounds_wp offset w) as Hwp. unfold wp in Hwp.
  split; [|split].
  - destruct (_readEntryAt offset w) as [[r|] w']; [apply Hwp|exact Hwp].
  - intros Hroom. unfold _readEntryAt. rewrite bind_get_zip.
    destruct (Z.gtb_spec (offset + CDH_MIN_LENGTH) (num (footerOffset (zip w)))); [|lia].
    reflexivity.
  - intros e He. destruct (_readEntryAt offset w) as [[r|] w']; [|discriminate].
    cbn in He. injection He as ->. now apply Hwp.
Qed.

Lemma readEntryAt_bounds_witness :
  exists e,
    fst (@_readEntryAt (BufferReader sample_archive) 113 sample_opened) = ok (Some e)
    /\ entry_read_at 113 254 e.
Proof.
  destruct (fst (@_readEntryAt (BufferReader sample_archive) 113 sample_opened))
    as [[e|]|] eqn:He; try (vm_compute in He; discriminate).
  exists e. split; [reflexivity|].
  apply (proj2 (proj2 (@readEntryAt_bounds (BufferReader sample_archive) 113
                         sample_opened)) e He).
Defined.

(** ** Opening an archive *)

Lemma recalculateEntryCount_frame n cur z :
  let z' := snd (_recalculateEntryCount n cur z) in
  zip_size z' = zip_size z /\ decodeStrings z' = decodeStrings z
  /\ validateEntrySizes z' = validateEntrySizes z
  /\ validateFilenames z' = validateFilenames z
  /\ strictFilenames z' = strictFilenames z
  /\ supportMacArchive z' = supportMacArchive z
  /\ footerOffset z' = footerOffset z
  /\ centralDirectoryOffset z' = centralDirectoryOffset z
  /\ _firstEntryProps z' = _firstEntryProps z.
Proof.
  cbv zeta. unfold _recalculateEntryCount. destruct (_ >=? _); cbn; repeat split.
Qed.

Ltac frame_rewrite :=
  repeat match goal with
         | |- context [snd (_recalculateEntryCount ?n ?cur ?z)] =>
             let Hf := fresh "Hf" in
             pose proof (recalculateEntryCount_frame n cur z) as Hf;
             cbv zeta in Hf;
             destruct Hf as (? & ? & ? & ? & ? & ? & ? & ? & ?);
             generalize dependent (snd (_recalculateEntryCount n cur z)); intros
         end.

Ltac frame_leaf :=
  unfold init_frame, first_entry_read in *; cbn in *;
  repeat match goal with
         | H : _ /\ _ |- _ => destruct H as [? ?]
         end;
  repeat match goal with
         | |- context [if ?b then _ else _] => destruct b eqn:?
         end;
  cbn in *;
  try (intuition (try discriminate; try congruence; eauto); fail).

Ltac wp_read :=
  lazymatch goal with
  | |- wp (Reader_read _ _) _ _ _ => wp_call Reader_read_world; [subst|exact I]
  end.

Section InitFrame.
Context `{ReaderImpl} `{Platform}.

Lemma locateEocdr_frame w :
  wp _locateEocdr
     (fun _ w' =>
        exists f, init_frame w f w' /\ 0 <= f <= zip_size (zip w) - 22
                  /\ _firstEntryProps (zip w') = _firstEntryProps (zip w))
     (fun _ => True) w.
Proof.
  unfold _locateEocdr. apply wp_bind, wp_get_zip.
  destruct (_ && _) eqn:Hsmall; [now apply wp_fail|].
  apply wp_bind. wp_read.
  match goal with
  | |- wp (match eocdr_scan ?b ?n ?p with _ => _ end) _ _ _ =>
      pose proof (eocdr_scan_spec b n p) as Hscan;
      destruct (eocdr_scan b n p) as [position|]; [|now apply wp_fail]
  end.
  destruct Hscan as (Hp & Hacc & _). apply eocdr_accepted_room in Hacc.
  apply wp_bind, wp_update_zip. apply wp_mret.
  eexists. split; [repeat split|]. cbn.
  unfold EOCDR_WITHOUT_COMMENT_SIZE, MAX_EOCDR_COMMENT_SIZE in *.
  split; [|reflexivity].
  destruct (Z.ltb_spec (zip_size (zip w)) (22 + 65535));
    destruct (Z.ltb_spec (zip_size (zip w)) 22); cbn in Hsmall; try discriminate; lia.
Qed.

Lemma parseEocdr_frame w0 f eocdrBuffer w :
  init_frame w0 f w -> _firstEntryProps (zip w) = None ->
  wp (_parseEocdr eocdrBuffer)
     (fun _ w' => init_frame w0 f w' /\ _firstEntryProps (zip w') = None)
     (fun _ => True) w.
Proof.
  intros Hf Hp. unfold _parseEocdr.
  repeat (wp_step; cbn [zip with_zip]); try exact I. frame_leaf.
Qed.

Lemma parseZip64Eocdr_frame w0 f w :
  init_frame w0 f w -> _firstEntryProps (zip w) = None -> 0 <= f ->
  wp _parseZip64Eocdr
     (fun _ w' => exists f', init_frame w0 f' w' /\ 0 <= f' <= f
                             /\ _firstEntryProps (zip w') = None)
     (fun _ => True) w.
Proof.
  intros Hf Hp Hpos. unfold _parseZip64Eocdr.
  assert (Hfooter : footerOffset (zip w) = Some f) by apply Hf.
  repeat first [ wp_read | wp_step; cbn [zip with_zip] ]; try exact I.
  - exists f. frame_leaf. repeat split; auto; lia.
  - pose proof (readUInt64LE_nonneg a 8). pose proof (readUInt64LE_nonneg a0 4).
    rewrite Hfooter in *. change (num (Some f)) with f in *.
    match goal with
    | |- context [with_footerOffset (Some ?x)] => exists x
    end.
    split; [|split].
    + repeat match goal with
             | |- context [bool_decide ?P] => destruct (bool_decide P)
             end; repeat split; apply Hf.
    + destruct (Z.eqb_spec (readUInt64LE a 8 + readUInt64LE a0 4) (f - 20)); lia.
    + repeat match goal with
             | |- context [bool_decide ?P] => destruct (bool_decide P)
             end; exact Hp.
Qed.
End InitFrame.
Ltac wp_readEntryAt :=
  lazymatch goal with
  | |- wp (_readEntryAt _) _ _ _ =>
      eapply wp_mono;
      [ apply readEntryAt_bounds_wp
      | cbv beta; intros ? ? [-> ?]
      | cbv beta; intros ? ?; exact I ]
  end.

Ltac locate_leaf :=
  unfold located, locating, found_at, init_frame, first_entry_read in *; cbn in *;
  repeat match goal with
         | H : _ /\ _ |- _ => destruct H as [? ?]
         end;
  frame_rewrite; cbn in *;
  repeat match goal with
         | |- context [if ?b then _ else _] => destruct b eqn:?
         end;
  cbn in *;
  try (intuition (try discriminate; try congruence; eauto); fail).

Ltac name_recalc :=
  repeat match goal with
         | Hr : _recalculateEntryCount ?n ?cur ?z0 = (_, ?z) |- _ =>
             is_var z;
             assert (z = snd (_recalculateEntryCount n cur z0)) by (now rewrite Hr);
             clear Hr; subst z
         end.

Section Locate.
Context `{ReaderImpl} `{Platform}.

Lemma locate_finish_frame w0 f entry centralDirectoryEnd w :
  locating w0 f w -> found_at w f entry ->
  wp (locate_finish entry centralDirectoryEnd)
     (fun _ w' => located w0 f w') (fun _ => True) w.
Proof.
  intros Hinv Hentry. unfold locate_finish. wp_exec; try exact I.
  all: locate_leaf.
  all: (split; [repeat split; congruence|]).
  all: intros e' [= <-]; specialize (Hentry _ eq_refl);
    repeat match goal with
           | Hx : footerOffset ?z = _ |- context [footerOffset ?z] => rewrite Hx
           | Hx : centralDirectoryOffset ?z = _ |- context [centralDirectoryOffset ?z] =>
               rewrite Hx
           end; cbn; try exact Hentry.
Qed.

Lemma search_centralDirectory_frame w0 f fuel offset alreadyCheckedOffset w :
  locating w0 f w ->
  wp (search_centralDirectory fuel offset alreadyCheckedOffset)
     (fun r w' => locating w0 f w' /\ found_at w' f r) (fun _ => True) w.
Proof.
  revert offset. induction fuel as [|fuel IH]; intros offset Hinv;
    cbn [search_centralDirectory].
  - apply wp_mret. split; [exact Hinv|]. intros e [=].
  - wp_step; [|apply wp_mret; split; [exact Hinv|]; intros e [=]].
    apply wp_bind. wp_readEntryAt.
    destruct a as [e|]; [|now apply IH].
    assert (Hfooter : num (footerOffset (zip w)) = f).
    { destruct Hinv as [Hf _]. unfold init_frame in Hf.
      destruct Hf as (_ & _ & _ & _ & _ & _ & _ & _ & ->). reflexivity. }
    wp_exec; try exact I. cbn [zip with_zip].
    split; [locate_leaf|]. intros e' [= <-]. cbn. rewrite <- Hfooter. auto.
Qed.

Lemma locate_search_frame w0 f entry alreadyCheckedOffset w :
  locating w0 f w -> found_at w f entry ->
  wp (locate_search entry alreadyCheckedOffset)
     (fun r w' => locating w0 f w' /\ found_at w' f r) (fun _ => True) w.
Proof.
  intros Hinv Hentry. unfold locate_search. destruct entry as [e|].
  - apply wp_mret. now split.
  - repeat (wp_step; cbn [zip with_zip]); try exact I.
    all: now apply search_centralDirectory_frame.
Qed.

Lemma locate_rest_frame w0 f entry alreadyCheckedOffset centralDirectoryEnd w :
  locating w0 f w -> found_at w f entry ->
  wp (entry ← locate_search entry alreadyCheckedOffset;
      locate_finish entry centralDirectoryEnd)
     (fun _ w' => located w0 f w') (fun _ => True) w.
Proof.
  intros Hinv Hentry. apply wp_bind.
  eapply wp_mono; [now apply (locate_search_frame w0 f)| |auto]; cbv beta.
  intros r w' [Hi Hb]. now apply locate_finish_frame.
Qed.

Lemma locating_located w0 f w : locating w0 f w -> located w0 f w.
Proof.
  intros [Hf Hp]. split; [exact Hf|]. intros e He. congruence.
Qed.

Lemma locating_first w0 f w e :
  locating w0 f w -> found_at w f (Some e) ->
  located w0 f (with_zip (with_firstEntryProps (Some e) (zip w)) w).
Proof.
  intros [Hf _] Ha. split; [exact Hf|]. intros e' [= <-].
  change (entry_read_at (num (centralDirectoryOffset (zip w)))
            (num (footerOffset (zip w))) e).
  replace (num (footerOffset (zip w))) with f; [now apply Ha|].
  unfold init_frame in Hf. destruct Hf as (_ & _ & _ & _ & _ & _ & _ & _ & ->).
  reflexivity.
Qed.

Lemma locateCentralDirectory_frame w0 f w :
  locating w0 f w ->
  wp _locateCentralDirectory (fun _ w' => located w0 f w') (fun _ => True) w.
Proof.
  intros Hinv. unfold _locateCentralDirectory.
  repeat (wp_step; cbn [zip with_zip]); try exact I.
  all: try (apply locating_located; exact Hinv).
  all: name_recalc.
  all: match goal with
       | |- wp _ _ _ ?wc => assert (Hc : locating w0 f wc) by locate_leaf
       end.
  all: try lazymatch goal with
       | |- wp (_readEntryAt ?off) _ _ ?wc =>
           assert (Hoff : off = num (centralDirectoryOffset (zip wc))) by reflexivity;
           set (o := off) in *; clearbody o
       end.
  all: match goal with
       | |- wp _ _ _ ?wc => set (wn := wc) in *; clearbody wn
       end.
  all: try (apply (proj1 (wp_bind (locate_search _ _)
                             (fun entry => locate_finish entry _) _ _ _));
            apply locate_rest_frame; [exact Hc | intros ? [=]]).
  all: wp_readEntryAt.
  all: match goal with
       | Hb : forall e, ?r = Some e -> entry_read_at _ (num (footerOffset (zip ?wq))) e,
         Hq : locating _ _ ?wq |- _ =>
           assert (Ha : found_at wq f r)
             by (intros e' He'; unfold found_at;
                 replace f with (num (footerOffset (zip wq)))
                   by (destruct Hq as [Hq' _]; unfold init_frame in Hq';
                       destruct Hq' as (_ & _ & _ & _ & _ & _ & _ & _ & ->);
                       reflexivity);
                 rewrite <- Hoff; now apply Hb);
           clear Hb
       end.
  all: repeat (wp_step; cbn [zip with_zip]); try exact I.
  all: try (apply locating_first; assumption).
  all: apply (proj1 (wp_bind (locate_search _ _)
                       (fun entry => locate_finish entry _) _ _ _));
    apply locate_rest_frame; [exact Hc | first [exact Ha | intros ? [=]]].
Qed.
End Locate.
Section InitOpens.
Context `{ReaderImpl} `{Platform}.

Lemma init_opens_wp w :
  _firstEntryProps (zip w) = None ->
  wp init
     (fun _ w' =>
        exists f, init_frame w f w' /\ 0 <= f <= zip_size (zip w) - 22
                  /\ _entryCursor (zip w') = centralDirectoryOffset (zip w')
                  /\ first_entry_read (zip w'))
     (fun _ => True) w.
Proof.
  intros Hnone. unfold init. apply wp_bind.
  eapply wp_mono; [apply locateEocdr_frame| |auto]; cbv beta.
  intros eocdrBuffer w1 (f1 & Hf1 & Hb1 & Hp1). rewrite Hnone in Hp1.
  apply wp_bind.
  eapply wp_mono; [apply (parseEocdr_frame w f1); assumption| |auto]; cbv beta.
  intros _ w2 (Hf2 & Hp2). apply wp_bind, wp_get_zip. apply wp_bind.
  apply (wp_mono _ _ (fun _ w3 => exists f3, init_frame w f3 w3 /\ 0 <= f3 <= f1
                                             /\ _firstEntryProps (zip w3) = None)
           _ (fun _ => True)); [|cbv beta|auto].
  { apply wp_when. destruct (bool_decide _).
    - apply (parseZip64Eocdr_frame w f1); [assumption|assumption|lia].
    - exists f1. split; [exact Hf2|]. split; [lia|exact Hp2]. }
  intros _ w3 (f3 & Hf3 & Hb3 & Hp3). apply wp_bind.
  eapply wp_mono; [apply (locateCentralDirectory_frame w f3); now split| |auto];
    cbv beta.
  intros _ w4 (Hf4 & Hfirst). apply wp_update_zip.
  exists f3. split; [exact Hf4|]. split; [lia|]. split; [reflexivity|exact Hfirst].
Qed.

(** X16: when [init] succeeds, the footer it has located lies in the
    archive, with room for the 22 bytes of the End of Central Directory
    Record after it; the entry cursor stands at the start of the Central
    Directory, where the entry kept for the first [readEntry], if there
    is one, was read; and [init] has only read: the reader, its counter
    included, the entries, the size and the options are as before. *)
Theorem init_opens (w w' : World) :
  _firstEntryProps (zip w) = None ->
  init w = (ok tt, w') ->
  exists f,
    init_frame w f w' /\ 0 <= f <= zip_size (zip w) - 22
    /\ _entryCursor (zip w') = centralDirectoryOffset (zip w')
    /\ first_entry_read (zip w').
Proof.
  intros Hnone Hrun. pose proof (init_opens_wp w Hnone) as Hwp.
  unfold wp in Hwp. now rewrite Hrun in Hwp.
Qed.
End InitOpens.

Lemma init_opens_witness :
  exists f,
    init_frame (new_world (buf_length sample_archive) default_options) f sample_opened
    /\ 0 <= f <= buf_length sample_archive - 22
    /\ _entryCursor (zip sample_opened) = centralDirectoryOffset (zip sample_opened)
    /\ first_entry_read (zip sample_opened).
Proof.
  apply (@init_opens (BufferReader sample_archive) ascii_platform
           (new_world (buf_length sample_archive) default_options) sample_opened).
  - reflexivity.
  - vm_compute. reflexivity.
Defined.
(** ** Taking the entries in turn *)

Lemma kept_refl z : kept z z.
Proof. repeat split. Qed.

Lemma kept_trans z1 z2 z3 : kept z1 z2 -> kept z2 z3 -> kept z1 z3.
Proof. unfold kept. intuition congruence. Qed.

Lemma recalculateEntryCount_kept n cur z : kept z (snd (_recalculateEntryCount n cur z)).
Proof. unfold _recalculateEntryCount. destruct (_ >=? _); cbn; repeat split. Qed.

Lemma recalculateEntryCountIsCertain_kept n cur z :
  kept z (_recalculateEntryCountIsCertain n cur z).
Proof.
  unfold _recalculateEntryCountIsCertain. destruct (entryCountIsCertain_fn _ _);
    repeat split.
Qed.

Lemma setAsMacArchive_kept n cur w : kept (zip w) (zip (_setAsMacArchive n cur w)).
Proof.
  assert (H2 : forall z,
             kept z (if negb (centralDirectorySizeIsCertain z)
                     then with_centralDirectorySizeIsCertain true
                            (with_centralDirectorySize
                               (Some (num (footerOffset z)
                                      - num (centralDirectoryOffset z))) z)
                     else z)).
  { intros z. destruct (negb _); repeat split. }
  assert (H3 : forall z,
             kept z (if negb (entryCountIsCertain z)
                     then _recalculateEntryCountIsCertain n cur
                            (snd (_recalculateEntryCount n cur z))
                     else z)).
  { intros z. destruct (negb _); [|apply kept_refl].
    eapply kept_trans;
      [apply recalculateEntryCount_kept|apply recalculateEntryCountIsCertain_kept]. }
  unfold _setAsMacArchive. cbn [zip with_zip with_store].
  eapply kept_trans; [|repeat split].
  eapply kept_trans; [|apply H3]. eapply kept_trans; [|apply H2]. repeat split.
Qed.

Lemma setAsNotMacArchive_kept w : kept (zip w) (zip (_setAsNotMacArchive w)).
Proof. repeat split. Qed.

Lemma finalize_kept entry w : kept (zip w) (zip (finalize entry w)).
Proof.
  unfold finalize. cbn. destruct (_uncertainUncompressedSizeEntryRefs (zip w));
    repeat split.
Qed.

Lemma cursor_inv_kept z z' : kept z z' -> cursor_inv z -> cursor_inv z'.
Proof.
  unfold kept, cursor_inv. intros (Hf & Hc & Hp & _) Hz e. rewrite Hf, Hc, Hp. apply Hz.
Qed.

Lemma no_first_kept z z' : kept z z' -> no_first z -> no_first z'.
Proof. unfold kept, no_first. intros (_ & _ & Hp & _). congruence. Qed.

Lemma no_first_cursor_inv z : no_first z -> cursor_inv z.
Proof. unfold no_first, cursor_inv. intros -> e [=]. Qed.

(** A property of the archive that only reads what [kept] keeps is
    kept by everything but the taking of an entry. *)
Section Closed.
Context `{ReaderImpl} `{Platform}.
Context (Iz : Zip -> Prop) (closed : forall z z', kept z z' -> Iz z -> Iz z').

Ltac closed_leaf :=
  try (eapply closed; [|eassumption];
       first [ repeat split; fail
             | apply setAsMacArchive_kept
             | apply setAsNotMacArchive_kept
             | apply finalize_kept
             | apply recalculateEntryCount_kept
             | apply recalculateEntryCountIsCertain_kept ]).

Ltac closed_recalculated :=
  match goal with
  | Hr : _recalculateEntryCount ?n ?cur ?z = (_, ?z1), Hz : Iz ?z |- Iz ?z1 =>
      apply (closed z z1); [|exact Hz];
      replace z1 with (snd (_recalculateEntryCount n cur z)) by (now rewrite Hr);
      apply recalculateEntryCount_kept
  end.

Lemma search_dataDescriptor_closed fuel entryProperties fileDataEnd :
  zpreserves Iz (search_dataDescriptor fuel entryProperties fileDataEnd).
Proof.
  revert fileDataEnd. induction fuel as [|fuel IH]; intros fileDataEnd;
    cbn [search_dataDescriptor]; repeat zp_step; auto.
Qed.

Lemma determineCompressedSize_closed entryProperties fileDataOffsetIfMac :
  zpreserves Iz (_determineCompressedSize entryProperties fileDataOffsetIfMac).
Proof.
  unfold _determineCompressedSize.
  repeat first [ apply search_dataDescriptor_closed | zp_step ]; closed_leaf.
Qed.

Lemma validateAndDecodeEntry_closed entry :
  zpreserves Iz (_validateAndDecodeEntry entry).
Proof.
  intros w Hw. unfold wp, _validateAndDecodeEntry.
  destruct (validateAndDecode (zip w) entry); exact Hw.
Qed.

Lemma update_mac_state_closed entryProperties entryEnd centralDirectoryEnd :
  zpreserves Iz (update_mac_state entryProperties entryEnd centralDirectoryEnd).
Proof.
  unfold update_mac_state. repeat zp_step; closed_leaf.
  all: try closed_recalculated.
Qed.

Lemma openReadStream_closed this options :
  zpreserves Iz (openReadStream this options).
Proof.
  unfold openReadStream.
  repeat first
    [ apply zp_same_archive; intros ?; apply Reader_createReadStream_same_archive
    | zp_step ]; closed_leaf.
Qed.

Lemma SizeValidator_transform_closed stream chunkLength :
  zpreserves Iz (SizeValidator_transform stream chunkLength).
Proof. unfold SizeValidator_transform. repeat zp_step; closed_leaf. Qed.

Lemma SizeValidator_flush_closed stream :
  zpreserves Iz (SizeValidator_flush stream).
Proof.
  unfold SizeValidator_flush. repeat zp_step; closed_leaf.
  all: try (destruct (_uncertainUncompressedSizeEntryRefs _); closed_leaf; assumption).
Qed.

Lemma finish_entry_closed entryProperties entryEnd :
  (forall c z, Iz z -> Iz (with_entryCursor c z)) ->
  (forall n z, Iz z -> Iz (with_numEntriesRead n z)) ->
  zpreserves Iz (finish_entry entryProperties entryEnd).
Proof.
  intros Hcursor Hcount. unfold finish_entry.
  repeat first [ apply determineCompressedSize_closed
               | apply validateAndDecodeEntry_closed | zp_step ]; closed_leaf; auto.
Qed.
End Closed.

Lemma kept_closed z0 : forall z z', kept z z' -> kept z0 z -> kept z0 z'.
Proof. intros z z' Hzz' Hz. exact (kept_trans z0 z z' Hz Hzz'). Qed.

Section TakeEntry.
Context `{ReaderImpl} `{Platform}.

Lemma finish_entry_some entryProperties entryEnd w :
  wp (finish_entry entryProperties entryEnd)
     (fun r _ => is_Some r) (fun _ => True) w.
Proof.
  unfold finish_entry. repeat (apply wp_bind; wp_skip). apply wp_mret. eauto.
Qed.

Lemma finish_entry_advances z0 entryProperties entryEnd w :
  kept (with_firstEntryProps None z0) (zip w) ->
  wp (finish_entry entryProperties entryEnd)
     (fun _ w' => advanced entryEnd z0 (zip w')) (fun _ => True) w.
Proof.
  intros Hk. unfold finish_entry.
  apply wp_bind, wp_get_zip. apply wp_bind.
  lazymatch goal with
  | |- wp ?m _ _ _ =>
      assert (Hm : zpreserves (kept (with_firstEntryProps None z0)) m)
        by (repeat first [ apply determineCompressedSize_closed; apply kept_closed
                         | zp_step ];
            eapply kept_trans; [eassumption|]; repeat split)
  end.
  eapply wp_mono; [apply Hm, Hk| |intros ? ?; exact I].
  cbv beta. clear Hm Hk. intros ep1 w1 Hk.
  apply wp_bind, wp_get_zip. apply wp_bind.
  eapply wp_mono;
    [apply (validateAndDecodeEntry_closed (kept (with_firstEntryProps None z0))), Hk
    | |intros ? ?; exact I].
  cbv beta. clear Hk. intros entry w2 Hk.
  apply wp_bind, wp_update_zip. apply wp_bind, wp_update_zip.
  lazymatch goal with
  | |- wp ?m _ _ _ =>
      assert (Hm : zpreserves (advanced entryEnd z0) m)
        by (repeat zp_step;
            (eapply kept_trans; [eassumption|]; repeat split))
  end.
  eapply wp_mono; [apply Hm| |intros ? ?; exact I].
  - cbn [zip with_zip]. clear Hm. unfold advanced, kept in *. cbn in *.
    intuition congruence.
  - cbv beta. auto.
Qed.

Lemma readEntry_taken_wp w :
  cursor_inv (zip w) ->
  wp _readEntry (fun r w' => entry_taken (zip w) r (zip w')) (fun _ => True) w.
Proof.
  intros Hc. unfold _readEntry. apply wp_bind, wp_get_zip.
  destruct (_ && _); [apply wp_mret, kept_refl|].
  destruct (_firstEntryProps (zip w)) as [e|] eqn:Hfirst.
  - apply wp_bind, wp_update_zip.
    eapply wp_mono;
      [apply wp_conj;
       [apply (finish_entry_advances (zip w)); repeat split|apply finish_entry_some]
      | |auto].
    cbv beta. intros r w' [Ha [ref ->]]. cbn.
    exists (entryEnd e). split; [exact Ha|].
    destruct (Hc e Hfirst) as (H1 & H2 & _ & _ & _ & _ & H3 & _). lia.
  - apply wp_bind.
    eapply wp_mono; [apply readEntryAt_bounds_wp| |auto].
    cbv beta. intros [e|] ? [-> He]; apply wp_bind, wp_get_zip.
    + specialize (He e eq_refl). apply wp_bind.
      eapply wp_mono;
        [apply (update_mac_state_closed _ (kept_closed (zip w))), kept_refl| |auto].
      cbv beta. intros e' w1 Hk.
      eapply wp_mono;
        [apply wp_conj;
         [apply (finish_entry_advances (zip w))|apply finish_entry_some]
        | |auto].
      * eapply kept_trans; [|exact Hk]. unfold kept. cbn. rewrite Hfirst.
        repeat split.
      * cbv beta. intros r w' [Ha [ref ->]]. cbn.
        exists (entryEnd e). split; [exact Ha|].
        destruct He as (H1 & H2 & _ & _ & _ & _ & H3 & _). lia.
    + destruct (_ || _); [exact I|].
      apply wp_bind, wp_when. destruct (isMaybeMacArchive (zip w)).
      * apply wp_update_world, wp_mret. apply setAsNotMacArchive_kept.
      * apply wp_mret, kept_refl.
Qed.

(** [readEntry], the call and its resumption together. *)
Lemma readEntry_taken w :
  cursor_inv (zip w) ->
  wp readEntry (fun r w' => entry_taken (zip w) r (zip w')) (fun _ => True) w.
Proof.
  intros Hc. unfold readEntry. apply wp_bind. unfold wp at 1, readEntry_call.
  destruct (_isReading (zip w)) eqn:Hreading; [exact I|].
  set (w1 := with_zip (with_isReading true (zip w)) w).
  assert (Hc1 : cursor_inv (zip w1)) by exact Hc.
  pose proof (readEntry_taken_wp w1 Hc1) as Hr.
  unfold wp, readEntry_resume in *.
  destruct (_readEntry w1) as [[[ref|]|e] w']; [| |exact I].
  - destruct Hr as (entryEnd & Ha & Hb). exists entryEnd. split; [|exact Hb].
    unfold advanced, kept in *. cbn in *. intuition congruence.
  - unfold entry_taken, kept in *. cbn in *. intuition congruence.
Qed.

Lemma entry_taken_cursor_inv z r z' :
  cursor_inv z -> entry_taken z r z' -> cursor_inv z'.
Proof.
  intros Hc. destruct r as [ref|]; cbn.
  - intros (entryEnd & Ha & _). apply no_first_cursor_inv.
    destruct Ha as (_ & _ & Hp & _). exact Hp.
  - intros Hk. eapply cursor_inv_kept; eassumption.
Qed.

Lemma entry_taken_left z ref z' :
  entry_taken z (Some ref) z' -> (entries_left z' < entries_left z)%nat.
Proof.
  cbn. intros (entryEnd & Ha & Hb). unfold entries_left.
  destruct Ha as (Hf & Hc & _). cbn in Hf, Hc. rewrite Hf, Hc. cbn [num default id].
  unfold CDH_MIN_LENGTH in *.
  set (f := num (footerOffset z)) in *. set (c := num (_entryCursor z)) in *.
  assert (1 <= (f - c) / 46) by (apply Z.div_le_lower_bound; lia).
  assert ((f - entryEnd) / 46 <= (f - c - 46) / 46) by (apply Z.div_le_mono; lia).
  assert ((f - c - 46) / 46 = (f - c) / 46 - 1).
  { replace (f - c - 46) with ((f - c) + (-1) * 46) by lia.
    rewrite Z.div_add by lia. lia. }
  change (num (Some entryEnd)) with entryEnd. lia.
Qed.
End TakeEntry.

Section ReachableCursor.
Context `{ReaderImpl} `{Platform}.

Lemma finish_entry_no_first entryProperties entryEnd :
  zpreserves no_first (finish_entry entryProperties entryEnd).
Proof. apply finish_entry_closed; [apply no_first_kept|auto|auto]. Qed.

Lemma readEntry_no_first : zpreserves no_first _readEntry.
Proof.
  unfold _readEntry.
  repeat first [ apply finish_entry_no_first
               | apply (update_mac_state_closed no_first no_first_kept)
               | zp_step ]; auto.
  all: first [ reflexivity
             | eapply no_first_kept; [|eassumption]; apply setAsNotMacArchive_kept ].
Qed.

Lemma readEntry_cursor_inv : zpreserves cursor_inv _readEntry.
Proof.
  intros w Hc. destruct (_firstEntryProps (zip w)) as [e|] eqn:Hfirst.
  - unfold _readEntry. apply wp_bind, wp_get_zip.
    destruct (_ && _); [exact Hc|]. rewrite Hfirst.
    apply wp_bind, wp_update_zip.
    eapply wp_mono; [apply finish_entry_no_first; reflexivity| |];
      cbv beta; auto using no_first_cursor_inv.
  - eapply wp_mono; [apply readEntry_no_first, Hfirst| |];
      cbv beta; auto using no_first_cursor_inv.
Qed.

Lemma zip_step_cursor_inv ev s s' :
  cursor_inv (zip (zs_world s)) -> zip_step ev s = Some s' ->
  cursor_inv (zip (zs_world s')).
Proof.
  destruct s as [w b n]. cbn [zs_world zs_reading zs_reads]. intros Hc.
  destruct ev; cbn [zip_step zs_world zs_reading zs_reads].
  - unfold readEntry_call. destruct (_isReading (zip w)); intros [= <-]; exact Hc.
  - destruct b; [|discriminate]. intros [= <-]. cbn. unfold readEntry_resume.
    pose proof (readEntry_cursor_inv w Hc) as Hwp. unfold wp in Hwp.
    destruct (_readEntry w) as [[a|e] w']; exact Hwp.
  - intros [= <-]. cbn [zs_world].
    apply (zpreserves_snd _ _ _ (openReadStream_closed _ cursor_inv_kept entry options) Hc).
  - intros [= <-]. cbn [zs_world].
    apply (zpreserves_snd _ _ _
             (SizeValidator_transform_closed _ cursor_inv_kept stream chunkLength) Hc).
  - intros [= <-]. cbn [zs_world].
    apply (zpreserves_snd _ _ _ (SizeValidator_flush_closed _ cursor_inv_kept stream) Hc).
  - intros [= <-]. cbn [zs_world].
    eapply cursor_inv_kept; [apply setAsMacArchive_kept|exact Hc].
  - intros [= <-]. cbn [zs_world].
    eapply cursor_inv_kept; [apply setAsNotMacArchive_kept|exact Hc].
  - intros [= <-]. cbn [zs_world].
    eapply cursor_inv_kept; [apply finalize_kept|exact Hc].
  - destruct (reader_step _ _) as [r|] eqn:Hstep; [|discriminate].
    intros [= <-]. cbn [zs_world rs_world].
    rewrite (reader_step_zip _ _ _ _ Hstep). exact Hc.
Qed.

Lemma zip_reachable_cursor_inv s : zip_reachable s -> cursor_inv (zip (zs_world s)).
Proof.
  induction 1 as [size options r w Hinit | ev s s' _ IH Hstep].
  - cbn [zs_world].
    pose proof (init_opens_wp {| zip := Zip_new size options; reader := r; store := ∅ |})
      as Hwp.
    unfold wp in Hwp. rewrite Hinit in Hwp.
    destruct Hwp as (f & _ & _ & Hcur & Hfirst).
    { now destruct options as [[[[? ?] ?] ?] ?]. }
    intros e He. rewrite Hcur. now apply Hfirst.
  - eapply zip_step_cursor_inv; eassumption.
Qed.

Lemma readEntry_ok_not_reading r w w' :
  readEntry w = (ok r, w') -> _isReading (zip w) = false.
Proof.
  unfold readEntry. rewrite bind_run. unfold readEntry_call.
  now destruct (_isReading (zip w)).
Qed.

(** X17: on an archive that has been opened, a call of [readEntry] that
    answers an entry has moved the entry cursor forward by at least the
    46 bytes of a header, not beyond the footer, and has counted one
    entry; a call that answers [null] has moved nothing.  In both cases
    the footer stays and no call is under way afterwards. *)
Theorem readEntry_advances (s : ZipState) (result : option EntryRef) (w' : World) :
  zip_reachable s ->
  readEntry (zs_world s) = (ok result, w') ->
  let z := zip (zs_world s) in
  footerOffset (zip w') = footerOffset z
  /\ _isReading (zip w') = false
  /\ match result with
     | Some _ =>
         numEntriesRead (zip w') = numEntriesRead z + 1
         /\ num (_entryCursor z) + 46 <= num (_entryCursor (zip w'))
            <= num (footerOffset z)
     | None =>
         numEntriesRead (zip w') = numEntriesRead z
         /\ _entryCursor (zip w') = _entryCursor z
     end.
Proof.
  intros Hs Hrun. cbv zeta.
  pose proof (readEntry_taken _ (zip_reachable_cursor_inv s Hs)) as Hwp.
  pose proof (readEntry_ok_not_reading _ _ _ Hrun) as Hreading.
  unfold wp in Hwp. rewrite Hrun in Hwp.
  destruct result as [ref|]; cbn in Hwp.
  - destruct Hwp as (entryEnd & (Hf & Hc & _ & Hr & Hn & _) & Hb).
    cbn in Hf, Hc, Hr, Hn. rewrite Hf, Hc, Hr, Hn.
    unfold CDH_MIN_LENGTH in Hb. change (num (Some entryEnd)) with entryEnd.
    repeat split; try assumption; lia.
  - destruct Hwp as (Hf & Hc & _ & Hr & Hn & _). rewrite Hf, Hc, Hr, Hn.
    repeat split; assumption.
Qed.
End ReachableCursor.

Lemma readEntry_advances_witness :
  let w' := snd (@readEntry (BufferReader sample_archive) ascii_platform
                   (zs_world sample_state)) in
  footerOffset (zip w') = footerOffset (zip (zs_world sample_state))
  /\ _isReading (zip w') = false
  /\ numEntriesRead (zip w') = numEntriesRead (zip (zs_world sample_state)) + 1
  /\ num (_entryCursor (zip (zs_world sample_state))) + 46
     <= num (_entryCursor (zip w'))
     <= num (footerOffset (zip (zs_world sample_state))).
Proof.
  pose proof (@readEntry_advances (BufferReader sample_archive) ascii_platform
                sample_state (Some 0%nat)
                (snd (@readEntry (BufferReader sample_archive) ascii_platform
                        (zs_world sample_state)))
                sample_state_reachable ltac:(vm_compute; reflexivity)) as Hw.
  cbv beta iota zeta in Hw. cbv zeta. exact Hw.
Defined.

Section ReadEntries.
Context `{ReaderImpl} `{Platform}.

Lemma entry_taken_count z ref z' :
  entry_taken z (Some ref) z' -> numEntriesRead z' = numEntriesRead z + 1.
Proof. cbn. intros (entryEnd & (_ & _ & _ & _ & Hn & _) & _). exact Hn. Qed.

Lemma readEntries_loop_ends numEntries fuel : forall i entries w,
  cursor_inv (zip w) -> (entries_left (zip w) < fuel)%nat ->
  wp (readEntries_loop fuel numEntries i entries)
     (fun result w' => entries_read numEntries i entries (zip w) result (zip w'))
     (fun _ => True) w.
Proof.
  induction fuel as [|fuel IH]; intros i entries w Hc Hfuel; [lia|].
  cbn [readEntries_loop].
  assert (Hstop : entries_read numEntries i entries (zip w) (Some entries) (zip w)
                  \/ (forall n, numEntries = Some n -> i < n)).
  { destruct numEntries as [n|]; [|right; discriminate].
    destruct (Z.ltb_spec i n) as [Hlt|Hge]; [right; now intros ? [= <-]|].
    left. exists []. rewrite app_nil_r. cbn [length].
    split; [reflexivity|]. split; [lia|]. split; [lia|]. split; [|exact Hc].
    intros ? [= <-]. lia. }
  destruct (match numEntries with Some n => i <? n | None => true end) eqn:Hturn.
  - apply wp_bind. eapply wp_mono; [apply readEntry_taken, Hc| |auto].
    cbv beta. intros [entry|] w1 Htaken.
    + pose proof (entry_taken_left _ _ _ Htaken) as Hleft.
      pose proof (entry_taken_count _ _ _ Htaken) as Hcount.
      pose proof (entry_taken_cursor_inv _ _ _ Hc Htaken) as Hc1.
      eapply wp_mono; [apply (IH (i + 1) (entries ++ [entry]) w1 Hc1); lia| |auto].
      cbv beta. intros result w2 (more & -> & Hlen & Hn & Hmax & Hc2).
      exists (entry :: more). rewrite <- app_assoc. cbn [app length].
      split; [reflexivity|]. split; [lia|]. split; [lia|]. split; [|exact Hc2].
      intros n Hnum. specialize (Hmax n Hnum).
      destruct numEntries as [n'|]; [|discriminate]. injection Hnum as ->.
      apply Z.ltb_lt in Hturn. lia.
    + apply wp_mret. exists []. rewrite app_nil_r. cbn [length].
      assert (Hcount : numEntriesRead (zip w1) = numEntriesRead (zip w))
        by (destruct Htaken as (_ & _ & _ & _ & Hcount & _); exact Hcount).
      split; [reflexivity|]. split; [lia|]. split; [lia|]. split.
      * intros n _. lia.
      * eapply entry_taken_cursor_inv; eassumption.
  - apply wp_mret. destruct Hstop as [Hstop|Hstop]; [exact Hstop|].
    destruct numEntries as [n|]; [|discriminate].
    specialize (Hstop n eq_refl). apply Z.ltb_ge in Hturn. lia.
Qed.

(** More fuel does not change the answer of a loop that has ended. *)
Lemma readEntries_loop_fuel numEntries fuel : forall fuel' i entries w result w',
  (fuel <= fuel')%nat ->
  readEntries_loop fuel numEntries i entries w = (result, w') ->
  result <> ok None ->
  readEntries_loop fuel' numEntries i entries w = (result, w').
Proof.
  induction fuel as [|fuel IH]; intros fuel' i entries w result w' Hle.
  - cbn. intros [= <- <-] Hr. now destruct Hr.
  - destruct fuel' as [|fuel']; [lia|]. cbn [readEntries_loop].
    destruct (match numEntries with Some n => i <? n | None => true end); [|auto].
    rewrite !bind_run. destruct (readEntry w) as [[[entry|]|e] w1]; auto.
    apply IH. lia.
Qed.

(** X18: on an archive that has been opened, [readEntries] ends: its
    loop takes at most one turn more than the headers that fit between
    the entry cursor and the footer.  What it answers is at most that
    many entries, at most [numEntries] of them when that is given, and
    as many as the count of entries read has grown by. *)
Theorem readEntries_ends (s : ZipState) (numEntries : option JsNumber) (fuel : nat) :
  zip_reachable s ->
  (entries_left (zip (zs_world s)) < fuel)%nat ->
  exists result w',
    (forall fuel', (fuel <= fuel')%nat ->
       readEntries fuel' numEntries (zs_world s) = (result, w'))
    /\ result <> ok None
    /\ forall entries, result = ok (Some entries) ->
         (length entries <= entries_left (zip (zs_world s)))%nat
         /\ numEntriesRead (zip w')
            = numEntriesRead (zip (zs_world s)) + Z.of_nat (length entries)
         /\ forall n, numEntries = Some (Integer n) -> Z.of_nat (length entries) <= n.
Proof.
  intros Hs Hfuel. pose proof (zip_reachable_cursor_inv s Hs) as Hc.
  set (w := zs_world s) in *.
  assert (Hfail : forall e,
            exists result w',
              (forall fuel' : nat, (fuel <= fuel')%nat -> fail e w = (result, w'))
              /\ result <> ok None
              /\ forall entries : list EntryRef, result = ok (Some entries) ->
                   (length entries <= entries_left (zip w))%nat
                   /\ numEntriesRead (zip w')
                      = numEntriesRead (zip w) + Z.of_nat (length entries)
                   /\ forall n, numEntries = Some (Integer n) ->
                                Z.of_nat (length entries) <= n).
  { intros e. exists (err e), w. split; [reflexivity|]. split; discriminate. }
  assert (Hloop : forall bound,
            (forall n, bound = Some n -> 0 <= n) ->
            exists result w',
              (forall fuel' : nat, (fuel <= fuel')%nat ->
                 readEntries_loop fuel' bound 0 [] w = (result, w'))
              /\ result <> ok None
              /\ forall entries : list EntryRef, result = ok (Some entries) ->
                   (length entries <= entries_left (zip w))%nat
                   /\ numEntriesRead (zip w')
                      = numEntriesRead (zip w) + Z.of_nat (length entries)
                   /\ forall n, bound = Some n -> Z.of_nat (length entries) <= n).
  { intros bound Hbound.
    pose proof (readEntries_loop_ends bound fuel 0 [] w Hc Hfuel) as Hwp.
    unfold wp in Hwp.
    destruct (readEntries_loop fuel bound 0 [] w) as [result w'] eqn:Hrun.
    exists result, w'.
    assert (Hended : result <> ok None).
    { destruct result as [r|e]; [|discriminate].
      destruct Hwp as (more & -> & _). discriminate. }
    split; [|split; [exact Hended|]].
    - intros fuel' Hle. eapply readEntries_loop_fuel; eassumption.
    - intros entries ->. destruct Hwp as (more & [= ->] & Hlen & Hn & Hmax & _).
      cbn [app]. split; [exact Hlen|]. split; [exact Hn|].
      intros n Hnum. specialize (Hmax n Hnum). specialize (Hbound n Hnum). lia. }
  unfold readEntries. destruct numEntries as [[|n|]|]; try apply Hfail.
  - destruct (Z.leb_spec 0 n) as [Hn|Hn]; cbn [negb]; [|apply Hfail].
    destruct (Hloop (Some n)) as (result & w' & Hrun & Hended & Hres).
    { now intros ? [= <-]. }
    exists result, w'. split; [exact Hrun|]. split; [exact Hended|].
    intros entries Hr. destruct (Hres entries Hr) as (H1 & H2 & H3).
    split; [exact H1|]. split; [exact H2|]. intros ? [= <-]. now apply H3.
  - destruct (Hloop None) as (result & w' & Hrun & Hended & Hres); [discriminate|].
    exists result, w'. split; [exact Hrun|]. split; [exact Hended|].
    intros entries Hr. destruct (Hres entries Hr) as (H1 & H2 & H3).
    split; [exact H1|]. split; [exact H2|]. discriminate.
Qed.
End ReadEntries.

Lemma readEntries_ends_witness :
  exists result w',
    (forall fuel', (4 <= fuel')%nat ->
       @readEntries (BufferReader sample_archive) ascii_platform fuel' None
         (zs_world sample_state)
       = (result, w'))
    /\ result <> ok None
    /\ forall entries, result = ok (Some entries) ->
         (length entries <= entries_left (zip (zs_world sample_state)))%nat
         /\ numEntriesRead (zip w')
            = numEntriesRead (zip (zs_world sample_state)) + Z.of_nat (length entries)
         /\ forall n, @None JsNumber = Some (Integer n) -> Z.of_nat (length entries) <= n.
Proof.
  refine (@readEntries_ends (BufferReader sample_archive) ascii_platform
            sample_state None 4 sample_state_reachable _).
  vm_compute. lia.
Defined.

Section Iterator.
Context `{ReaderImpl} `{Platform}.

Lemma iterate_loop fuel : forall i entries w result w',
  readEntries_loop fuel None i entries w = (ok (Some result), w') ->
  exists more,
    result = entries ++ more
    /\ iterate fuel false w = Some ((fun entry => ok (Some entry)) <$> more, w').
Proof.
  induction fuel as [|fuel IH]; intros i entries w result w'; [discriminate|].
  cbn [readEntries_loop iterate]. rewrite bind_run. unfold iterator_next.
  destruct (readEntry w) as [[[entry|]|e] w1]; [| |discriminate].
  - intros Hrun. destruct (IH _ _ _ _ _ Hrun) as (more & -> & Hit).
    exists (entry :: more). rewrite <- app_assoc. split; [reflexivity|].
    cbn [ir_done ir_value]. rewrite Hit. reflexivity.
  - intros [= <- <-]. exists []. now rewrite app_nil_r.
Qed.

(** X19: iterating over the archive with [for await] meets the entries
    that [readEntries()] answers, in the same order and each as a
    success, and leaves the archive in the same state; once the iterator
    is exhausted, [next] answers [done] without reading. *)
Theorem iterate_as_readEntries (fuel : nat) (w : World) (entries : list EntryRef)
    (w' : World) :
  readEntries fuel None w = (ok (Some entries), w') ->
  iterate fuel false w = Some ((fun entry => ok (Some entry)) <$> entries, w')
  /\ forall w0, iterator_next true w0
                = ({| ir_value := ok None; ir_done := true |}, true, w0).
Proof.
  intros Hrun. split; [|reflexivity].
  destruct (iterate_loop _ _ _ _ _ _ Hrun) as (more & -> & Hit). exact Hit.
Qed.
End Iterator.

Lemma iterate_as_readEntries_witness :
  exists entries w',
    length entries = 3%nat
    /\ @iterate (BufferReader sample_archive) ascii_platform 4 false sample_opened
       = Some ((fun entry => ok (Some entry)) <$> entries, w').
Proof.
  exists [0%nat; 1%nat; 2%nat].
  exists (snd (@readEntries (BufferReader sample_archive) ascii_platform 4 None
                 sample_opened)).
  split; [reflexivity|].
  exact (proj1 (@iterate_as_readEntries (BufferReader sample_archive) ascii_platform 4
                  sample_opened [0%nat; 1%nat; 2%nat]
                  (snd (@readEntries (BufferReader sample_archive) ascii_platform 4 None
                          sample_opened))
                  ltac:(vm_compute; reflexivity))).
Defined.
(** ** The options of an archive *)

Lemma has_option_spec key :
  has_option key = true <-> key ∈ option_keys.
Proof. unfold has_option. now rewrite bool_decide_eq_true. Qed.

Lemma get_set_option key key' value options :
  has_option key = true -> has_option key' = true ->
  get_option key' (set_option key value options)
  = if String.eqb key' key then value else get_option key' options.
Proof.
  intros Hk Hk'. apply has_option_spec in Hk, Hk'.
  destruct options as [[[[d s] f] t] m].
  unfold option_keys in *.
  repeat (apply elem_of_cons in Hk as [->|Hk]); [| | | | |now apply elem_of_nil in Hk];
    repeat (apply elem_of_cons in Hk' as [->|Hk']);
    try (now apply elem_of_nil in Hk'); reflexivity.
Qed.

Lemma validateOptions_loop_ok entries : forall options options',
  validateOptions_loop entries options = ok options' ->
  Forall (fun entry => option_error entry = None) entries.
Proof.
  induction entries as [|[key value] entries IH]; intros options options';
    [constructor|].
  cbn [validateOptions_loop]. destruct (has_option key) eqn:Hkey; [|discriminate].
  destruct value as [|value]; [discriminate|]. cbn [negb]. intros Hrun.
  constructor; [|eapply IH, Hrun]. cbn. now rewrite Hkey.
Qed.

Lemma validateOptions_loop_first valid entry rest : forall options,
  Forall (fun entry => option_error entry = None) valid ->
  forall e, option_error entry = Some e ->
  validateOptions_loop (valid ++ entry :: rest) options = err e.
Proof.
  induction valid as [|[key value] valid IH]; intros options Hvalid e He.
  - destruct entry as [key value]. cbn in *.
    destruct (has_option key); cbn in *; [|congruence].
    destruct value; congruence.
  - inversion Hvalid as [|? ? Hentry Hrest]; subst. cbn in Hentry |- *.
    destruct (has_option key); cbn in *; [|discriminate].
    destruct value as [|value]; [discriminate|]. now apply IH.
Qed.

Lemma validateOptions_loop_values entries : forall options,
  Forall (fun entry => option_error entry = None) entries ->
  NoDup entries.*1 ->
  exists options',
    validateOptions_loop entries options = ok options'
    /\ forall key, has_option key = true ->
         (forall value, (key, Boolean value) ∈ entries ->
                        get_option key options' = value)
         /\ (key ∉ entries.*1 -> get_option key options' = get_option key options).
Proof.
  induction entries as [|[key value] entries IH]; intros options Hvalid Hdup.
  - exists options. split; [reflexivity|]. intros key _. split; [|reflexivity].
    intros value Hin. now apply elem_of_nil in Hin.
  - inversion Hvalid as [|? ? Hentry Hrest]; subst.
    apply NoDup_cons in Hdup as [Hnew Hdup]. cbn in Hentry, Hnew.
    destruct (has_option key) eqn:Hkey; cbn in Hentry; [|discriminate].
    destruct value as [|value]; [discriminate|].
    destruct (IH (set_option key value options) Hrest Hdup) as (options' & Hrun & Hget).
    exists options'. cbn [validateOptions_loop]. rewrite Hkey. cbn [negb].
    split; [exact Hrun|]. intros key' Hkey'.
    destruct (Hget key' Hkey') as [Hgiven Hdefault]. split.
    + intros value' Hin. apply elem_of_cons in Hin as [[= -> ->]|Hin];
        [|now apply Hgiven].
      rewrite (Hdefault Hnew), get_set_option by assumption.
      now rewrite String.eqb_refl.
    + intros Hout. cbn in Hout. apply not_elem_of_cons in Hout as [Hne Hout].
      rewrite (Hdefault Hout), get_set_option by assumption.
      destruct (String.eqb_spec key' key); congruence.
Qed.

(** X20: [validateOptions] answers the defaults when no options are
    given.  Of a record it accepts exactly those whose keys are all
    among the five options and whose values are all booleans: each
    option then has the value given for it, or its default when the
    record does not give it.  A record with an offending entry is refused
    with the error of the first such entry. *)
Theorem validateOptions_verdict (entries : list (string * JsBoolean)) :
  NoDup entries.*1 ->
  validateOptions FalsyOptions = ok default_options
  /\ (Forall (fun entry => option_error entry = None) entries ->
      exists options,
        validateOptions (OptionsRecord entries) = ok options
        /\ forall key, has_option key = true ->
             (forall value, (key, Boolean value) ∈ entries ->
                            get_option key options = value)
             /\ (key ∉ entries.*1 ->
                 get_option key options = get_option key default_options))
  /\ (forall options, validateOptions (OptionsRecord entries) = ok options ->
      Forall (fun entry => option_error entry = None) entries)
  /\ (forall valid entry rest e,
        entries = valid ++ entry :: rest ->
        Forall (fun entry => option_error entry = None) valid ->
        option_error entry = Some e ->
        validateOptions (OptionsRecord entries) = err e).
Proof.
  intros Hdup. split; [reflexivity|]. split; [|split].
  - intros Hvalid. now apply validateOptions_loop_values.
  - intros options. apply validateOptions_loop_ok.
  - intros valid entry rest e -> Hvalid He. now apply validateOptions_loop_first.
Qed.

Lemma validateOptions_verdict_witness :
  exists options,
    validateOptions (OptionsRecord [("strictFilenames"%string, Boolean true);
                                    ("decodeStrings"%string, Boolean false)])
    = ok options
    /\ get_option "strictFilenames" options = true
    /\ get_option "decodeStrings" options = false
    /\ get_option "validateFilenames" options
       = get_option "validateFilenames" default_options.
Proof.
  pose (entries := [("strictFilenames"%string, Boolean true);
                    ("decodeStrings"%string, Boolean false)]).
  assert (Hdup : NoDup entries.*1).
  { cbn. repeat constructor; [|apply not_elem_of_nil].
    intros Hin. apply elem_of_cons in Hin as [[=]|Hin]. now apply elem_of_nil in Hin. }
  destruct (validateOptions_verdict entries Hdup) as (_ & Haccept & _).
  destruct Haccept as (options & Hrun & Hget); [repeat constructor|].
  exists options. split; [exact Hrun|].
  split; [apply (Hget "strictFilenames"%string eq_refl); left|].
  split; [apply (Hget "decodeStrings"%string eq_refl); right; left|].
  apply (Hget "validateFilenames"%string eq_refl). cbn.
  intros Hin. apply elem_of_cons in Hin as [[=]|Hin].
  apply elem_of_cons in Hin as [[=]|Hin]. now apply elem_of_nil in Hin.
Defined.

(** ** The factories *)

(** A property of the world that does not read the archive is kept by
    everything that only reads the file and writes to the archive. *)
Section ReadOnly.
Context `{ReaderImpl} `{Platform}.
Context (Iw : World -> Prop) (Hzip : forall z w, Iw w -> Iw (with_zip z w)).

Lemma wv_bind {A B} (m : M A) (f : A -> M B) :
  wpreserves Iw m -> (forall a, wpreserves Iw (f a)) -> wpreserves Iw (m ≫= f).
Proof.
  intros Hm Hf w Hw. apply wp_bind. eapply wp_mono; [apply Hm, Hw| |auto].
  cbv beta. intros a w' Hw'. apply Hf, Hw'.
Qed.

Lemma wv_get_zip_bind {B} (f : Zip -> M B) :
  (forall z, wpreserves Iw (f z)) -> wpreserves Iw (get_zip ≫= f).
Proof. intros Hf w Hw. apply wp_bind, wp_get_zip. now apply Hf. Qed.

Lemma wv_mret {A} (a : A) : wpreserves Iw (mret a).
Proof. intros w Hw. exact Hw. Qed.

Lemma wv_fail {A} e : wpreserves Iw (fail (A := A) e).
Proof. intros w Hw. exact Hw. Qed.

Lemma wv_update_zip g : wpreserves Iw (update_zip g).
Proof. intros w Hw. apply wp_update_zip. now apply Hzip. Qed.

Lemma wv_when (b : bool) m : wpreserves Iw m -> wpreserves Iw (when b m).
Proof. destruct b; [auto|]. intros _. apply wv_mret. Qed.

Lemma wv_Reader_read start length : wpreserves Iw (Reader_read start length).
Proof.
  intros w Hw. eapply wp_mono; [apply Reader_read_world| |]; cbv beta.
  - now intros _ ? ->.
  - now intros ? ->.
Qed.

Lemma wv_readEntryAt offset : wpreserves Iw (_readEntryAt offset).
Proof.
  intros w Hw. eapply wp_mono; [apply readEntryAt_bounds_wp| |]; cbv beta.
  - now intros ? ? [-> _].
  - now intros ? ->.
Qed.

Ltac wv_step :=
  lazymatch goal with
  | |- wpreserves _ (get_zip ≫= _) => apply wv_get_zip_bind; intros ?
  | |- wpreserves _ (_ ≫= _) => apply wv_bind; [|intros ?]
  | |- wpreserves _ (mret _) => apply wv_mret
  | |- wpreserves _ (fail _) => apply wv_fail
  | |- wpreserves _ (when _ _) => apply wv_when
  | |- wpreserves _ (Reader_read _ _) => apply wv_Reader_read
  | |- wpreserves _ (_readEntryAt _) => apply wv_readEntryAt
  | |- wpreserves _ (update_zip _) => apply wv_update_zip
  | |- wpreserves _ (if ?b then _ else _) => destruct b
  | |- wpreserves _ (match ?x with _ => _ end) => destruct x
  end.

Lemma search_centralDirectory_reads fuel : forall offset alreadyCheckedOffset,
  wpreserves Iw (search_centralDirectory fuel offset alreadyCheckedOffset).
Proof.
  induction fuel as [|fuel IH]; intros offset alreadyCheckedOffset;
    cbn [search_centralDirectory]; repeat wv_step; auto.
Qed.

Lemma locate_search_reads entry alreadyCheckedOffset :
  wpreserves Iw (locate_search entry alreadyCheckedOffset).
Proof.
  unfold locate_search.
  repeat first [ apply search_centralDirectory_reads | wv_step ].
Qed.

Lemma locate_finish_reads entry centralDirectoryEnd :
  wpreserves Iw (locate_finish entry centralDirectoryEnd).
Proof. unfold locate_finish. repeat wv_step. Qed.

Lemma locateCentralDirectory_reads : wpreserves Iw _locateCentralDirectory.
Proof.
  unfold _locateCentralDirectory.
  repeat first [ apply locate_search_reads | apply locate_finish_reads | wv_step ].
Qed.

Lemma locateEocdr_reads : wpreserves Iw _locateEocdr.
Proof. unfold _locateEocdr. repeat wv_step. Qed.

Lemma parseEocdr_reads eocdrBuffer : wpreserves Iw (_parseEocdr eocdrBuffer).
Proof. unfold _parseEocdr. repeat wv_step. Qed.

Lemma parseZip64Eocdr_reads : wpreserves Iw _parseZip64Eocdr.
Proof. unfold _parseZip64Eocdr. repeat wv_step. Qed.

Lemma init_reads : wpreserves Iw init.
Proof.
  unfold init.
  repeat first [ apply locateEocdr_reads | apply parseEocdr_reads
               | apply parseZip64Eocdr_reads | apply locateCentralDirectory_reads
               | wv_step ].
Qed.
End ReadOnly.

Section FactoriesOpen.
Context `{ReaderImpl} `{Platform}.

Lemma same_reader_with_zip w0 z w : same_reader w0 w -> same_reader w0 (with_zip z w).
Proof. now intros [Hr Hs]. Qed.

Lemma with_isOpen_true r : _isOpen r = true -> with_isOpen true r = r.
Proof. destruct r as [o c l]. cbn. now intros ->. Qed.

(** What a factory makes once the size and the options are accepted. *)
Lemma open_archive_opens r size options result r' :
  open_archive r size options = (result, r') ->
  r' = with_isOpen true r
  /\ forall w, result = ok w ->
       zip_reachable {| zs_world := w; zs_reading := false; zs_reads := 0 |}
       /\ reader w = r' /\ store w = ∅
       /\ 22 <= size /\ zip_size (zip w) = size
       /\ (decodeStrings (zip w), validateEntrySizes (zip w), validateFilenames (zip w),
           strictFilenames (zip w), supportMacArchive (zip w)) = options
       /\ exists f, footerOffset (zip w) = Some f /\ 0 <= f <= size - 22.
Proof.
  unfold open_archive.
  set (w0 := {| zip := Zip_new size options; reader := r; store := ∅ |}).
  set (w1 := {| zip := Zip_new size options; reader := with_isOpen true r; store := ∅ |}).
  assert (Hopen : snd (Reader_open w0) = w1).
  { unfold Reader_open, w0, w1. cbn [reader].
    destruct (_isOpen r) eqn:Hr; cbn; [|reflexivity].
    now rewrite with_isOpen_true. }
  destruct (Reader_open w0) as [[[]|e] w] eqn:Hrun; cbn [snd] in Hopen; subst w.
  - pose proof (init_reads (same_reader w1) (same_reader_with_zip w1) w1
                  (conj eq_refl eq_refl)) as Hreads.
    pose proof (init_opens_wp w1) as Hopens.
    unfold wp in Hreads, Hopens.
    destruct (init w1) as [[[]|e] w2] eqn:Hinit.
    + intros [= <- <-]. destruct Hreads as [Hr Hs]. split; [exact Hr|].
      intros w [= <-].
      destruct Hopens as (f & Hframe & Hf & _).
      { now destruct options as [[[[? ?] ?] ?] ?]. }
      destruct Hframe as (_ & _ & Hsize & Hd & He & Hn & Ht & Hm & Hfooter).
      split; [|split; [reflexivity|split; [exact Hs|]]].
      * apply (zip_opened size options (with_isOpen true r) w2). exact Hinit.
      * destruct options as [[[[d s] n] t] m]. cbn in *.
        split; [lia|]. split; [exact Hsize|]. split; [congruence|].
        exists f. split; [exact Hfooter|lia].
    + intros [= <- <-]. destruct Hreads as [Hr Hs]. split; [exact Hr|]. discriminate.
  - intros [= <- <-]. split; [reflexivity|]. discriminate.
Qed.

(** X21: [fromReader] refuses a size that is not a positive integer,
    and options that [validateOptions] refuses, before it touches the
    reader.  Otherwise it opens the reader and leaves it open, whether
    or not the archive can be read.  What it returns is an archive that
    has just been opened on that reader: of the size given, of at least
    22 bytes, with the options as validated and no entry read yet. *)
Theorem fromReader_opens (r : Reader) (size : JsNumber) (inputOptions : InputOptions)
    (result : Result World) (r' : Reader) :
  fromReader r size inputOptions = (result, r') ->
  ((forall n, size = Integer n -> n <= 0) ->
   result = err "`size` must be a positive integer" /\ r' = r)
  /\ (forall e, validateOptions inputOptions = err e ->
      exists e', result = err e' /\ r' = r)
  /\ (forall n options,
        size = Integer n -> 0 < n -> validateOptions inputOptions = ok options ->
        r' = with_isOpen true r)
  /\ (forall w, result = ok w ->
      zip_reachable {| zs_world := w; zs_reading := false; zs_reads := 0 |}
      /\ reader w = r' /\ store w = ∅
      /\ exists n options,
           size = Integer n /\ 22 <= n
           /\ validateOptions inputOptions = ok options
           /\ zip_size (zip w) = n
           /\ (decodeStrings (zip w), validateEntrySizes (zip w),
               validateFilenames (zip w), strictFilenames (zip w),
               supportMacArchive (zip w)) = options).
Proof.
  unfold fromReader. intros Hrun.
  destruct size as [|n|].
  - injection Hrun as <- <-. split; [now split|]. split; [eauto|].
    split; [discriminate|discriminate].
  - destruct (Z.ltb_spec 0 n) as [Hn|Hn]; cbn [negb] in Hrun.
    + destruct (validateOptions inputOptions) as [options|e] eqn:Hoptions.
      * destruct (open_archive_opens _ _ _ _ _ Hrun) as [Hr Hw].
        split; [intros Hsize; specialize (Hsize n eq_refl); lia|].
        split; [discriminate|]. split; [intros; exact Hr|].
        intros w Hres.
        destruct (Hw w Hres) as (Hreach & Hrd & Hst & Hsz & Hzs & Hopt & _).
        split; [exact Hreach|]. split; [exact Hrd|]. split; [exact Hst|].
        exists n, options. auto.
      * injection Hrun as <- <-.
        split; [intros Hsize; specialize (Hsize n eq_refl); lia|].
        split; [eauto|]. split; [discriminate|discriminate].
    + injection Hrun as <- <-. split; [now split|]. split; [eauto|].
      split; [intros ? ? [= <-]; lia|discriminate].
  - injection Hrun as <- <-. split; [now split|]. split; [eauto|].
    split; [discriminate|discriminate].
Qed.
End FactoriesOpen.

(** X22: [fromBuffer] returns an archive only for a buffer of at least
    22 bytes that holds an End of Central Directory Record: the archive
    has just been opened on a reader of that buffer, which is open, its
    size is the length of the buffer and its footer lies within the
    buffer, 22 bytes or more before its end. *)
Theorem fromBuffer_opens `{Platform} (buffer : Buffer) (inputOptions : InputOptions)
    (w : World) (r' : Reader) :
  fromBuffer buffer inputOptions = (ok w, r') ->
  @zip_reachable (BufferReader buffer) _
    {| zs_world := w; zs_reading := false; zs_reads := 0 |}
  /\ reader w = with_isOpen true Reader_new
  /\ zip_size (zip w) = buf_length buffer
  /\ 22 <= buf_length buffer
  /\ exists f, footerOffset (zip w) = Some f /\ 0 <= f <= buf_length buffer - 22.
Proof.
  unfold fromBuffer. intros Hrun.
  destruct (validateOptions inputOptions) as [options|e]; [|discriminate].
  destruct (@open_archive_opens (BufferReader buffer) _ _ _ _ _ _ Hrun) as [Hr Hw].
  destruct (Hw w eq_refl) as (Hreach & Hrd & _ & Hsz & Hzs & _ & Hfooter).
  split; [exact Hreach|]. split; [congruence|]. split; [exact Hzs|].
  split; [exact Hsz|]. exact Hfooter.
Qed.

Lemma fromReader_opens_witness :
  let run := @fromReader (BufferReader sample_archive) ascii_platform Reader_new
               (Integer (buf_length sample_archive)) FalsyOptions in
  exists w,
    fst run = ok w
    /\ @zip_reachable (BufferReader sample_archive) ascii_platform
         {| zs_world := w; zs_reading := false; zs_reads := 0 |}
    /\ reader w = snd run /\ store w = ∅.
Proof.
  cbv zeta.
  set (run := @fromReader (BufferReader sample_archive) ascii_platform Reader_new
                (Integer (buf_length sample_archive)) FalsyOptions).
  assert (Hrun : exists w, fst run = ok w).
  { vm_compute. eexists. reflexivity. }
  destruct Hrun as [w Hw]. exists w. split; [exact Hw|].
  destruct (@fromReader_opens (BufferReader sample_archive) ascii_platform Reader_new
              (Integer (buf_length sample_archive)) FalsyOptions (fst run) (snd run)
              (surjective_pairing run)) as (_ & _ & _ & Hopened).
  destruct (Hopened w Hw) as (Hreach & Hrd & Hst & _).
  split; [exact Hreach|]. split; [exact Hrd|exact Hst].
Defined.

Lemma fromBuffer_opens_witness :
  let run := @fromBuffer ascii_platform sample_archive FalsyOptions in
  exists w,
    fst run = ok w
    /\ zip_size (zip w) = buf_length sample_archive
    /\ exists f, footerOffset (zip w) = Some f /\ 0 <= f <= buf_length sample_archive - 22.
Proof.
  cbv zeta.
  set (run := @fromBuffer ascii_platform sample_archive FalsyOptions).
  assert (Hrun : exists w, run = (ok w, snd run)).
  { vm_compute. eexists. reflexivity. }
  destruct Hrun as [w Hw]. exists w. split; [now rewrite Hw|].
  destruct (@fromBuffer_opens ascii_platform sample_archive FalsyOptions w (snd run) Hw)
    as (_ & _ & Hsize & _ & Hfooter).
  split; [exact Hsize|exact Hfooter].
Defined.
